(** * SAT encodings of NFA acceptance and teacher set cover

    A shallow embedding of the Python programs under [Ex2/NFA] and
    [Ex2/SET-COVER]: the variable interner and clause store shared by the two
    [CNFGenerator] classes, the two clause generators, the DIMACS writer and
    the two model decoders, followed by the properties of the specification
    that are settled on them. *)

From Stdlib Require Import Ascii String DecimalString DecimalPos DecimalZ.
From stdpp Require Import gmap strings list fin_maps.

Local Open Scope Z_scope.

(** ** Python built-ins used by the programs *)

Module Py.

(** The newline character, as a string. *)
Definition nl : string := String "010" EmptyString.

(** [str(i)] for an [int]: decimal digits, a leading minus sign when negative. *)
Definition str (z : Z) : string := NilZero.string_of_int (Z.to_int z).

(** [int(s)] on the decimal tokens the programs hand to it: an optional
    minus sign followed by one or more ASCII digits; anything else is the
    [ValueError] case, rendered by [None]. *)
Definition int (s : string) : option Z := Z.of_int <$> NilZero.int_of_string s.

(** [sep.join(xs)]. *)
Definition join (sep : string) (xs : list string) : string := String.concat sep xs.

(** [s.split(sep)] for a separator of one character: the maximal pieces
    between occurrences of [sep], empty pieces included. *)
Fixpoint split (sep : ascii) (s : string) : list string :=
  match s with
  | EmptyString => [EmptyString]
  | String c rest =>
      if Ascii.eqb c sep then EmptyString :: split sep rest
      else match split sep rest with
           | [] => [String c EmptyString]
           | piece :: pieces => String c piece :: pieces
           end
  end.

(** [s.startswith(p)]. *)
Definition startswith (p s : string) : bool := String.prefix p s.

(** [s[t]]: the one-character string at index [t]; the programs only index
    below [len(s)], out of range the model yields the empty string. *)
Definition getitem (s : string) (t : nat) : string :=
  match String.get t s with
  | Some c => String c EmptyString
  | None => EmptyString
  end.

(** [range(n)] and [enumerate(l)]. *)
Definition range (n : nat) : list nat := seq 0 n.
Definition enumerate {A} (l : list A) : list (nat * A) := imap pair l.

(** [itertools.combinations(l, r)] for [0 <= r], in the order itertools
    yields them (lexicographic in the positions of [l]). *)
Fixpoint combinations {A} (l : list A) (r : nat) : list (list A) :=
  match r with
  | O => [[]]
  | S r' =>
      match l with
      | [] => []
      | x :: l' => ((x ::.) <$> combinations l' r') ++ combinations l' (S r')
      end
  end.

(** [itertools.combinations(l, r)] for any [int] [r]: a negative [r] is
    refused with [ValueError("r must be non-negative")]. *)
Definition itertools_combinations {A} (l : list A) (r : Z)
  : option (list (list A)) :=
  if r <? 0 then None else Some (combinations l (Z.to_nat r)).

End Py.

(** ** The generator state and its monad *)

(** The mutable attributes that both [CNFGenerator] classes declare in
    [__init__]: [self.var_map], [self.next_var] and [self.clauses]. The other
    attributes ([self.nfa], [self.input_string], [self.length];
    [self.teachers], [self.subjects], [self.k]) are never reassigned and are
    passed as parameters. *)
Record CNFGenerator := mkGen {
  var_map : gmap string Z;
  next_var : Z;
  clauses : list (list Z)
}.

(** [__init__]: an empty map, counter at 1, no clause. *)
Definition init : CNFGenerator :=
  {| var_map := ∅; next_var := 1; clauses := [] |}.

Inductive exn :=
| ValueError (msg : string)
| IndexError
| KeyError.

Inductive result (A : Type) :=
| Ok (a : A)
| Raise (e : exn).
Arguments Ok {A} a.
Arguments Raise {A} e.

(** A method of the generator: it reads and updates the mutable attributes
    and either returns or raises; what was mutated before a [raise] stays. *)
Definition M (A : Type) : Type := CNFGenerator → result A * CNFGenerator.

Global Instance M_ret : MRet M := λ A a g, (Ok a, g).
Global Instance M_bind : MBind M := λ A B f m g,
  match m g with
  | (Ok a, g') => f a g'
  | (Raise e, g') => (Raise e, g')
  end.

Definition raise {A} (e : exn) : M A := λ g, (Raise e, g).

(** [for x in l: body x]. *)
Fixpoint for_ {A} (l : list A) (body : A → M ()) : M () :=
  match l with
  | [] => mret ()
  | x :: l' => body x ;; for_ l' body
  end.

(** The state and the outcome of running a method. *)
Definition exec {A} (m : M A) (g : CNFGenerator) : CNFGenerator := (m g).2.
Definition outcome {A} (m : M A) (g : CNFGenerator) : result A := (m g).1.

(** The interning step at the end of both [get_var] methods:
<<
    if var_name not in self.var_map:
        self.var_map[var_name] = self.next_var
        self.next_var += 1
    return self.var_map[var_name]
>> *)
Definition intern (var_name : string) : M Z := λ g,
  match var_map g !! var_name with
  | Some v => (Ok v, g)
  | None =>
      (Ok (next_var g),
       {| var_map := <[var_name := next_var g]> (var_map g);
          next_var := next_var g + 1;
          clauses := clauses g |})
  end.

(** [add_clause]: [self.clauses.append(clause)]. *)
Definition add_clause (clause : list Z) : M () := λ g,
  (Ok (),
   {| var_map := var_map g; next_var := next_var g;
      clauses := clauses g ++ [clause] |}).

(** The pairwise at-most-one loop, written out twice in the NFA generator:
<<
    for i, s1 in enumerate(vars):
        for j, s2 in enumerate(vars):
            if i < j:
                self.add_clause([-s1, -s2])
>> *)
Definition at_most_one (vars : list Z) : M () :=
  for_ (Py.enumerate vars) (λ '(i, s1),
    for_ (Py.enumerate vars) (λ '(j, s2),
      if (i <? j)%nat then add_clause [- s1; - s2] else mret ())).

(** [get_var_mapping]: [{v: k for k, v in self.var_map.items()}]. The order of
    the items only matters when two names share an index, which the interner
    never produces. *)
Definition get_var_mapping (g : CNFGenerator) : gmap Z string :=
  list_to_map (prod_swap <$> map_to_list (var_map g)).

(** [write_dimacs]: the text written to the file, one [f.write] after the
    other. *)
Definition write_dimacs (g : CNFGenerator) : string :=
  let num_vars := next_var g - 1 in
  let num_clauses := Z.of_nat (length (clauses g)) in
  let header :=
    "p cnf " +:+ Py.str num_vars +:+ " " +:+ Py.str num_clauses +:+ Py.nl in
  fold_left
    (λ f clause, f +:+ (Py.join " " (Py.str <$> clause) +:+ " 0" +:+ Py.nl))
    (clauses g) header.

(** ** Truth of a formula under an assignment *)

Module Sat.

(** An assignment gives a truth value to every variable index; a positive
    literal is true when its variable is, a negative one when it is not. *)
Definition lit_true (a : Z → bool) (l : Z) : bool :=
  if 0 <? l then a l else if l <? 0 then negb (a (- l)) else false.

Definition clause_true (a : Z → bool) (c : list Z) : bool :=
  existsb (lit_true a) c.

Definition cnf_true (a : Z → bool) (cs : list (list Z)) : bool :=
  forallb (clause_true a) cs.

Definition satisfiable (cs : list (list Z)) : Prop :=
  ∃ a, cnf_true a cs = true.

(** The model a solver returns for an assignment of the variables
    [1..nv]: one signed literal per variable, in increasing order. *)
Definition model_of (a : Z → bool) (nv : nat) : list Z :=
  (λ i, let v := Z.of_nat (S i) in if a v then v else - v) <$> seq 0 nv.

End Sat.

(** Code that raises without touching a generator: the decoders. *)
Global Instance result_ret : MRet result := λ A a, Ok a.
Global Instance result_bind : MBind result := λ A B f r,
  match r with
  | Ok a => f a
  | Raise e => Raise e
  end.

(** [d[k]] on a dict: [KeyError] when the key is absent. *)
Definition dict_get `{Countable K} {V} (d : gmap K V) (k : K) : result V :=
  match d !! k with
  | Some v => Ok v
  | None => Raise KeyError
  end.

(** ** The NFA programs: [nfa.py], [cnf_generator.py], [solver.py] *)

Module NfaSat.

(** The dataclass [NFA]. *)
Record NFA := mkNFA {
  states : list string;
  alphabet : list string;
  transitions : gmap string (gmap string (list string));
  initial_states : list string;
  final_states : list string
}.

(** [_validate_structure]: [true] when no [ValueError] is raised, that is
    when the initial states, the final states, the source states, the
    symbols and the target states of the transitions are all declared. *)
Definition _validate_structure (nfa : NFA) : bool :=
  forallb (λ s, bool_decide (s ∈ states nfa)) (initial_states nfa)
  && forallb (λ s, bool_decide (s ∈ states nfa)) (final_states nfa)
  && forallb (λ '(state, trans),
       bool_decide (state ∈ states nfa)
       && forallb (λ '(symbol, next_states),
            bool_decide (symbol ∈ alphabet nfa)
            && forallb (λ s, bool_decide (s ∈ states nfa)) next_states)
          (map_to_list trans))
     (map_to_list (transitions nfa)).

(** The check of [main] on the word:
    [all(c in nfa.alphabet for c in input_string)]. *)
Fixpoint word_over (nfa : NFA) (input_string : string) : bool :=
  match input_string with
  | EmptyString => true
  | String c rest =>
      bool_decide (String c EmptyString ∈ alphabet nfa) && word_over nfa rest
  end.

Definition get_next_states (nfa : NFA) (current_state symbol : string)
  : list string :=
  match transitions nfa !! current_state with
  | None => []
  | Some trans => default [] (trans !! symbol)
  end.

(** The inner function [dfs] of [accepts]; the loop that returns [True] at
    the first successful successor is [existsb]. *)
Fixpoint dfs (nfa : NFA) (remaining_input : string) (current_state : string)
  : bool :=
  match remaining_input with
  | EmptyString => bool_decide (current_state ∈ final_states nfa)
  | String c rest =>
      let symbol := String c EmptyString in
      existsb (dfs nfa rest) (get_next_states nfa current_state symbol)
  end.

Definition accepts (nfa : NFA) (input_string : string) : bool :=
  existsb (dfs nfa input_string) (initial_states nfa).

(** [CNFGenerator.get_var(state, time)] of the NFA generator: the name
    [f"{state}_{time}"], then the interning step. *)
Definition var_name (state : string) (time : Z) : string :=
  state +:+ "_" +:+ Py.str time.

Definition get_var (state : string) (time : Z) : M Z :=
  intern (var_name state time).

(** [CNFGenerator.generate_cnf] of the NFA generator. *)
Definition generate_cnf (nfa : NFA) (input_string : string) : M () :=
  let length := String.length input_string in
  init_state_vars ← mapM (λ s, get_var s 0) (initial_states nfa);
  add_clause init_state_vars;;
  at_most_one init_state_vars;;
  for_ (Py.range length) (λ t,
    for_ (states nfa) (λ state,
      current_var ← get_var state (Z.of_nat t);
      next_vars ← mapM (λ s, get_var s (Z.of_nat t + 1))
                    (get_next_states nfa state (Py.getitem input_string t));
      match next_vars with
      | [] => mret ()
      | _ => add_clause ((- current_var) :: next_vars)
      end));;
  for_ (Py.range (length + 1)) (λ t,
    state_vars_at_t ← mapM (λ s, get_var s (Z.of_nat t)) (states nfa);
    add_clause state_vars_at_t;;
    at_most_one state_vars_at_t);;
  final_state_vars ← mapM (λ s, get_var s (Z.of_nat length)) (final_states nfa);
  add_clause final_state_vars.

(** The generator after [CNFGenerator(nfa, input_string).generate_cnf()]. *)
Definition generated (nfa : NFA) (input_string : string) : CNFGenerator :=
  exec (generate_cnf nfa input_string) init.

(** The loop of [NFASolver._extract_path] over the true variables, in the
    order [order] in which the set is iterated:
<<
      var_name = self.var_mapping[var]
      state, time = var_name.split('_')
      time_state_map[int(time)] = state
>> *)
Fixpoint fill_time_state_map (var_mapping : gmap Z string) (order : list Z)
    (time_state_map : gmap Z string) : result (gmap Z string) :=
  match order with
  | [] => Ok time_state_map
  | var :: rest =>
      var_name ← dict_get var_mapping var;
      match Py.split "_" var_name with
      | [state; time] =>
          match Py.int time with
          | Some t =>
              fill_time_state_map var_mapping rest (<[t := state]> time_state_map)
          | None => Raise (ValueError "invalid literal for int()")
          end
      | _ => Raise (ValueError "unpack")
      end
  end.

(** The rest of [_extract_path]:
    [for t in range(len(time_state_map)): path.append(time_state_map[t])]. *)
Definition path_of (time_state_map : gmap Z string) : result (list string) :=
  mapM (λ t, dict_get time_state_map (Z.of_nat t))
       (Py.range (size time_state_map)).

Definition extract_path_in (var_mapping : gmap Z string) (order : list Z)
  : result (list string) :=
  fill_time_state_map var_mapping order ∅ ≫= path_of.

(** [_extract_path(model)]: [true_vars] is a set; it is iterated here in
    the order of the model. *)
Definition _extract_path (var_mapping : gmap Z string) (model : list Z)
  : result (list string) :=
  let true_vars := remove_dups (filter (λ lit, 0 < lit) model) in
  extract_path_in var_mapping true_vars.

End NfaSat.

(** ** The set-cover programs: [teacher_subject_set_cover.py],
       [cnf_generator.py], [solver.py] *)

Module Teacher.
(** The dataclass [Teacher]; [subjects] is a set, listed without
    repetition. *)
Record Teacher := mk { name : string; subjects : list string }.
End Teacher.
Abbreviation Teacher := Teacher.Teacher.

Module SetCoverSat.

(** The dataclass [TeacherSubjectSetCover]. [teachers] and [subjects] are
    Python sets: each is listed in the order in which the run iterates
    it. *)
Record TeacherSubjectSetCover := mkProblem {
  teachers : list Teacher;
  subjects : list string;
  k : Z
}.

(** [_validate_structure]: [true] when no [ValueError] is raised. *)
Definition _validate_structure (problem : TeacherSubjectSetCover) : bool :=
  let teacher_names := Teacher.name <$> teachers problem in
  bool_decide (length teacher_names = length (remove_dups teacher_names))
  && negb (bool_decide (length (teachers problem) = 0%nat))
  && negb (k problem <=? 0).

(** [CNFGenerator.get_var(type, *args)] of the set-cover generator: the
    name [f"{type}_{args[0]}"] or [f"{type}_{args[0]}_{args[1]}"], then the
    interning step. The arguments the generator passes are names, which an
    f-string inserts unchanged. *)
Definition var_name (type : string) (args : list string) : result string :=
  if String.eqb type "x" then
    match args with
    | a0 :: _ => Ok (type +:+ "_" +:+ a0)
    | _ => Raise IndexError
    end
  else if String.eqb type "y" then
    match args with
    | a0 :: a1 :: _ => Ok (type +:+ "_" +:+ a0 +:+ "_" +:+ a1)
    | _ => Raise IndexError
    end
  else Raise (ValueError "Invalid variable type. Must be 'x' or 'y'.").

Definition get_var (type : string) (args : list string) : M Z :=
  match var_name type args with
  | Ok name => intern name
  | Raise e => raise e
  end.

(** [combinations(...)] at the head of a [for]: the iterator is built, and
    a negative size refused, before the first iteration. *)
Definition combinations_of {A} (l : list A) (r : Z) : M (list (list A)) :=
  match Py.itertools_combinations l r with
  | Some subsets => mret subsets
  | None => raise (ValueError "r must be non-negative")
  end.

Definition can_teach (teacher : Teacher) (subject : string) : bool :=
  bool_decide (subject ∈ Teacher.subjects teacher).

(** The three parts of [generate_cnf], in the order of the source. *)
Definition capability_clauses (problem : TeacherSubjectSetCover) : M () :=
  for_ (teachers problem) (λ teacher,
    for_ (subjects problem) (λ subject,
      y_ij ← get_var "y" [Teacher.name teacher; subject];
      if can_teach teacher subject
      then add_clause [y_ij]
      else add_clause [- y_ij])).

Definition coverage_clauses (problem : TeacherSubjectSetCover) : M () :=
  for_ (subjects problem) (λ subject,
    let teachers_for_subject :=
      filter (λ teacher, can_teach teacher subject = true) (teachers problem) in
    clause ← mapM (λ teacher, get_var "x" [Teacher.name teacher])
               teachers_for_subject;
    add_clause clause).

Definition cardinality_clauses (problem : TeacherSubjectSetCover) : M () :=
  subsets ← combinations_of (teachers problem) (k problem + 1);
  for_ subsets (λ subset,
    clause ← mapM (λ teacher,
                v ← get_var "x" [Teacher.name teacher]; mret (- v)) subset;
    add_clause clause);;
  let n := Z.of_nat (length (teachers problem)) in
  subsets ← combinations_of (teachers problem) (n - k problem + 1);
  for_ subsets (λ subset,
    clause ← mapM (λ teacher, get_var "x" [Teacher.name teacher]) subset;
    add_clause clause).

(** [CNFGenerator.generate_cnf] of the set-cover generator. *)
Definition generate_cnf (problem : TeacherSubjectSetCover) : M () :=
  capability_clauses problem;;
  coverage_clauses problem;;
  cardinality_clauses problem.

(** The generator after [CNFGenerator(problem).generate_cnf()], and whether
    the call returned or raised. *)
Definition generated (problem : TeacherSubjectSetCover) : CNFGenerator :=
  exec (generate_cnf problem) init.
Definition generate_outcome (problem : TeacherSubjectSetCover) : result () :=
  outcome (generate_cnf problem) init.

(** [TeacherSolver._extract_teachers(model)]. *)
Definition is_selected (var_mapping : gmap Z string) (var : Z)
  : option string :=
  if 0 <? var then
    match var_mapping !! var with
    | Some var_name =>
        if Py.startswith "x" var_name then Some var_name else None
    | None => None
    end
  else None.

Definition _extract_teachers (var_mapping : gmap Z string) (model : list Z)
  : result (list string) :=
  let selected := omap (is_selected var_mapping) model in
  mapM (λ teacher,
          match Py.split "_" teacher !! 1%nat with
          | Some piece => Ok piece
          | None => Raise IndexError
          end) selected.

End SetCoverSat.

(** ** Reasoning about generator methods *)

(** [hoare P m Q]: from a state in [P], the method [m] returns (it does not
    raise) a value and a state in [Q], and every name interned before is
    still interned at the same index. *)
Definition hoare {A} (P : CNFGenerator → Prop) (m : M A)
    (Q : A → CNFGenerator → Prop) : Prop :=
  ∀ g, P g → ∃ a g', m g = (Ok a, g') ∧ var_map g ⊆ var_map g' ∧ Q a g'.

(** [preserves P m]: [P] holds of the state [m] leaves, whether it returns or
    raises. *)
Definition preserves {A} (P : CNFGenerator → Prop) (m : M A) : Prop :=
  ∀ g, P g → P (exec m g).

(** A property of the state that interning further names cannot undo. *)
Definition stable (F : CNFGenerator → Prop) : Prop :=
  ∀ g g', F g → var_map g ⊆ var_map g' → F g'.

Section Hoare.
Context {A B : Type}.
Implicit Types (P F : CNFGenerator → Prop).

Lemma hoare_ret P (a : A) (Q : A → CNFGenerator → Prop) :
  (∀ g, P g → Q a g) → hoare P (mret a) Q.
Proof. intros HQ g Hg. exists a, g. split_and!; [done | done | auto]. Qed.

Lemma hoare_bind P (m : M A) (f : A → M B) R Q :
  hoare P m R → (∀ a, hoare (R a) (f a) Q) → hoare P (m ≫= f) Q.
Proof.
  intros Hm Hf g Hg. destruct (Hm g Hg) as (a & g1 & E1 & Hsub1 & HR).
  destruct (Hf a g1 HR) as (b & g2 & E2 & Hsub2 & HQ).
  exists b, g2. split_and!; [| by etrans | done].
  unfold mbind, M_bind. by rewrite E1.
Qed.

Lemma hoare_weaken P P' (m : M A) (Q Q' : A → CNFGenerator → Prop) :
  hoare P' m Q' → (∀ g, P g → P' g) → (∀ a g, Q' a g → Q a g) →
  hoare P m Q.
Proof.
  intros Hm HP HQ g Hg. destruct (Hm g (HP g Hg)) as (a & g' & E & Hsub & H').
  exists a, g'. auto.
Qed.

Lemma hoare_frame P F (m : M A) (Q : A → CNFGenerator → Prop) :
  hoare P m Q → stable F →
  hoare (λ g, P g ∧ F g) m (λ a g, Q a g ∧ F g).
Proof.
  intros Hm HF g [Hg HFg]. destruct (Hm g Hg) as (a & g' & E & Hsub & HQ).
  exists a, g'. split_and!; eauto.
Qed.

Lemma hoare_pure (φ : Prop) P (m : M A) Q :
  (φ → hoare P m Q) → hoare (λ g, φ ∧ P g) m Q.
Proof. intros Hm g [Hφ Hg]. by apply Hm. Qed.

Lemma hoare_exec P (m : M A) Q g :
  hoare P m Q → P g →
  ∃ a, m g = (Ok a, exec m g) ∧ var_map g ⊆ var_map (exec m g) ∧ Q a (exec m g).
Proof.
  intros Hm Hg. destruct (Hm g Hg) as (a & g' & E & Hsub & HQ).
  exists a. unfold exec. rewrite E. auto.
Qed.

Lemma preserves_ret P (a : A) : preserves P (mret a).
Proof. by intros g Hg. Qed.

Lemma preserves_raise P e : preserves P (raise e : M A).
Proof. by intros g Hg. Qed.

Lemma preserves_bind P (m : M A) (f : A → M B) :
  preserves P m → (∀ a, preserves P (f a)) → preserves P (m ≫= f).
Proof.
  intros Hm Hf g Hg. specialize (Hm g Hg).
  unfold exec, mbind, M_bind in *. destruct (m g) as [[a | e] g1]; simpl in *.
  - by apply Hf.
  - done.
Qed.
End Hoare.

Lemma for_cons {A} (x : A) l (body : A → M ()) :
  for_ (x :: l) body = (body x ;; for_ l body).
Proof. done. Qed.

Lemma mapM_cons {A B} (f : A → M B) x l :
  mapM f (x :: l) = (y ← f x; k ← mapM f l; mret (y :: k)).
Proof. done. Qed.

(** A loop whose invariant [I] is indexed by the part of the list already
    visited. *)
Lemma hoare_for {A} (I : list A → CNFGenerator → Prop) (l : list A)
    (body : A → M ()) :
  (∀ done x rest, l = done ++ x :: rest →
     hoare (I done) (body x) (λ _, I (done ++ [x]))) →
  hoare (I []) (for_ l body) (λ _, I l).
Proof.
  intros Hbody.
  cut (∀ rest done, l = done ++ rest → hoare (I done) (for_ rest body) (λ _, I l)).
  { intros H. by apply (H l []). }
  induction rest as [| x rest IH]; intros done Hl.
  - rewrite app_nil_r in Hl. subst. by apply hoare_ret.
  - rewrite for_cons. eapply hoare_bind; [by apply (Hbody done x rest) |].
    intros []. apply IH. by rewrite <- app_assoc.
Qed.

Lemma preserves_for {A} (P : CNFGenerator → Prop) (l : list A) (body : A → M ()) :
  (∀ x, x ∈ l → preserves P (body x)) → preserves P (for_ l body).
Proof.
  induction l as [| x l IH]; intros Hbody.
  - apply preserves_ret.
  - rewrite for_cons. apply preserves_bind.
    + apply Hbody. by left.
    + intros _. apply IH. intros y Hy. apply Hbody. by right.
Qed.

Lemma preserves_mapM {A B} (P : CNFGenerator → Prop) (f : A → M B) (l : list A) :
  (∀ x, x ∈ l → preserves P (f x)) → preserves P (mapM f l).
Proof.
  induction l as [| x l IH]; intros Hf.
  - apply preserves_ret.
  - rewrite mapM_cons. apply preserves_bind; [apply Hf; by left |].
    intros y. apply preserves_bind.
    + apply IH. intros z Hz. apply Hf. by right.
    + intros k. apply preserves_ret.
Qed.

(** [mapM f l] under an invariant [I]: one result per element, each related
    to its element by a stable [R]. *)
Lemma hoare_mapM {A B} (I : CNFGenerator → Prop)
    (R : A → B → CNFGenerator → Prop) (f : A → M B) (l : list A) :
  (∀ x b, stable (R x b)) →
  (∀ x, x ∈ l → hoare I (f x) (λ b g, I g ∧ R x b g)) →
  hoare I (mapM f l) (λ bs g, I g ∧ Forall2 (λ x b, R x b g) l bs).
Proof.
  intros HR. induction l as [| x l IH]; intros Hf.
  - apply hoare_ret. intros g Hg. split; [done | constructor].
  - rewrite mapM_cons.
    eapply hoare_bind; [apply Hf; by left |]. intros b. simpl.
    eapply hoare_bind.
    + apply hoare_frame; [| apply HR].
      apply IH. intros y Hy. apply Hf. by right.
    + intros bs. apply hoare_ret. intros g [[HI HF] HRx].
      split; [done |]. by constructor.
Qed.

(** ** The variable interner *)

(** What the interner maintains: the counter is one past the number of names,
    and the names are in bijection with the indices below the counter. *)
Record interner_ok (g : CNFGenerator) : Prop := {
  ok_next : next_var g = Z.of_nat (size (var_map g)) + 1;
  ok_range : ∀ name i, var_map g !! name = Some i → 1 ≤ i < next_var g;
  ok_inj : ∀ name name' i,
    var_map g !! name = Some i → var_map g !! name' = Some i → name = name';
  ok_surj : ∀ i, 1 ≤ i < next_var g → ∃ name, var_map g !! name = Some i
}.

Lemma interner_ok_init : interner_ok init.
Proof.
  split; simpl.
  - by rewrite map_size_empty.
  - intros name i. by rewrite lookup_empty.
  - intros name name' i. by rewrite lookup_empty.
  - intros i. lia.
Qed.

Lemma intern_known name i g :
  var_map g !! name = Some i → intern name g = (Ok i, g).
Proof. intros H. unfold intern. by rewrite H. Qed.

Lemma intern_fresh name g :
  var_map g !! name = None →
  intern name g =
    (Ok (next_var g),
     {| var_map := <[name := next_var g]> (var_map g);
        next_var := next_var g + 1; clauses := clauses g |}).
Proof. intros H. unfold intern. by rewrite H. Qed.

Lemma intern_lookup name g :
  ∃ i, intern name g = (Ok i, exec (intern name) g)
       ∧ var_map (exec (intern name) g) !! name = Some i
       ∧ var_map g ⊆ var_map (exec (intern name) g)
       ∧ clauses (exec (intern name) g) = clauses g.
Proof.
  unfold exec. destruct (var_map g !! name) as [i |] eqn:E.
  - rewrite (intern_known _ _ _ E). exists i. by split_and!.
  - rewrite (intern_fresh _ _ E). exists (next_var g). simpl. split_and!; try done.
    + apply lookup_insert_eq.
    + by apply insert_subseteq.
Qed.

Lemma interner_ok_intern name g :
  interner_ok g → interner_ok (exec (intern name) g).
Proof.
  intros [Hnext Hrange Hinj Hsurj]. unfold exec.
  destruct (var_map g !! name) as [i |] eqn:E.
  - rewrite (intern_known _ _ _ E). by split.
  - rewrite (intern_fresh _ _ E). split; simpl.
    + rewrite map_size_insert_None by done. lia.
    + intros name' i. rewrite lookup_insert. case_decide.
      * intros [= <-]. lia.
      * intros H'. apply Hrange in H'. lia.
    + intros n1 n2 i. rewrite !lookup_insert.
      repeat case_decide; subst; try done.
      * intros [= <-] H2. apply Hrange in H2. lia.
      * intros H1 [= <-]. apply Hrange in H1. lia.
      * apply Hinj.
    + intros i Hi. destruct (decide (i = next_var g)) as [-> | Hne].
      * exists name. apply lookup_insert_eq.
      * destruct (Hsurj i ltac:(lia)) as [name' Hname'].
        exists name'. rewrite lookup_insert_ne; [done |]. by intros ->; simplify_eq.
Qed.

Lemma interner_ok_add_clause c g :
  interner_ok g → interner_ok (exec (add_clause c) g).
Proof. by intros []. Qed.

(** The reverse mapping is the inverse of the interner's map. *)
Lemma get_var_mapping_lookup g i name :
  interner_ok g →
  get_var_mapping g !! i = Some name ↔ var_map g !! name = Some i.
Proof.
  intros Hok. unfold get_var_mapping. split.
  - intros H. apply elem_of_list_to_map_2 in H.
    apply list_elem_of_fmap in H as ([name' i'] & [= -> ->] & H).
    by apply elem_of_map_to_list in H.
  - intros H. apply elem_of_list_to_map_1'.
    + intros name' H'.
      apply list_elem_of_fmap in H' as ([n2 i2] & [= -> ->] & H2).
      apply elem_of_map_to_list in H2. by eapply ok_inj.
    + apply list_elem_of_fmap. exists (name, i). split; [done |].
      by apply elem_of_map_to_list.
Qed.

Module Interner.

(** A call of [get_var], of the NFA generator or of the set-cover one. *)
Inductive call :=
| NfaGetVar (state : string) (time : Z)
| CoverGetVar (type : string) (args : list string).

Definition get_var_of (c : call) : M Z :=
  match c with
  | NfaGetVar state time => NfaSat.get_var state time
  | CoverGetVar type args => SetCoverSat.get_var type args
  end.

(** The name the call interns, or the exception it raises before. *)
Definition name_of (c : call) : result string :=
  match c with
  | NfaGetVar state time => Ok (NfaSat.var_name state time)
  | CoverGetVar type args => SetCoverSat.var_name type args
  end.

(** The generator after a sequence of calls; a call that raised has been
    caught by the caller. *)
Definition run_calls (cs : list call) (g : CNFGenerator) : CNFGenerator :=
  foldl (λ g c, exec (get_var_of c) g) g cs.

Lemma get_var_of_named c name :
  name_of c = Ok name → get_var_of c = intern name.
Proof.
  destruct c as [state time | type args]; simpl.
  - by intros [= <-].
  - unfold SetCoverSat.get_var. by intros ->.
Qed.

Lemma get_var_of_refused c e g :
  name_of c = Raise e → get_var_of c g = (Raise e, g).
Proof.
  destruct c as [state time | type args]; simpl; [done |].
  unfold SetCoverSat.get_var. by intros ->.
Qed.

Lemma interner_ok_call c g : interner_ok g → interner_ok (exec (get_var_of c) g).
Proof.
  intros Hok. destruct (name_of c) as [name | e] eqn:E.
  - rewrite (get_var_of_named _ _ E). by apply interner_ok_intern.
  - unfold exec. by rewrite (get_var_of_refused _ _ _ E).
Qed.

Lemma call_extends c g : var_map g ⊆ var_map (exec (get_var_of c) g).
Proof.
  destruct (name_of c) as [name | e] eqn:E.
  - rewrite (get_var_of_named _ _ E).
    by destruct (intern_lookup name g) as (i & _ & _ & Hsub & _).
  - unfold exec. by rewrite (get_var_of_refused _ _ _ E).
Qed.

Lemma interner_ok_run cs g : interner_ok g → interner_ok (run_calls cs g).
Proof.
  revert g. induction cs as [| c cs IH]; intros g Hok; simpl; [done |].
  by apply IH, interner_ok_call.
Qed.

Lemma run_extends cs g : var_map g ⊆ var_map (run_calls cs g).
Proof.
  revert g. induction cs as [| c cs IH]; intros g; simpl; [done |].
  etrans; [apply call_extends | apply IH].
Qed.

End Interner.

(** C8. After any sequence of [get_var] calls on a fresh generator (NFA or
    set-cover calls, refused ones included), with [N] names interned: the
    counter stands at [N + 1] and the issued indices are exactly [1..N]; a
    call with a name not yet interned returns [N + 1] and records it; a call
    with an interned name returns its index and changes nothing, whatever
    calls were made in between; a refused call changes nothing; and
    [get_var_mapping] is the inverse of the name-to-index map. *)
Theorem interner_contract (cs : list Interner.call) :
  let g := Interner.run_calls cs init in
  let N := Z.of_nat (size (var_map g)) in
  next_var g = N + 1
  ∧ (∀ i, (∃ name, var_map g !! name = Some i) ↔ 1 ≤ i ≤ N)
  ∧ (∀ c name, Interner.name_of c = Ok name → var_map g !! name = None →
       ∃ g', Interner.get_var_of c g = (Ok (N + 1), g')
             ∧ var_map g' = <[name := N + 1]> (var_map g)
             ∧ next_var g' = N + 2)
  ∧ (∀ c name i, Interner.name_of c = Ok name → var_map g !! name = Some i →
       ∀ cs', let g' := Interner.run_calls cs' g in
              Interner.get_var_of c g' = (Ok i, g'))
  ∧ (∀ c e, Interner.name_of c = Raise e →
       Interner.get_var_of c g = (Raise e, g))
  ∧ (∀ i name, get_var_mapping g !! i = Some name ↔ var_map g !! name = Some i)
  ∧ (∀ i, is_Some (get_var_mapping g !! i) ↔ 1 ≤ i ≤ N).
Proof.
  intros g N.
  assert (Hok : interner_ok g) by apply Interner.interner_ok_run, interner_ok_init.
  assert (Hnext : next_var g = N + 1) by apply Hok.
  assert (Hidx : ∀ i, (∃ name, var_map g !! name = Some i) ↔ 1 ≤ i ≤ N).
  { intros i. split.
    - intros [name H]. apply (ok_range _ Hok) in H. lia.
    - intros Hi. apply (ok_surj _ Hok). lia. }
  split_and!; try done.
  - intros c name Hname Hfresh. rewrite (Interner.get_var_of_named _ _ Hname).
    rewrite (intern_fresh _ _ Hfresh), Hnext. eexists. split_and!; [done | done |].
    simpl. lia.
  - intros c name i Hname Hi cs' g'.
    rewrite (Interner.get_var_of_named _ _ Hname). apply intern_known.
    by eapply lookup_weaken; [| apply Interner.run_extends].
  - intros c e. apply Interner.get_var_of_refused.
  - intros i name. by apply get_var_mapping_lookup.
  - intros i. rewrite <- Hidx. unfold is_Some.
    by setoid_rewrite get_var_mapping_lookup.
Qed.

(** ** Strings: decimal numerals, pieces and words *)

Fixpoint all_chars (P : ascii → bool) (s : string) : bool :=
  match s with
  | EmptyString => true
  | String c rest => P c && all_chars P rest
  end.

(** The characters [str] produces: the ten digits and the minus sign. *)
Definition is_numeral_char (c : ascii) : bool :=
  match Ascii.is_nat c with
  | Some _ => true
  | None => Ascii.eqb c "-"
  end.

Lemma append_cons c s t : String c s +:+ t = String c (s +:+ t).
Proof. done. Qed.

Lemma append_nil_l s : "" +:+ s = s.
Proof. done. Qed.

Lemma append_nil_r s : s +:+ "" = s.
Proof. induction s as [| c s IH]; [done |]. by rewrite append_cons, IH. Qed.

Lemma append_assoc s1 s2 s3 : (s1 +:+ s2) +:+ s3 = s1 +:+ (s2 +:+ s3).
Proof. induction s1 as [| c s1 IH]; [done |]. by rewrite !append_cons, IH. Qed.

Lemma all_chars_app P s t :
  all_chars P (s +:+ t) = all_chars P s && all_chars P t.
Proof.
  induction s as [| c s IH]; [done |]. rewrite append_cons. cbn.
  rewrite IH. by rewrite andb_assoc.
Qed.

Lemma all_chars_impl (P Q : ascii → bool) s :
  (∀ c, P c = true → Q c = true) → all_chars P s = true → all_chars Q s = true.
Proof.
  intros HPQ. induction s as [| c s IH]; [done |]. cbn.
  intros [Hc Hs]%andb_true_iff. rewrite (HPQ _ Hc). by apply IH.
Qed.

Lemma uint_chars d : all_chars is_numeral_char (NilEmpty.string_of_uint d) = true.
Proof. induction d; by cbn. Qed.

Lemma str_chars z : all_chars is_numeral_char (Py.str z) = true.
Proof.
  unfold Py.str. destruct z as [| p | p]; [done | |]; cbn.
  - unfold NilZero.string_of_uint. destruct (Pos.to_uint p); try apply uint_chars; done.
  - unfold NilZero.string_of_uint.
    destruct (Pos.to_uint p) eqn:E; try (rewrite <- E; apply uint_chars); done.
Qed.

Lemma int_str z : Py.int (Py.str z) = Some z.
Proof.
  unfold Py.int, Py.str. rewrite NilZero.isi.
  - cbn. by rewrite DecimalZ.of_to.
  - destruct z; cbn; try done. intros [= H]. by apply Unsigned.to_uint_nonnil in H.
  - destruct z; cbn; try done. intros [= H]. by apply Unsigned.to_uint_nonnil in H.
Qed.

Lemma str_nonempty z : Py.str z ≠ "".
Proof. intros H. pose proof (int_str z) as Hz. by rewrite H in Hz. Qed.

Lemma str_inj z z' : Py.str z = Py.str z' → z = z'.
Proof.
  intros H. pose proof (int_str z) as Hz. rewrite H, int_str in Hz. by simplify_eq.
Qed.

(** [split]: a piece free of the separator, followed by the separator. *)
Definition free_of (sep : ascii) (s : string) : bool :=
  all_chars (λ c, negb (Ascii.eqb c sep)) s.

Lemma split_nonempty sep s : Py.split sep s ≠ [].
Proof.
  induction s as [| c s IH]; [done |]. cbn.
  destruct (Ascii.eqb c sep); [done |]. by destruct (Py.split sep s).
Qed.

Lemma split_free sep s : free_of sep s = true → Py.split sep s = [s].
Proof.
  induction s as [| c s IH]; [done |]. cbn.
  intros [Hc Hs]%andb_true_iff. apply negb_true_iff in Hc. rewrite Hc.
  by rewrite (IH Hs).
Qed.

Lemma split_app sep s t :
  free_of sep s = true →
  Py.split sep (s +:+ String sep t) = s :: Py.split sep t.
Proof.
  induction s as [| c s IH].
  - intros _. rewrite append_nil_l. cbn. by rewrite Ascii.eqb_refl.
  - intros [Hc Hs]%andb_true_iff. apply negb_true_iff in Hc.
    rewrite append_cons. cbn. rewrite Hc. by rewrite (IH Hs).
Qed.

Lemma numeral_free_of sep s :
  is_numeral_char sep = false →
  all_chars is_numeral_char s = true → free_of sep s = true.
Proof.
  intros Hsep. apply all_chars_impl. intros c Hc.
  apply negb_true_iff. destruct (Ascii.eqb_spec c sep) as [-> |]; [| done].
  by rewrite Hsep in Hc.
Qed.

(** [words]: a word free of blanks, followed by a blank or by the end. *)
Definition wordlike (s : string) : bool :=
  all_chars (λ c, negb (Ascii.is_space c)) s.

Lemma rev_app_app s cur acc :
  String.rev_app (String.rev_app s cur) acc = String.rev_app cur (s +:+ acc).
Proof.
  revert cur acc. induction s as [| c s IH]; intros cur acc; [done |].
  cbn. by rewrite IH, append_cons.
Qed.

Lemma words_go_word w cur s :
  wordlike w = true →
  String.words_go (Some cur) (w +:+ s)
  = String.words_go (Some (String.rev_app w cur)) s.
Proof.
  revert cur. induction w as [| c w IH]; intros cur; [done |].
  intros [Hc Hw]%andb_true_iff. apply negb_true_iff in Hc.
  rewrite append_cons. cbn. rewrite Hc. cbn. by rewrite IH.
Qed.

Lemma words_go_start c w s :
  wordlike (String c w) = true →
  String.words_go None (String c w +:+ s)
  = String.words_go (Some (String.rev_app w (String c ""))) s.
Proof.
  intros [Hc Hw]%andb_true_iff. apply negb_true_iff in Hc.
  rewrite append_cons. cbn. rewrite Hc. cbn. by apply words_go_word.
Qed.

Lemma rev_rev_app w c : String.rev (String.rev_app w (String c "")) = String c w.
Proof. unfold String.rev. rewrite rev_app_app. cbn. by rewrite append_nil_r. Qed.

Lemma words_word_blank w s :
  w ≠ "" → wordlike w = true →
  String.words (w +:+ String " " s) = w :: String.words s.
Proof.
  intros Hne Hw. destruct w as [| c w]; [done |]. unfold String.words.
  rewrite words_go_start by done. cbn. by rewrite rev_rev_app.
Qed.

Lemma words_word_newline w s :
  w ≠ "" → wordlike w = true →
  String.words (w +:+ String "010" s) = w :: String.words s.
Proof.
  intros Hne Hw. destruct w as [| c w]; [done |]. unfold String.words.
  rewrite words_go_start by done. cbn. by rewrite rev_rev_app.
Qed.

Lemma words_word w : w ≠ "" → wordlike w = true → String.words w = [w].
Proof.
  intros Hne Hw. destruct w as [| c w]; [done |]. unfold String.words.
  rewrite <- (append_nil_r (String c w)) at 1. rewrite words_go_start by done.
  cbn. by rewrite rev_rev_app.
Qed.

Lemma numeral_wordlike s : all_chars is_numeral_char s = true → wordlike s = true.
Proof.
  apply all_chars_impl. intros c Hc. apply negb_true_iff.
  destruct c as [[] [] [] [] [] [] [] []]; try done.
Qed.

Lemma str_wordlike z : wordlike (Py.str z) = true.
Proof. apply numeral_wordlike, str_chars. Qed.

(** ** What every run of a generator preserves *)

Lemma preserves_at_most_one P vars :
  (∀ c, preserves P (add_clause c)) → preserves P (at_most_one vars).
Proof.
  intros Hadd. unfold at_most_one.
  apply preserves_for. intros [i s1] _.
  apply preserves_for. intros [j s2] _.
  destruct (i <? j)%nat; [apply Hadd | apply preserves_ret].
Qed.

Lemma nfa_generate_preserves P nfa input_string :
  (∀ state time, preserves P (NfaSat.get_var state time)) →
  (∀ c, preserves P (add_clause c)) →
  preserves P (NfaSat.generate_cnf nfa input_string).
Proof.
  intros Hget Hadd. unfold NfaSat.generate_cnf.
  apply preserves_bind; [by apply preserves_mapM |]. intros init_state_vars.
  apply preserves_bind; [apply Hadd |]. intros _.
  apply preserves_bind; [by apply preserves_at_most_one |]. intros _.
  apply preserves_bind.
  { apply preserves_for. intros t _. apply preserves_for. intros state _.
    apply preserves_bind; [apply Hget |]. intros current_var.
    apply preserves_bind; [by apply preserves_mapM |]. intros next_vars.
    destruct next_vars; [apply preserves_ret | apply Hadd]. }
  intros _. apply preserves_bind.
  { apply preserves_for. intros t _.
    apply preserves_bind; [by apply preserves_mapM |]. intros state_vars_at_t.
    apply preserves_bind; [apply Hadd |]. intros _.
    by apply preserves_at_most_one. }
  intros _. apply preserves_bind; [by apply preserves_mapM |].
  intros final_state_vars. apply Hadd.
Qed.

Lemma combinations_zero {A} (l : list A) : Py.combinations l 0 = [[]].
Proof. by destruct l. Qed.

Lemma combinations_elem {A} (l : list A) r c x :
  c ∈ Py.combinations l r → x ∈ c → x ∈ l.
Proof.
  revert r c. induction l as [| y l IH]; intros [| r] c; simpl.
  - intros ->%list_elem_of_singleton. by intros ?%elem_of_nil.
  - by intros ?%elem_of_nil.
  - intros ->%list_elem_of_singleton. by intros ?%elem_of_nil.
  - intros [Hc | Hc]%elem_of_app Hx.
    + apply list_elem_of_fmap in Hc as (c' & -> & Hc').
      apply elem_of_cons in Hx as [-> | Hx]; [by left | right; eauto].
    + right. eauto.
Qed.

Lemma preserves_combinations_of {A} P (l : list A) r :
  preserves P (SetCoverSat.combinations_of l r).
Proof.
  unfold SetCoverSat.combinations_of.
  destruct (Py.itertools_combinations l r); [apply preserves_ret | apply preserves_raise].
Qed.

Lemma combinations_of_result {A} (l : list A) r g subsets g' :
  SetCoverSat.combinations_of l r g = (Ok subsets, g') →
  0 ≤ r ∧ subsets = Py.combinations l (Z.to_nat r) ∧ g' = g.
Proof.
  unfold SetCoverSat.combinations_of, Py.itertools_combinations.
  destruct (Z.ltb_spec r 0); [done |]. intros [= <- <-]. by split_and!.
Qed.

Lemma combinations_of_subsets {A} (l : list A) r g subsets g' :
  SetCoverSat.combinations_of l r g = (Ok subsets, g') →
  ∀ subset, subset ∈ subsets → ∀ x, x ∈ subset → x ∈ l.
Proof.
  intros (_ & -> & _)%combinations_of_result subset Hsubset x Hx.
  by eapply combinations_elem.
Qed.

Lemma preserves_bind_result {A B} P (R : A → Prop) (m : M A) (f : A → M B) :
  preserves P m →
  (∀ g a g', m g = (Ok a, g') → R a) →
  (∀ a, R a → preserves P (f a)) →
  preserves P (m ≫= f).
Proof.
  intros Hm HR Hf g Hg. specialize (Hm g Hg). specialize (HR g).
  unfold exec, mbind, M_bind in *. destruct (m g) as [[a | e] g1]; simpl in *.
  - apply Hf; eauto.
  - done.
Qed.

Section CoverPreserves.
Context (P : CNFGenerator → Prop) (problem : SetCoverSat.TeacherSubjectSetCover).
Hypothesis Hx : ∀ teacher, teacher ∈ SetCoverSat.teachers problem →
  preserves P (SetCoverSat.get_var "x" [Teacher.name teacher]).
Hypothesis Hy : ∀ teacher subject,
  teacher ∈ SetCoverSat.teachers problem →
  subject ∈ SetCoverSat.subjects problem →
  preserves P (SetCoverSat.get_var "y" [Teacher.name teacher; subject]).
Hypothesis Hadd : ∀ c, preserves P (add_clause c).

Lemma capability_preserves : preserves P (SetCoverSat.capability_clauses problem).
Proof.
  apply preserves_for. intros teacher Ht. apply preserves_for. intros subject Hs.
  apply preserves_bind; [by apply Hy |]. intros y_ij.
  destruct (SetCoverSat.can_teach teacher subject); apply Hadd.
Qed.

Lemma coverage_preserves : preserves P (SetCoverSat.coverage_clauses problem).
Proof.
  apply preserves_for. intros subject Hs.
  apply preserves_bind; [| intros clause; apply Hadd].
  apply preserves_mapM. intros teacher Ht. apply Hx.
  by apply list_elem_of_filter in Ht as [_ Ht].
Qed.

Lemma cardinality_preserves : preserves P (SetCoverSat.cardinality_clauses problem).
Proof.
  unfold SetCoverSat.cardinality_clauses.
  apply (preserves_bind_result _
           (λ subsets, ∀ subset, subset ∈ subsets →
              ∀ teacher, teacher ∈ subset →
                teacher ∈ SetCoverSat.teachers problem));
    [apply preserves_combinations_of | apply combinations_of_subsets |].
  intros subsets Hsubsets.
  apply preserves_bind.
  { apply preserves_for. intros subset Hsubset.
    apply preserves_bind; [| intros clause; apply Hadd].
    apply preserves_mapM. intros teacher Ht.
    apply preserves_bind; [| intros v; apply preserves_ret].
    apply Hx. by eapply Hsubsets. }
  intros _.
  apply (preserves_bind_result _
           (λ subsets, ∀ subset, subset ∈ subsets →
              ∀ teacher, teacher ∈ subset →
                teacher ∈ SetCoverSat.teachers problem));
    [apply preserves_combinations_of | apply combinations_of_subsets |].
  intros subsets' Hsubsets'.
  apply preserves_for. intros subset Hsubset.
  apply preserves_bind; [| intros clause; apply Hadd].
  apply preserves_mapM. intros teacher Ht.
  apply Hx. by eapply Hsubsets'.
Qed.

Lemma cover_generate_preserves : preserves P (SetCoverSat.generate_cnf problem).
Proof.
  unfold SetCoverSat.generate_cnf.
  apply preserves_bind; [apply capability_preserves |]. intros _.
  apply preserves_bind; [apply coverage_preserves |]. intros _.
  apply cardinality_preserves.
Qed.
End CoverPreserves.

(** Both generators keep the interner's invariant; so does every formula
    they leave, whether [generate_cnf] returned or raised. *)
Lemma preserves_ok_intern name : preserves interner_ok (intern name).
Proof. intros g. apply interner_ok_intern. Qed.

Lemma preserves_ok_add_clause c : preserves interner_ok (add_clause c).
Proof. intros g. apply interner_ok_add_clause. Qed.

Lemma preserves_cover_get_var P type args :
  (∀ name, SetCoverSat.var_name type args = Ok name → preserves P (intern name)) →
  preserves P (SetCoverSat.get_var type args).
Proof.
  intros H. unfold SetCoverSat.get_var.
  destruct (SetCoverSat.var_name type args); [by apply H | apply preserves_raise].
Qed.

Lemma nfa_generated_ok nfa input_string :
  interner_ok (NfaSat.generated nfa input_string).
Proof.
  apply (nfa_generate_preserves interner_ok);
    [| apply preserves_ok_add_clause | apply interner_ok_init].
  intros state time. apply preserves_ok_intern.
Qed.

Lemma cover_generated_ok problem : interner_ok (SetCoverSat.generated problem).
Proof.
  apply (cover_generate_preserves interner_ok problem);
    [| | apply preserves_ok_add_clause | apply interner_ok_init].
  - intros teacher _. apply preserves_cover_get_var. intros. apply preserves_ok_intern.
  - intros teacher subject _ _. apply preserves_cover_get_var.
    intros. apply preserves_ok_intern.
Qed.

(** ** The DIMACS text *)

(** The line of a clause, without its newline: the literals in decimal,
    blanks between them, then a blank and [0]. *)
Definition clause_line (clause : list Z) : string :=
  Py.join " " (Py.str <$> clause) +:+ " 0".

(** The first line, without its newline. *)
Definition header_line (nvars nclauses : Z) : string :=
  "p cnf " +:+ Py.str nvars +:+ " " +:+ Py.str nclauses.

(** The formulas the two programs generate. *)
Inductive generated_formula : CNFGenerator → Prop :=
| generated_by_nfa nfa input_string :
    generated_formula (NfaSat.generated nfa input_string)
| generated_by_cover problem :
    generated_formula (SetCoverSat.generated problem).

(** Modelled from the spec: the reader of the exchange format at the solver
    boundary ([CNF(from_file=...)] of the external SAT library, not part of
    the repository). The first line is [p cnf <nvars> <nclauses>]; every
    further non-empty line holds the literals of one clause as
    blank-separated decimal tokens closed by the token [0]. *)
Definition parse_header (line : string) : option (Z * Z) :=
  match String.words line with
  | [p; cnf; nvars; nclauses] =>
      if String.eqb p "p" && String.eqb cnf "cnf"
      then nv ← Py.int nvars; nc ← Py.int nclauses; Some (nv, nc)
      else None
  | _ => None
  end.

Definition parse_clause (line : string) : option (list Z) :=
  match reverse (String.words line) with
  | zero :: literals =>
      if String.eqb zero "0" then mapM Py.int (reverse literals) else None
  | [] => None
  end.

Definition read_dimacs (text : string) : option (Z * list (list Z)) :=
  match Py.split "010" text with
  | header :: lines =>
      '(nv, nc) ← parse_header header;
      cls ← mapM parse_clause (filter (λ line, line ≠ "") lines);
      if decide (nc = Z.of_nat (length cls)) then Some (nv, cls) else None
  | [] => None
  end.

Definition lines_text (cs : list (list Z)) : string :=
  foldr (λ clause text, clause_line clause +:+ Py.nl +:+ text) "" cs.

Lemma fold_left_append {A} (L : A → string) (l : list A) (h : string) :
  fold_left (λ f x, f +:+ L x) l h = h +:+ foldr (λ x text, L x +:+ text) "" l.
Proof.
  revert h. induction l as [| x l IH]; intros h; simpl.
  - by rewrite append_nil_r.
  - by rewrite IH, append_assoc.
Qed.

Lemma write_dimacs_unfold g :
  write_dimacs g
  = header_line (next_var g - 1) (Z.of_nat (length (clauses g)))
      +:+ Py.nl +:+ lines_text (clauses g).
Proof.
  unfold write_dimacs, header_line, lines_text, clause_line.
  rewrite (fold_left_append
             (λ clause, Py.join " " (Py.str <$> clause) +:+ " 0" +:+ Py.nl)).
  rewrite !append_assoc. do 5 f_equal.
  induction (clauses g) as [| c cs IH]; [done |]. simpl.
  by rewrite IH, !append_assoc.
Qed.

Lemma join_cons sep x y l :
  Py.join sep (x :: y :: l) = x +:+ sep +:+ Py.join sep (y :: l).
Proof. done. Qed.

(** The tokens of a clause line. *)
Lemma words_tokens (toks : list string) (rest : string) :
  Forall (λ tok, tok ≠ "" ∧ wordlike tok = true) toks →
  String.words (Py.join " " toks +:+ String " " rest) = toks ++ String.words rest.
Proof.
  induction toks as [| x [| y l] IH]; intros Htoks.
  - done.
  - apply Forall_cons in Htoks as [[Hne Hw] _]. simpl.
    by apply words_word_blank.
  - apply Forall_cons in Htoks as [[Hne Hw] Htoks].
    rewrite join_cons, !append_assoc.
    change (" " +:+ ?s) with (String " " s).
    rewrite words_word_blank by done. simpl. f_equal. by apply IH.
Qed.

Lemma str_tokens (clause : list Z) :
  Forall (λ tok, tok ≠ "" ∧ wordlike tok = true) (Py.str <$> clause).
Proof.
  apply Forall_fmap, Forall_true. intros z. split.
  - apply str_nonempty.
  - apply str_wordlike.
Qed.

Lemma words_clause_line clause :
  String.words (clause_line clause) = (Py.str <$> clause) ++ ["0"].
Proof. unfold clause_line. by rewrite words_tokens by apply str_tokens. Qed.

Lemma split_tokens sep (toks : list string) (rest : string) :
  toks ≠ [] →
  Forall (λ tok, free_of sep tok = true) toks →
  Py.split sep (Py.join (String sep "") toks +:+ String sep rest)
  = toks ++ Py.split sep rest.
Proof.
  induction toks as [| x [| y l] IH]; intros Hne Htoks.
  - done.
  - apply Forall_cons in Htoks as [Hx _]. simpl. by apply split_app.
  - apply Forall_cons in Htoks as [Hx Htoks].
    rewrite join_cons, !append_assoc.
    change (String sep "" +:+ ?s) with (String sep s).
    rewrite split_app by done. simpl. f_equal. by apply IH.
Qed.

Lemma split_clause_line clause :
  clause ≠ [] →
  Py.split " " (clause_line clause) = (Py.str <$> clause) ++ ["0"].
Proof.
  intros Hne. unfold clause_line.
  change " 0" with (String " " "0").
  rewrite split_tokens; [done | by destruct clause |].
  apply Forall_fmap, Forall_true. intros z.
  apply numeral_free_of; [done | apply str_chars].
Qed.

(** The characters of a line: numerals, blanks and the letters of [p cnf]. *)
Definition is_line_char (c : ascii) : bool := negb (Ascii.eqb c "010").

Lemma numeral_line s :
  all_chars is_numeral_char s = true → all_chars is_line_char s = true.
Proof.
  apply all_chars_impl. intros c Hc.
  destruct c as [[] [] [] [] [] [] [] []]; try done.
Qed.

Lemma join_line (toks : list string) :
  Forall (λ tok, all_chars is_line_char tok = true) toks →
  all_chars is_line_char (Py.join " " toks) = true.
Proof.
  induction toks as [| x [| y l] IH]; intros Htoks.
  - done.
  - by apply Forall_cons in Htoks as [Hx _].
  - apply Forall_cons in Htoks as [Hx Htoks].
    rewrite join_cons, !all_chars_app, Hx. simpl. by apply IH.
Qed.

Lemma clause_line_free clause : free_of "010" (clause_line clause) = true.
Proof.
  unfold free_of, clause_line. change (λ c, negb (Ascii.eqb c "010")) with is_line_char.
  rewrite all_chars_app, join_line; [done |].
  apply Forall_fmap, Forall_true. intros z. apply numeral_line, str_chars.
Qed.

Lemma header_line_free nv nc : free_of "010" (header_line nv nc) = true.
Proof.
  unfold free_of, header_line. change (λ c, negb (Ascii.eqb c "010")) with is_line_char.
  rewrite !all_chars_app, !(numeral_line _ (str_chars _)). done.
Qed.

Lemma split_lines_text cs :
  Py.split "010" (lines_text cs) = (clause_line <$> cs) ++ [""].
Proof.
  induction cs as [| c cs IH]; [done |]. simpl.
  unfold Py.nl. change (String "010" "" +:+ ?s) with (String "010" s).
  rewrite split_app by apply clause_line_free. by rewrite IH.
Qed.

Lemma split_write_dimacs g :
  Py.split "010" (write_dimacs g)
  = header_line (next_var g - 1) (Z.of_nat (length (clauses g)))
      :: (clause_line <$> clauses g) ++ [""].
Proof.
  rewrite write_dimacs_unfold.
  unfold Py.nl. change (String "010" "" +:+ ?s) with (String "010" s).
  rewrite split_app by apply header_line_free. by rewrite split_lines_text.
Qed.

Lemma parse_header_line nv nc : parse_header (header_line nv nc) = Some (nv, nc).
Proof.
  unfold parse_header, header_line.
  change ("p cnf " +:+ ?s) with ("p" +:+ String " " ("cnf" +:+ String " " s)).
  rewrite words_word_blank by done. rewrite words_word_blank by done.
  change (" " +:+ ?s) with (String " " s).
  rewrite words_word_blank by (apply str_nonempty || apply str_wordlike).
  rewrite words_word by (apply str_nonempty || apply str_wordlike).
  simpl. by rewrite !int_str.
Qed.

Lemma parse_clause_line clause : parse_clause (clause_line clause) = Some clause.
Proof.
  unfold parse_clause. rewrite words_clause_line, reverse_app. simpl.
  rewrite reverse_involutive. apply mapM_fmap_Some, int_str.
Qed.

Lemma clause_line_nonempty clause : clause_line clause ≠ "".
Proof.
  intros H. pose proof (words_clause_line clause) as Hw. rewrite H in Hw.
  by destruct (Py.str <$> clause).
Qed.

Lemma filter_clause_lines cs :
  filter (λ line, line ≠ "") ((clause_line <$> cs) ++ [""]) = clause_line <$> cs.
Proof.
  induction cs as [| c cs IH].
  - done.
  - rewrite fmap_cons, <- app_comm_cons.
    rewrite filter_cons_True by apply clause_line_nonempty. by rewrite IH.
Qed.

Lemma concat_lines (ls : list string) :
  Py.join "" ((λ line, line +:+ Py.nl) <$> ls)
  = foldr (λ line text, (line +:+ Py.nl) +:+ text) "" ls.
Proof.
  induction ls as [| x [| y l] IH]; [done | |].
  - simpl. by rewrite append_nil_r.
  - rewrite !fmap_cons. rewrite fmap_cons in IH.
    rewrite (join_cons "" (x +:+ Py.nl) (y +:+ Py.nl)), append_nil_l.
    by rewrite IH.
Qed.

(** C7. For a formula generated by either program, the text [write_dimacs]
    writes is exactly the line [p cnf <nvars> <nclauses>], with [nvars] the
    number of interned names and [nclauses] the number of stored clauses, then
    one line per clause in insertion order, every line closed by a newline;
    the line of a clause consists of its literals in decimal, in their order
    and with their signs, separated by single blanks, and closed by [0]. *)
Theorem write_dimacs_format (g : CNFGenerator) :
  generated_formula g →
  let nvars := Z.of_nat (size (var_map g)) in
  let nclauses := Z.of_nat (length (clauses g)) in
  write_dimacs g
    = Py.join ""
        ((λ line, line +:+ Py.nl)
           <$> header_line nvars nclauses :: (clause_line <$> clauses g))
  ∧ Py.split "010" (write_dimacs g)
    = header_line nvars nclauses :: (clause_line <$> clauses g) ++ [""]
  ∧ Forall (λ clause,
      String.words (clause_line clause) = (Py.str <$> clause) ++ ["0"]
      ∧ (clause ≠ [] →
         Py.split " " (clause_line clause) = (Py.str <$> clause) ++ ["0"])
      ∧ mapM Py.int (Py.str <$> clause) = Some clause) (clauses g).
Proof.
  intros Hgen nvars nclauses.
  assert (Hok : interner_ok g).
  { destruct Hgen; [apply nfa_generated_ok | apply cover_generated_ok]. }
  assert (Hnv : next_var g - 1 = nvars).
  { rewrite (ok_next _ Hok). unfold nvars. lia. }
  split_and!.
  - rewrite write_dimacs_unfold, Hnv. fold nclauses.
    rewrite concat_lines. simpl. rewrite append_assoc. do 2 f_equal.
    unfold lines_text. induction (clauses g) as [| c cs IH]; [done |].
    simpl. by rewrite IH, append_assoc.
  - by rewrite split_write_dimacs, Hnv.
  - apply Forall_true. intros clause. split_and!.
    + apply words_clause_line.
    + apply split_clause_line.
    + apply mapM_fmap_Some, int_str.
Qed.

(** The witness: the formula of the specification's example automaton. *)
Definition example_nfa : NfaSat.NFA :=
  {| NfaSat.states := ["q0"; "q1"];
     NfaSat.alphabet := ["a"; "b"];
     NfaSat.transitions :=
       {[ "q0" := {[ "a" := ["q0"; "q1"] ]}; "q1" := {[ "b" := ["q1"] ]} ]};
     NfaSat.initial_states := ["q0"];
     NfaSat.final_states := ["q1"] |}.

Lemma write_dimacs_format_witness :
  let g := NfaSat.generated example_nfa "ab" in
  generated_formula g
  ∧ Py.split "010" (write_dimacs g)
    = header_line (Z.of_nat (size (var_map g))) (Z.of_nat (length (clauses g)))
        :: (clause_line <$> clauses g) ++ [""].
Proof.
  split; [constructor |].
  apply (write_dimacs_format _ (generated_by_nfa example_nfa "ab")).
Defined.

(** C6. Writing any clause store with [write_dimacs] and reading the text
    back yields the variable count of the header and the same clauses, in the
    same order and with the same literals. *)
Theorem dimacs_round_trip (g : CNFGenerator) :
  read_dimacs (write_dimacs g) = Some (next_var g - 1, clauses g).
Proof.
  unfold read_dimacs. rewrite split_write_dimacs, parse_header_line. simpl.
  rewrite filter_clause_lines.
  rewrite (mapM_fmap_Some parse_clause clause_line) by apply parse_clause_line.
  simpl. by rewrite decide_True.
Qed.

(** ** Methods that return *)

(** [returns m]: from any state, [m] returns; it does not raise. *)
Definition returns {A} (m : M A) : Prop :=
  hoare (λ _, True) m (λ _ _, True).

Lemma returns_ret {A} (a : A) : returns (mret a).
Proof. by apply hoare_ret. Qed.

Lemma returns_bind {A B} (m : M A) (f : A → M B) :
  returns m → (∀ a, returns (f a)) → returns (m ≫= f).
Proof. intros Hm Hf. eapply hoare_bind; [apply Hm | apply Hf]. Qed.

Lemma returns_intern name : returns (intern name).
Proof.
  intros g _. destruct (intern_lookup name g) as (i & E & _ & Hsub & _).
  by exists i, (exec (intern name) g).
Qed.

Lemma returns_add_clause c : returns (add_clause c).
Proof. intros g _. by eexists (), _. Qed.

Lemma returns_for {A} (l : list A) (body : A → M ()) :
  (∀ x, x ∈ l → returns (body x)) → returns (for_ l body).
Proof.
  induction l as [| x l IH]; intros Hbody.
  - apply returns_ret.
  - rewrite for_cons. apply returns_bind; [apply Hbody; by left |].
    intros _. apply IH. intros y Hy. apply Hbody. by right.
Qed.

Lemma returns_mapM {A B} (f : A → M B) (l : list A) :
  (∀ x, x ∈ l → returns (f x)) → returns (mapM f l).
Proof.
  induction l as [| x l IH]; intros Hf.
  - apply returns_ret.
  - rewrite mapM_cons. apply returns_bind; [apply Hf; by left |]. intros y.
    apply returns_bind; [| intros k; apply returns_ret].
    apply IH. intros z Hz. apply Hf. by right.
Qed.

Lemma returns_at_most_one vars : returns (at_most_one vars).
Proof.
  apply returns_for. intros [i s1] _. apply returns_for. intros [j s2] _.
  destruct (i <? j)%nat; [apply returns_add_clause | apply returns_ret].
Qed.

Lemma returns_ok {A} (m : M A) g :
  returns m → ∃ a, m g = (Ok a, exec m g).
Proof.
  intros Hm. destruct (hoare_exec _ _ _ g Hm I) as (a & E & _). by exists a.
Qed.

Lemma returns_nfa_get_var state time : returns (NfaSat.get_var state time).
Proof. apply returns_intern. Qed.

Lemma returns_cover_get_x a : returns (SetCoverSat.get_var "x" [a]).
Proof. apply returns_intern. Qed.

Lemma returns_cover_get_y a b : returns (SetCoverSat.get_var "y" [a; b]).
Proof. apply returns_intern. Qed.

(** The part of the NFA generator before the acceptance clause. *)
Lemma returns_nfa_transition_clauses nfa input_string :
  returns
    (for_ (Py.range (String.length input_string)) (λ t,
       for_ (NfaSat.states nfa) (λ state,
         current_var ← NfaSat.get_var state (Z.of_nat t);
         next_vars ← mapM (λ s, NfaSat.get_var s (Z.of_nat t + 1))
                       (NfaSat.get_next_states nfa state
                          (Py.getitem input_string t));
         match next_vars with
         | [] => mret ()
         | _ => add_clause ((- current_var) :: next_vars)
         end))).
Proof.
  apply returns_for. intros t _. apply returns_for. intros state _.
  apply returns_bind; [apply returns_nfa_get_var |]. intros current_var.
  apply returns_bind.
  - apply returns_mapM. intros s _. apply returns_nfa_get_var.
  - intros [| v vs]; [apply returns_ret | apply returns_add_clause].
Qed.

Lemma returns_nfa_exactly_one nfa n :
  returns
    (for_ (Py.range n) (λ t,
       state_vars_at_t ← mapM (λ s, NfaSat.get_var s (Z.of_nat t))
                           (NfaSat.states nfa);
       add_clause state_vars_at_t;;
       at_most_one state_vars_at_t)).
Proof.
  apply returns_for. intros t _.
  apply returns_bind; [apply returns_mapM; intros; apply returns_nfa_get_var |].
  intros vars. apply returns_bind; [apply returns_add_clause |].
  intros _. apply returns_at_most_one.
Qed.

Lemma hoare_nfa_generate_last nfa input_string :
  hoare (λ _, True) (NfaSat.generate_cnf nfa input_string)
    (λ _ g, ∃ final_state_vars,
       length final_state_vars = length (NfaSat.final_states nfa)
       ∧ last (clauses g) = Some final_state_vars).
Proof.
  unfold NfaSat.generate_cnf.
  eapply hoare_bind;
    [apply returns_mapM; intros; apply returns_nfa_get_var | intros init_vars].
  eapply hoare_bind; [apply returns_add_clause | intros []].
  eapply hoare_bind; [apply returns_at_most_one | intros []].
  eapply hoare_bind; [apply returns_nfa_transition_clauses | intros []].
  eapply hoare_bind; [apply returns_nfa_exactly_one | intros []].
  eapply hoare_bind.
  - apply (hoare_mapM (λ _, True) (λ _ _ _, True)); [done |].
    intros s _. eapply hoare_weaken; [apply returns_nfa_get_var | done | done].
  - intros final_state_vars g [_ Hlen]. eexists (), _. split_and!; [done | done |].
    exists final_state_vars. split.
    + symmetry. by eapply Forall2_length.
    + simpl. apply last_snoc.
Qed.

Lemma nfa_generate_returns nfa input_string g :
  NfaSat.generate_cnf nfa input_string g
  = (Ok (), exec (NfaSat.generate_cnf nfa input_string) g).
Proof.
  destruct (hoare_exec _ _ _ g (hoare_nfa_generate_last nfa input_string) I)
    as ([] & E & _). done.
Qed.

(** A formula with an empty clause has no model. *)
Lemma empty_clause_unsat (cs : list (list Z)) (a : Z → bool) :
  [] ∈ cs → Sat.cnf_true a cs = false.
Proof.
  intros Hin. unfold Sat.cnf_true. apply not_true_is_false. intros Hall.
  rewrite forallb_forall in Hall. apply list_elem_of_In in Hin.
  by specialize (Hall [] Hin).
Qed.

Lemma dfs_no_final nfa remaining_input current_state :
  NfaSat.final_states nfa = [] →
  NfaSat.dfs nfa remaining_input current_state = false.
Proof.
  intros Hfin. revert current_state.
  induction remaining_input as [| c rest IH]; intros current_state; simpl.
  - rewrite Hfin. by apply bool_decide_eq_false_2, not_elem_of_nil.
  - induction (NfaSat.get_next_states _ _ _) as [| s l IHl]; [done |].
    simpl. by rewrite IH.
Qed.

(** C10. When the automaton has no final state, the last clause that
    [generate_cnf] stores, the acceptance clause, is empty; no assignment
    satisfies the formula, and [accepts] is false for the word. The
    hypotheses on the validity of the automaton and of the word are not
    needed. *)
Theorem no_final_state_unsat (nfa : NfaSat.NFA) (input_string : string) :
  NfaSat.final_states nfa = [] →
  let g := NfaSat.generated nfa input_string in
  outcome (NfaSat.generate_cnf nfa input_string) init = Ok ()
  ∧ last (clauses g) = Some []
  ∧ (∀ a, Sat.cnf_true a (clauses g) = false)
  ∧ NfaSat.accepts nfa input_string = false.
Proof.
  intros Hfin g. subst g. unfold NfaSat.generated.
  destruct (hoare_exec _ _ _ init (hoare_nfa_generate_last nfa input_string) I)
    as ([] & E & _ & vars & Hlen & Hlast).
  rewrite Hfin in Hlen. apply nil_length_inv in Hlen as ->.
  split_and!.
  - unfold outcome. by rewrite E.
  - done.
  - intros a. apply empty_clause_unsat.
    apply last_Some in Hlast as [cs ->]. apply elem_of_app. right. by left.
  - unfold NfaSat.accepts.
    induction (NfaSat.initial_states nfa) as [| s l IH]; [done |].
    simpl. by rewrite dfs_no_final.
Qed.

Definition no_final_nfa : NfaSat.NFA :=
  {| NfaSat.states := ["q0"; "q1"];
     NfaSat.alphabet := ["a"; "b"];
     NfaSat.transitions := {[ "q0" := {[ "a" := ["q0"; "q1"] ]} ]};
     NfaSat.initial_states := ["q0"];
     NfaSat.final_states := [] |}.

Lemma no_final_state_unsat_witness :
  NfaSat._validate_structure no_final_nfa = true
  ∧ NfaSat.word_over no_final_nfa "ab" = true
  ∧ last (clauses (NfaSat.generated no_final_nfa "ab")) = Some []
  ∧ NfaSat.accepts no_final_nfa "ab" = false.
Proof.
  split; [by vm_compute |]. split; [by vm_compute |].
  pose proof (no_final_state_unsat no_final_nfa "ab" eq_refl) as (_ & H1 & _ & H2).
  by split.
Defined.

(** ** The dead end: a word the formula accepts and the automaton rejects *)

(** The assignment [q0@0], [q1@1] for the example automaton of the
    specification and the word [b]: [q0] has no successor on [b]. *)
Definition dead_end_model (v : Z) : bool := (v =? 1) || (v =? 3).

Lemma dead_end_clauses :
  clauses (NfaSat.generated example_nfa "b")
  = [[1]; [-2; 3]; [1; 2]; [-1; -2]; [4; 3]; [-4; -3]; [3]].
Proof. by vm_compute. Qed.

(** C1, at the failing input. The example automaton is valid and ["b"] is a
    word over its alphabet; [accepts] rejects it ([q0] has no transition on
    [b]), yet the generated formula has a model: no clause is stored for the
    dead end [q0] at time 0, and the exactly-one clauses at time 1 are
    satisfied by [q1]. *)
Theorem dead_end_satisfiable_but_rejected :
  NfaSat._validate_structure example_nfa = true
  ∧ NfaSat.word_over example_nfa "b" = true
  ∧ NfaSat.get_next_states example_nfa "q0" "b" = []
  ∧ NfaSat.accepts example_nfa "b" = false
  ∧ Sat.cnf_true dead_end_model (clauses (NfaSat.generated example_nfa "b")) = true
  ∧ Sat.satisfiable (clauses (NfaSat.generated example_nfa "b")).
Proof.
  split_and!; try by vm_compute.
  exists dead_end_model. by vm_compute.
Qed.

(** C2, at the failing input. The formula for the example automaton and the
    word [b] has exactly one model; in whatever order the set of its true
    variables is iterated, [_extract_path] decodes it to [q0 -> q1], which
    starts at the initial state and ends in the final state, but [q1] is no
    successor of [q0] on [b]: the decoded pair is not a transition. *)
Theorem dead_end_decoded_path_invalid :
  let g := NfaSat.generated example_nfa "b" in
  (∀ a, Sat.cnf_true a (clauses g) = true → Sat.model_of a 4 = [1; -2; 3; -4])
  ∧ Sat.cnf_true dead_end_model (clauses g) = true
  ∧ NfaSat._extract_path (get_var_mapping g) [1; -2; 3; -4] = Ok ["q0"; "q1"]
  ∧ (∀ order, order ≡ₚ [1; 3] →
       NfaSat.extract_path_in (get_var_mapping g) order = Ok ["q0"; "q1"])
  ∧ "q1" ∉ NfaSat.get_next_states example_nfa "q0" "b".
Proof.
  intros g. subst g. split_and!.
  - intros a. rewrite dead_end_clauses. cbv.
    destruct (a 1), (a 2), (a 3), (a 4); by cbv.
  - by vm_compute.
  - by vm_compute.
  - intros order [-> | ->]%symmetry%Permutation_length_2_inv; by vm_compute.
  - vm_compute. apply not_elem_of_nil.
Qed.

(** ** The set-cover generator: when it returns and when it raises *)

Lemma bind_ok {A B} (m : M A) (f : A → M B) g a g' :
  m g = (Ok a, g') → (m ≫= f) g = f a g'.
Proof. intros E. unfold mbind, M_bind. by rewrite E. Qed.

Lemma bind_raise {A B} (m : M A) (f : A → M B) g e g' :
  m g = (Raise e, g') → (m ≫= f) g = (Raise e, g').
Proof. intros E. unfold mbind, M_bind. by rewrite E. Qed.

Lemma returns_capability problem : returns (SetCoverSat.capability_clauses problem).
Proof.
  apply returns_for. intros teacher _. apply returns_for. intros subject _.
  apply returns_bind; [apply returns_cover_get_y |]. intros y_ij.
  destruct (SetCoverSat.can_teach teacher subject); apply returns_add_clause.
Qed.

Lemma returns_coverage problem : returns (SetCoverSat.coverage_clauses problem).
Proof.
  apply returns_for. intros subject _.
  apply returns_bind; [| intros clause; apply returns_add_clause].
  apply returns_mapM. intros teacher _. apply returns_cover_get_x.
Qed.

Lemma returns_at_most (subsets : list (list Teacher)) :
  returns
    (for_ subsets (λ subset,
       clause ← mapM (λ teacher,
                   v ← SetCoverSat.get_var "x" [Teacher.name teacher];
                   mret (- v)) subset;
       add_clause clause)).
Proof.
  apply returns_for. intros subset _.
  apply returns_bind; [| intros clause; apply returns_add_clause].
  apply returns_mapM. intros teacher _.
  apply returns_bind; [apply returns_cover_get_x | intros v; apply returns_ret].
Qed.

Lemma returns_at_least (subsets : list (list Teacher)) :
  returns
    (for_ subsets (λ subset,
       clause ← mapM (λ teacher, SetCoverSat.get_var "x" [Teacher.name teacher])
                  subset;
       add_clause clause)).
Proof.
  apply returns_for. intros subset _.
  apply returns_bind; [| intros clause; apply returns_add_clause].
  apply returns_mapM. intros teacher _. apply returns_cover_get_x.
Qed.

Lemma combinations_of_ok {A} (l : list A) r g :
  0 ≤ r →
  SetCoverSat.combinations_of l r g = (Ok (Py.combinations l (Z.to_nat r)), g).
Proof.
  intros Hr. unfold SetCoverSat.combinations_of, Py.itertools_combinations.
  by destruct (Z.ltb_spec r 0); [lia |].
Qed.

Lemma combinations_of_negative {A} (l : list A) r g :
  r < 0 →
  SetCoverSat.combinations_of l r g
  = (Raise (ValueError "r must be non-negative"), g).
Proof.
  intros Hr. unfold SetCoverSat.combinations_of, Py.itertools_combinations.
  by destruct (Z.ltb_spec r 0); [| lia].
Qed.

(** The cardinality part raises exactly when one of the two sizes is
    negative; with [0 < k] that is when [k] exceeds the number of teachers by
    more than one. *)
Lemma cardinality_returns problem g :
  0 ≤ SetCoverSat.k problem + 1 →
  0 ≤ Z.of_nat (length (SetCoverSat.teachers problem)) - SetCoverSat.k problem + 1 →
  SetCoverSat.cardinality_clauses problem g
  = (Ok (), exec (SetCoverSat.cardinality_clauses problem) g).
Proof.
  intros Hk Hn. unfold exec, SetCoverSat.cardinality_clauses.
  rewrite (bind_ok _ _ _ _ _ (combinations_of_ok _ _ g Hk)).
  destruct (returns_ok _ g (returns_at_most
              (Py.combinations (SetCoverSat.teachers problem)
                 (Z.to_nat (SetCoverSat.k problem + 1))))) as ([] & E1).
  rewrite (bind_ok _ _ _ _ _ E1).
  set (g1 := exec _ g).
  rewrite (bind_ok _ _ _ _ _ (combinations_of_ok _ _ g1 Hn)).
  destruct (returns_ok _ g1
              (returns_at_least
                 (Py.combinations (SetCoverSat.teachers problem)
                    (Z.to_nat (Z.of_nat (length (SetCoverSat.teachers problem))
                               - SetCoverSat.k problem + 1))))) as ([] & E2).
  by rewrite E2.
Qed.

Lemma cardinality_raises problem g :
  0 ≤ SetCoverSat.k problem + 1 →
  Z.of_nat (length (SetCoverSat.teachers problem)) - SetCoverSat.k problem + 1 < 0 →
  outcome (SetCoverSat.cardinality_clauses problem) g
  = Raise (ValueError "r must be non-negative").
Proof.
  intros Hk Hn. unfold outcome, SetCoverSat.cardinality_clauses.
  rewrite (bind_ok _ _ _ _ _ (combinations_of_ok _ _ g Hk)).
  destruct (returns_ok _ g (returns_at_most
              (Py.combinations (SetCoverSat.teachers problem)
                 (Z.to_nat (SetCoverSat.k problem + 1))))) as ([] & E1).
  rewrite (bind_ok _ _ _ _ _ E1).
  by rewrite (bind_raise _ _ _ _ _ (combinations_of_negative _ _ _ Hn)).
Qed.

(** The outcome and the final state of [generate_cnf], through its parts. *)
Lemma cover_generate_parts problem :
  let g1 := exec (SetCoverSat.capability_clauses problem) init in
  let g2 := exec (SetCoverSat.coverage_clauses problem) g1 in
  SetCoverSat.generate_cnf problem init
  = SetCoverSat.cardinality_clauses problem g2.
Proof.
  intros g1 g2. unfold SetCoverSat.generate_cnf.
  destruct (returns_ok _ init (returns_capability problem)) as ([] & E1).
  rewrite (bind_ok _ _ _ _ _ E1).
  destruct (returns_ok _ g1 (returns_coverage problem)) as ([] & E2).
  by rewrite (bind_ok _ _ _ _ _ E2).
Qed.

(** Clauses are only ever appended. *)
Definition has_clause (c : list Z) (g : CNFGenerator) : Prop := c ∈ clauses g.

Lemma has_clause_intern c name : preserves (has_clause c) (intern name).
Proof.
  intros g Hc. unfold has_clause.
  destruct (intern_lookup name g) as (i & _ & _ & _ & ->). done.
Qed.

Lemma has_clause_add_clause c c' : preserves (has_clause c) (add_clause c').
Proof. intros g Hc. unfold has_clause. simpl. apply elem_of_app. by left. Qed.

Lemma has_clause_cover_get_var c type args :
  preserves (has_clause c) (SetCoverSat.get_var type args).
Proof. apply preserves_cover_get_var. intros. apply has_clause_intern. Qed.

Lemma has_clause_cardinality c problem :
  preserves (has_clause c) (SetCoverSat.cardinality_clauses problem).
Proof.
  apply cardinality_preserves.
  - intros. apply has_clause_cover_get_var.
  - intros. apply has_clause_add_clause.
Qed.

Lemma has_clause_coverage c problem :
  preserves (has_clause c) (SetCoverSat.coverage_clauses problem).
Proof.
  apply coverage_preserves.
  - intros. apply has_clause_cover_get_var.
  - intros. apply has_clause_add_clause.
Qed.

(** The at-least-[k] loop over the one empty combination stores the empty
    clause. *)
Lemma cardinality_empty_clause problem g :
  0 ≤ SetCoverSat.k problem + 1 →
  SetCoverSat.k problem = Z.of_nat (length (SetCoverSat.teachers problem)) + 1 →
  has_clause [] (exec (SetCoverSat.cardinality_clauses problem) g).
Proof.
  intros Hk Hn. unfold exec, SetCoverSat.cardinality_clauses.
  rewrite (bind_ok _ _ _ _ _ (combinations_of_ok _ _ g Hk)).
  destruct (returns_ok _ g (returns_at_most
              (Py.combinations (SetCoverSat.teachers problem)
                 (Z.to_nat (SetCoverSat.k problem + 1))))) as ([] & E1).
  rewrite (bind_ok _ _ _ _ _ E1).
  assert (Hn' : 0 ≤ Z.of_nat (length (SetCoverSat.teachers problem))
                    - SetCoverSat.k problem + 1) by lia.
  rewrite (bind_ok _ _ _ _ _ (combinations_of_ok _ _ _ Hn')).
  replace (Z.to_nat (Z.of_nat (length (SetCoverSat.teachers problem))
                     - SetCoverSat.k problem + 1)) with 0%nat by lia.
  rewrite combinations_zero.
  unfold has_clause. simpl. apply elem_of_app. right. by left.
Qed.

(** C4, on the code. With more than [n + 1] teachers asked of [n], the size
    [n - k + 1] handed to [combinations] is negative and [generate_cnf]
    raises [ValueError] instead of leaving an unsatisfiable formula; only for
    [k = n + 1] does it return, with the empty clause of the one empty
    combination. *)
Theorem cardinality_beyond_teachers (problem : SetCoverSat.TeacherSubjectSetCover) :
  let n := Z.of_nat (length (SetCoverSat.teachers problem)) in
  n < SetCoverSat.k problem →
  (n + 1 < SetCoverSat.k problem →
     SetCoverSat.generate_outcome problem
     = Raise (ValueError "r must be non-negative"))
  ∧ (SetCoverSat.k problem = n + 1 →
     SetCoverSat.generate_outcome problem = Ok ()
     ∧ ∀ a, Sat.cnf_true a (clauses (SetCoverSat.generated problem)) = false).
Proof.
  intros n Hk. unfold SetCoverSat.generate_outcome, SetCoverSat.generated, outcome, exec.
  rewrite cover_generate_parts. split.
  - intros Hlarge. apply cardinality_raises; lia.
  - intros Heq. split.
    + rewrite cardinality_returns by lia. done.
    + intros a. apply empty_clause_unsat. apply cardinality_empty_clause; lia.
Qed.

(** One teacher and [k = 3]: a valid instance on which [generate_cnf] raises. *)
Definition one_teacher_k3 : SetCoverSat.TeacherSubjectSetCover :=
  {| SetCoverSat.teachers := [Teacher.mk "A" ["math"]];
     SetCoverSat.subjects := ["math"];
     SetCoverSat.k := 3 |}.

Lemma cardinality_beyond_teachers_witness :
  SetCoverSat._validate_structure one_teacher_k3 = true
  ∧ SetCoverSat.generate_outcome one_teacher_k3
    = Raise (ValueError "r must be non-negative").
Proof.
  split; [by vm_compute |].
  apply (cardinality_beyond_teachers one_teacher_k3); simpl; lia.
Defined.

(** ** A subject nobody can teach *)

Lemma exec_bind_ok {A B} (m : M A) (f : A → M B) g a g' :
  m g = (Ok a, g') → exec (m ≫= f) g = exec (f a) g'.
Proof. intros E. unfold exec. by rewrite (bind_ok _ _ _ _ _ E). Qed.

Lemma no_capable_teacher (teachers : list Teacher) subject :
  (∀ teacher, teacher ∈ teachers → SetCoverSat.can_teach teacher subject = false) →
  filter (λ teacher, SetCoverSat.can_teach teacher subject = true) teachers = [].
Proof.
  induction teachers as [| t l IH]; intros Hnone; [done |].
  rewrite filter_cons_False.
  - apply IH. intros teacher Ht. apply Hnone. by right.
  - rewrite (Hnone t) by (by left). done.
Qed.

Lemma coverage_empty_clause problem subject g :
  subject ∈ SetCoverSat.subjects problem →
  (∀ teacher, teacher ∈ SetCoverSat.teachers problem →
     SetCoverSat.can_teach teacher subject = false) →
  has_clause [] (exec (SetCoverSat.coverage_clauses problem) g).
Proof.
  intros Hin Hnone. unfold SetCoverSat.coverage_clauses.
  match goal with |- has_clause _ (exec (for_ _ ?b) _) => set (body := b) end.
  assert (Hbody : ∀ s, returns (body s)).
  { intros s. apply returns_bind; [| intros clause; apply returns_add_clause].
    apply returns_mapM. intros teacher _. apply returns_cover_get_x. }
  revert g. induction (SetCoverSat.subjects problem) as [| s rest IH]; intros g.
  { by apply elem_of_nil in Hin. }
  rewrite for_cons.
  destruct (returns_ok _ g (Hbody s)) as ([] & E).
  rewrite (exec_bind_ok _ _ _ _ _ E).
  apply elem_of_cons in Hin as [<- | Hin].
  - apply (preserves_for (has_clause [])).
    + intros subject' _.
      apply preserves_bind; [| intros clause; apply has_clause_add_clause].
      apply preserves_mapM. intros teacher _. apply has_clause_cover_get_var.
    + unfold body, exec. rewrite (no_capable_teacher _ _ Hnone).
      unfold has_clause. simpl. apply elem_of_app. right. by left.
  - by apply IH.
Qed.

(** C5, on the code. When no teacher can teach some required subject, the
    coverage step stores the empty clause, from whatever state it starts; the
    clause is still there when [generate_cnf] ends, so no assignment satisfies
    the stored formula. For [0 < k <= n + 1] the call returns and the
    infeasible instance is reported as an unsatisfiable formula; but for
    [k > n + 1] the cardinality step that follows hands a negative size to
    [combinations], and [generate_cnf] raises [ValueError]: the infeasibility
    is then reported as an error. *)
Theorem uncovered_subject_outcome
    (problem : SetCoverSat.TeacherSubjectSetCover) (subject : string) :
  subject ∈ SetCoverSat.subjects problem →
  (∀ teacher, teacher ∈ SetCoverSat.teachers problem →
     SetCoverSat.can_teach teacher subject = false) →
  (∀ g, [] ∈ clauses (exec (SetCoverSat.coverage_clauses problem) g))
  ∧ [] ∈ clauses (SetCoverSat.generated problem)
  ∧ (∀ a, Sat.cnf_true a (clauses (SetCoverSat.generated problem)) = false)
  ∧ (0 < SetCoverSat.k problem
       ≤ Z.of_nat (length (SetCoverSat.teachers problem)) + 1 →
     SetCoverSat.generate_outcome problem = Ok ())
  ∧ (Z.of_nat (length (SetCoverSat.teachers problem)) + 1
       < SetCoverSat.k problem →
     SetCoverSat.generate_outcome problem
     = Raise (ValueError "r must be non-negative")).
Proof.
  intros Hin Hnone.
  assert (Hempty : [] ∈ clauses (SetCoverSat.generated problem)).
  { unfold SetCoverSat.generated, exec. rewrite cover_generate_parts.
    apply (has_clause_cardinality [] problem).
    by apply (coverage_empty_clause problem subject). }
  split; [| split; [| split; [| split]]].
  - intros g. by apply (coverage_empty_clause problem subject).
  - done.
  - intros a. by apply empty_clause_unsat.
  - intros Hk.
    unfold SetCoverSat.generate_outcome, outcome. rewrite cover_generate_parts.
    by rewrite cardinality_returns by lia.
  - intros Hk.
    unfold SetCoverSat.generate_outcome, outcome. rewrite cover_generate_parts.
    apply cardinality_raises; lia.
Qed.

(** One teacher of nothing, mathematics required, [k = 3]: a valid instance
    with a subject nobody can teach; the empty clause is stored, but
    [generate_cnf] then raises. *)
Definition nobody_teaches_math_k3 : SetCoverSat.TeacherSubjectSetCover :=
  {| SetCoverSat.teachers := [Teacher.mk "A" []];
     SetCoverSat.subjects := ["math"];
     SetCoverSat.k := 3 |}.

Lemma uncovered_subject_outcome_witness :
  SetCoverSat._validate_structure nobody_teaches_math_k3 = true
  ∧ "math" ∈ SetCoverSat.subjects nobody_teaches_math_k3
  ∧ [] ∈ clauses (SetCoverSat.generated nobody_teaches_math_k3)
  ∧ SetCoverSat.generate_outcome nobody_teaches_math_k3
    = Raise (ValueError "r must be non-negative").
Proof.
  assert (Hin : "math" ∈ SetCoverSat.subjects nobody_teaches_math_k3) by (by left).
  assert (Hnone : ∀ teacher,
            teacher ∈ SetCoverSat.teachers nobody_teaches_math_k3 →
            SetCoverSat.can_teach teacher "math" = false).
  { intros teacher Ht. simpl in Ht.
    apply list_elem_of_singleton in Ht as ->. by vm_compute. }
  destruct (uncovered_subject_outcome nobody_teaches_math_k3 "math" Hin Hnone)
    as (_ & Hempty & _ & _ & Hraise).
  split; [by vm_compute |]. split; [exact Hin |]. split; [exact Hempty |].
  apply Hraise. simpl. lia.
Defined.

(** ** The set-cover decoder *)

(** The part of a string before the first occurrence of [sep]. *)
Fixpoint up_to (sep : ascii) (s : string) : string :=
  match s with
  | EmptyString => EmptyString
  | String c rest => if Ascii.eqb c sep then EmptyString else String c (up_to sep rest)
  end.

(** The teacher a select variable [x_<teacher>] stands for. *)
Definition teacher_of_select (var_name : string) : option string :=
  match var_name with
  | String "x" (String "_" teacher) => Some teacher
  | _ => None
  end.

(** The teachers whose select variable is a positive literal of the model,
    in the order of the model. *)
Definition selected_names (var_mapping : gmap Z string) (model : list Z)
  : list string :=
  omap (λ var, if 0 <? var then var_mapping !! var ≫= teacher_of_select else None)
       model.

(** The names the set-cover generator interns. *)
Definition cover_name (problem : SetCoverSat.TeacherSubjectSetCover)
    (name : string) : Prop :=
  (∃ teacher, teacher ∈ SetCoverSat.teachers problem
              ∧ name = "x_" +:+ Teacher.name teacher)
  ∨ (∃ rest, name = "y_" +:+ rest).

Definition names_ok (problem : SetCoverSat.TeacherSubjectSetCover)
    (g : CNFGenerator) : Prop :=
  ∀ name i, var_map g !! name = Some i → cover_name problem name.

Lemma names_ok_intern problem name :
  cover_name problem name → preserves (names_ok problem) (intern name).
Proof.
  intros Hname g Hg name' i. unfold exec.
  destruct (var_map g !! name) as [j |] eqn:E.
  - rewrite (intern_known _ _ _ E). apply Hg.
  - rewrite (intern_fresh _ _ E). simpl. rewrite lookup_insert.
    case_decide; [by intros; subst | apply Hg].
Qed.

Lemma cover_generated_names problem :
  names_ok problem (SetCoverSat.generated problem).
Proof.
  apply (cover_generate_preserves (names_ok problem) problem).
  - intros teacher Ht. apply names_ok_intern. left. by exists teacher.
  - intros teacher subject _ _. apply names_ok_intern. right. by eexists.
  - by intros c g Hg.
  - intros name i. simpl. by rewrite lookup_empty.
Qed.

Lemma head_split sep s : head (Py.split sep s) = Some (up_to sep s).
Proof.
  induction s as [| c s IH]; [done |]. simpl.
  destruct (Ascii.eqb c sep); [done |].
  destruct (Py.split sep s); simplify_eq/=. done.
Qed.

Lemma up_to_free sep s : free_of sep s = true → up_to sep s = s.
Proof.
  induction s as [| c s IH]; [done |]. simpl.
  intros [Hc Hs]%andb_true_iff. apply negb_true_iff in Hc.
  by rewrite Hc, IH.
Qed.

Lemma up_to_app sep a b :
  free_of sep a = true → up_to sep (a +:+ String sep b) = a.
Proof.
  induction a as [| c a IH].
  - intros _. rewrite append_nil_l. simpl. by rewrite Ascii.eqb_refl.
  - intros [Hc Ha]%andb_true_iff. apply negb_true_iff in Hc.
    rewrite append_cons. simpl. by rewrite Hc, IH.
Qed.

Lemma split_select_name name :
  Py.split "_" ("x_" +:+ name) !! 1%nat = Some (up_to "_" name).
Proof.
  change ("x_" +:+ name) with (String "x" (String "_" name)).
  pose proof (head_split "_" name) as H. simpl.
  destruct (Py.split "_" name); simplify_eq/=. done.
Qed.

Lemma teacher_of_select_Some var_name teacher :
  teacher_of_select var_name = Some teacher ↔ var_name = "x_" +:+ teacher.
Proof.
  split.
  - unfold teacher_of_select. repeat case_match; try done. by intros [= ->].
  - by intros ->.
Qed.

Lemma is_selected_spec problem g var :
  interner_ok g → names_ok problem g →
  SetCoverSat.is_selected (get_var_mapping g) var
  = (String.app "x_") <$>
      (if 0 <? var then get_var_mapping g !! var ≫= teacher_of_select else None).
Proof.
  intros Hok Hnames. unfold SetCoverSat.is_selected.
  destruct (0 <? var); [| done].
  destruct (get_var_mapping g !! var) as [name |] eqn:E; [| done]. simpl.
  apply get_var_mapping_lookup in E; [| done].
  destruct (Hnames _ _ E) as [(teacher & _ & ->) | (rest & ->)]; done.
Qed.

Lemma omap_selected problem g model :
  interner_ok g → names_ok problem g →
  omap (SetCoverSat.is_selected (get_var_mapping g)) model
  = (String.app "x_") <$> selected_names (get_var_mapping g) model.
Proof.
  intros Hok Hnames. unfold selected_names.
  induction model as [| var model IH]; [done |].
  change (omap ?f (var :: model))
    with (match f var with Some y => y :: omap f model | None => omap f model end).
  rewrite (is_selected_spec problem) by done.
  destruct (if 0 <? var then _ else _); simpl; by rewrite IH.
Qed.

Lemma result_mapM_cons {A B} (f : A → result B) x l :
  mapM f (x :: l) = (y ← f x; k ← mapM f l; mret (y :: k)).
Proof. done. Qed.

Lemma mapM_select_pieces (names : list string) :
  mapM (λ teacher,
          match Py.split "_" teacher !! 1%nat with
          | Some piece => Ok piece
          | None => Raise IndexError
          end) ((String.app "x_") <$> names)
  = Ok (up_to "_" <$> names).
Proof.
  induction names as [| name names IH]; [done |].
  rewrite fmap_cons, result_mapM_cons, IH, split_select_name. done.
Qed.

Lemma selected_names_elem g model name :
  interner_ok g →
  name ∈ selected_names (get_var_mapping g) model ↔
  ∃ var, var ∈ model ∧ 0 < var ∧ var_map g !! ("x_" +:+ name) = Some var.
Proof.
  intros Hok. unfold selected_names. rewrite list_elem_of_omap. split.
  - intros (var & Hvar & Hsel). exists var. split; [done |].
    destruct (Z.ltb_spec 0 var); [| done]. split; [done |].
    destruct (get_var_mapping g !! var) as [var_name |] eqn:E; [| done].
    simpl in Hsel. apply teacher_of_select_Some in Hsel as ->.
    by apply get_var_mapping_lookup in E.
  - intros (var & Hvar & Hpos & Hlook). exists var. split; [done |].
    destruct (Z.ltb_spec 0 var); [| lia].
    apply (get_var_mapping_lookup g) in Hlook; [| done]. by rewrite Hlook.
Qed.

Lemma selected_names_teachers problem g model :
  interner_ok g → names_ok problem g →
  Forall (λ name, ∃ teacher, teacher ∈ SetCoverSat.teachers problem
                             ∧ Teacher.name teacher = name)
    (selected_names (get_var_mapping g) model).
Proof.
  intros Hok Hnames. apply Forall_forall.
  intros name (var & _ & _ & Hlook)%selected_names_elem; [| done].
  destruct (Hnames _ _ Hlook) as [(teacher & Ht & E) | (rest & E)].
  - exists teacher. split; [done |]. by apply String.app_inj in E.
  - done.
Qed.

Lemma extract_teachers_spec problem g model :
  interner_ok g → names_ok problem g →
  SetCoverSat._extract_teachers (get_var_mapping g) model
  = Ok (up_to "_" <$> selected_names (get_var_mapping g) model).
Proof.
  intros Hok Hnames. unfold SetCoverSat._extract_teachers.
  rewrite (omap_selected problem) by done. apply mapM_select_pieces.
Qed.

(** C9. For the variable mapping of a generated set-cover formula and any
    model: the select variables that are positive literals of the model are
    those of teachers of the instance; [_extract_teachers] returns, for each
    of them and in the order of the model, the piece of the variable name
    between its first and its second underscore, that is the teacher's name
    up to its first underscore: the name itself when it holds no underscore,
    the part before the underscore otherwise. *)
Theorem extract_teachers_truncates
    (problem : SetCoverSat.TeacherSubjectSetCover) (model : list Z) :
  let g := SetCoverSat.generated problem in
  let chosen := selected_names (get_var_mapping g) model in
  (∀ name, name ∈ chosen ↔
     ∃ var, var ∈ model ∧ 0 < var ∧ var_map g !! ("x_" +:+ name) = Some var)
  ∧ Forall (λ name, ∃ teacher, teacher ∈ SetCoverSat.teachers problem
                               ∧ Teacher.name teacher = name) chosen
  ∧ SetCoverSat._extract_teachers (get_var_mapping g) model
    = Ok (up_to "_" <$> chosen)
  ∧ (∀ name, Py.split "_" ("x_" +:+ name) !! 1%nat = Some (up_to "_" name))
  ∧ (∀ name, free_of "_" name = true → up_to "_" name = name)
  ∧ (∀ a b, free_of "_" a = true → up_to "_" (a +:+ "_" +:+ b) = a).
Proof.
  intros g chosen.
  assert (Hok : interner_ok g) by apply cover_generated_ok.
  assert (Hnames : names_ok problem g) by apply cover_generated_names.
  split_and!.
  - intros name. by apply selected_names_elem.
  - by apply (selected_names_teachers problem).
  - by apply (extract_teachers_spec problem).
  - apply split_select_name.
  - apply up_to_free.
  - intros a b. apply up_to_app.
Qed.

(** Two teachers whose names differ after an underscore, both needed. *)
Definition underscore_teachers : SetCoverSat.TeacherSubjectSetCover :=
  {| SetCoverSat.teachers :=
       [Teacher.mk "A_1" ["math"]; Teacher.mk "A_2" ["science"]];
     SetCoverSat.subjects := ["math"; "science"];
     SetCoverSat.k := 2 |}.

Lemma underscore_clauses :
  clauses (SetCoverSat.generated underscore_teachers)
  = [[1]; [-2]; [-3]; [4]; [5]; [6]; [5]; [6]].
Proof. by vm_compute. Qed.

(** C3, on the code. Teachers [A_1] and [A_2], both needed, [k = 2]: the
    instance is valid and [generate_cnf] returns; the formula has exactly one
    model, which selects both teachers; [_extract_teachers], which returns
    [split('_')[1]] of each select variable, decodes it to [["A"; "A"]]: as
    a set that is one name, not [k = 2], and it is the name of no teacher of
    the instance, so the decoded teachers cover nothing. *)
Theorem underscore_names_decoded_wrong :
  let problem := underscore_teachers in
  let g := SetCoverSat.generated problem in
  SetCoverSat._validate_structure problem = true
  ∧ SetCoverSat.generate_outcome problem = Ok ()
  ∧ Sat.cnf_true (λ v, negb ((v =? 2) || (v =? 3))) (clauses g) = true
  ∧ (∀ a, Sat.cnf_true a (clauses g) = true →
       Sat.model_of a 6 = [1; -2; -3; 4; 5; 6])
  ∧ SetCoverSat._extract_teachers (get_var_mapping g) [1; -2; -3; 4; 5; 6]
    = Ok ["A"; "A"]
  ∧ length (remove_dups ["A"; "A"]) = 1%nat
  ∧ SetCoverSat.k problem = 2
  ∧ Forall (λ teacher, Teacher.name teacher ≠ "A") (SetCoverSat.teachers problem).
Proof.
  intros problem g. subst problem g. split_and!; try by vm_compute.
  - intros a. rewrite underscore_clauses. cbv.
    destruct (a 1), (a 2), (a 3), (a 4), (a 5), (a 6); by cbv.
  - by repeat constructor.
Qed.

(** ** The clauses of the set-cover formula *)

(** The name and the index of a teacher's select variable. *)
Definition select_name (teacher : Teacher) : string :=
  "x_" +:+ Teacher.name teacher.

(** [select_clause sign ts g]: the store of [g] holds the clause over the
    select variables of [ts], all positive ([sign = true]) or all negated. *)
Definition select_clause (sign : bool) (ts : list Teacher) (g : CNFGenerator)
  : Prop :=
  ∃ vars, Forall2 (λ t v, var_map g !! select_name t = Some v) ts vars
          ∧ (if sign then vars else Z.opp <$> vars) ∈ clauses g.

(** A property that neither interning a name nor appending a clause undoes. *)
Definition monotone (P : CNFGenerator → Prop) : Prop :=
  (∀ name, preserves P (intern name)) ∧ (∀ c, preserves P (add_clause c)).

Lemma intern_extends name g : var_map g ⊆ var_map (exec (intern name) g).
Proof. by destruct (intern_lookup name g) as (i & _ & _ & Hsub & _). Qed.

Lemma intern_clauses name g : clauses (exec (intern name) g) = clauses g.
Proof. by destruct (intern_lookup name g) as (i & _ & _ & _ & Hcl). Qed.

Lemma select_clause_monotone sign ts : monotone (select_clause sign ts).
Proof.
  split.
  - intros name g (vars & Hvars & Hin). exists vars. split.
    + eapply Forall2_impl; [apply Hvars |]. intros t v Hv. simpl in Hv.
      eapply lookup_weaken; [apply Hv | apply intern_extends].
    + by rewrite intern_clauses.
  - intros c g (vars & Hvars & Hin). exists vars. split; [done |].
    simpl. apply elem_of_app. by left.
Qed.

Lemma monotone_cover_get_var P type args :
  monotone P → preserves P (SetCoverSat.get_var type args).
Proof. intros [Hi _]. apply preserves_cover_get_var. intros. apply Hi. Qed.

Lemma monotone_coverage P problem :
  monotone P → preserves P (SetCoverSat.coverage_clauses problem).
Proof.
  intros HP. apply coverage_preserves.
  - intros. by apply monotone_cover_get_var.
  - apply HP.
Qed.

Lemma monotone_cardinality P problem :
  monotone P → preserves P (SetCoverSat.cardinality_clauses problem).
Proof.
  intros HP. apply cardinality_preserves.
  - intros. by apply monotone_cover_get_var.
  - apply HP.
Qed.

(** A returning method that keeps [F]. *)
Lemma hoare_preserves {A} (P F : CNFGenerator → Prop) (m : M A) Q :
  hoare P m Q → preserves F m →
  hoare (λ g, P g ∧ F g) m (λ a g, Q a g ∧ F g).
Proof.
  intros Hm HF g [Hg HFg]. destruct (Hm g Hg) as (a & g' & E & Hsub & HQ).
  exists a, g'. split_and!; try done.
  specialize (HF g HFg). unfold exec in HF. by rewrite E in HF.
Qed.

(** A loop each of whose iterations establishes a property that the other
    iterations keep. *)
Lemma for_establishes {A} (Q : A → CNFGenerator → Prop) (l : list A)
    (body : A → M ()) :
  (∀ x, x ∈ l → hoare (λ _, True) (body x) (λ _ g, Q x g)) →
  (∀ x y, x ∈ l → y ∈ l → preserves (Q x) (body y)) →
  hoare (λ _, True) (for_ l body) (λ _ g, ∀ x, x ∈ l → Q x g).
Proof.
  induction l as [| x l IH]; intros Hest Hkeep.
  - apply hoare_ret. intros g _ x Hx. by apply elem_of_nil in Hx.
  - rewrite for_cons. eapply hoare_bind; [apply Hest; by left |]. intros [].
    eapply hoare_weaken.
    + apply (hoare_preserves (λ _, True) (Q x)).
      * apply IH.
        -- intros y Hy. apply Hest. by right.
        -- intros y z Hy Hz. apply Hkeep; by right.
      * apply preserves_for. intros y Hy. apply Hkeep; [by left | by right].
    + done.
    + intros [] g [Hl Hx] y [-> | Hy]%elem_of_cons; [done | by apply Hl].
Qed.

Lemma for_establishes_exec {A} (Q : A → CNFGenerator → Prop) (l : list A)
    (body : A → M ()) g :
  (∀ x, x ∈ l → hoare (λ _, True) (body x) (λ _ g, Q x g)) →
  (∀ x y, x ∈ l → y ∈ l → preserves (Q x) (body y)) →
  ∀ x, x ∈ l → Q x (exec (for_ l body) g).
Proof.
  intros Hest Hkeep.
  by destruct (hoare_exec _ _ _ g (for_establishes Q l body Hest Hkeep) I)
    as (a & _ & _ & H).
Qed.

Lemma hoare_get_select teacher :
  hoare (λ _, True) (SetCoverSat.get_var "x" [Teacher.name teacher])
    (λ v g, True ∧ var_map g !! select_name teacher = Some v).
Proof.
  intros g _. change (SetCoverSat.get_var "x" [Teacher.name teacher])
    with (intern (select_name teacher)).
  destruct (intern_lookup (select_name teacher) g) as (i & E & Hi & Hsub & _).
  by exists i, (exec (intern (select_name teacher)) g).
Qed.

Lemma stable_lookup name (v : Z) : stable (λ g, var_map g !! name = Some v).
Proof. intros g g' Hv Hsub. by eapply lookup_weaken. Qed.

(** One iteration of the coverage loop or of the at-least-[k] loop. *)
Lemma positive_clause_stored (ts : list Teacher) :
  hoare (λ _, True)
    (clause ← mapM (λ teacher, SetCoverSat.get_var "x" [Teacher.name teacher]) ts;
     add_clause clause)
    (λ _ g, select_clause true ts g).
Proof.
  eapply hoare_bind.
  - apply (hoare_mapM (λ _, True)
             (λ t v g, var_map g !! select_name t = Some v)).
    + intros t v. apply stable_lookup.
    + intros t _. apply hoare_get_select.
  - intros vars g [_ Hvars]. eexists (), _. split_and!; [done | done |].
    exists vars. split; [done |]. simpl. apply elem_of_app. right. by left.
Qed.

Lemma opp_opp_list (l : list Z) : Z.opp <$> (Z.opp <$> l) = l.
Proof.
  induction l as [| z l IH]; [done |].
  rewrite !fmap_cons, IH. by rewrite Z.opp_involutive.
Qed.

(** One iteration of the at-most-[k] loop. *)
Lemma negative_clause_stored (ts : list Teacher) :
  hoare (λ _, True)
    (clause ← mapM (λ teacher,
                 v ← SetCoverSat.get_var "x" [Teacher.name teacher];
                 mret (- v)) ts;
     add_clause clause)
    (λ _ g, select_clause false ts g).
Proof.
  eapply hoare_bind.
  - apply (hoare_mapM (λ _, True)
             (λ t b g, var_map g !! select_name t = Some (- b))).
    + intros t v. apply stable_lookup.
    + intros t _. eapply hoare_bind; [apply hoare_get_select |].
      intros v. apply hoare_ret. intros g [_ Hv]. split; [done |].
      by rewrite Z.opp_involutive.
  - intros lits g [_ Hlits]. eexists (), _. split_and!; [done | done |].
    exists (Z.opp <$> lits). split.
    + apply Forall2_fmap_r. eapply Forall2_impl; [apply Hlits |]. done.
    + simpl. rewrite opp_opp_list. apply elem_of_app. right. by left.
Qed.

Lemma monotone_positive_body P (ts : list Teacher) :
  monotone P →
  preserves P
    (clause ← mapM (λ teacher, SetCoverSat.get_var "x" [Teacher.name teacher]) ts;
     add_clause clause).
Proof.
  intros HP. apply preserves_bind; [| apply HP].
  apply preserves_mapM. intros t _. by apply monotone_cover_get_var.
Qed.

Lemma monotone_negative_body P (ts : list Teacher) :
  monotone P →
  preserves P
    (clause ← mapM (λ teacher,
                 v ← SetCoverSat.get_var "x" [Teacher.name teacher];
                 mret (- v)) ts;
     add_clause clause).
Proof.
  intros HP. apply preserves_bind; [| apply HP].
  apply preserves_mapM. intros t _.
  apply preserves_bind; [by apply monotone_cover_get_var |].
  intros v. apply preserves_ret.
Qed.

Lemma coverage_clauses_stored problem g :
  ∀ subject, subject ∈ SetCoverSat.subjects problem →
    select_clause true
      (filter (λ teacher, SetCoverSat.can_teach teacher subject = true)
         (SetCoverSat.teachers problem))
      (exec (SetCoverSat.coverage_clauses problem) g).
Proof.
  unfold SetCoverSat.coverage_clauses.
  apply (for_establishes_exec
           (λ subject, select_clause true
              (filter (λ teacher, SetCoverSat.can_teach teacher subject = true)
                 (SetCoverSat.teachers problem)))).
  - intros subject _. apply positive_clause_stored.
  - intros s s' _ _. apply monotone_positive_body, select_clause_monotone.
Qed.

Lemma at_most_clauses_stored (subsets : list (list Teacher)) g :
  ∀ subset, subset ∈ subsets →
    select_clause false subset
      (exec (for_ subsets (λ subset,
               clause ← mapM (λ teacher,
                           v ← SetCoverSat.get_var "x" [Teacher.name teacher];
                           mret (- v)) subset;
               add_clause clause)) g).
Proof.
  apply (for_establishes_exec (λ subset, select_clause false subset)).
  - intros subset _. apply negative_clause_stored.
  - intros s s' _ _. apply monotone_negative_body, select_clause_monotone.
Qed.

Lemma at_least_clauses_stored (subsets : list (list Teacher)) g :
  ∀ subset, subset ∈ subsets →
    select_clause true subset
      (exec (for_ subsets (λ subset,
               clause ← mapM (λ teacher,
                           SetCoverSat.get_var "x" [Teacher.name teacher]) subset;
               add_clause clause)) g).
Proof.
  apply (for_establishes_exec (λ subset, select_clause true subset)).
  - intros subset _. apply positive_clause_stored.
  - intros s s' _ _. apply monotone_positive_body, select_clause_monotone.
Qed.

(** The state the cardinality part leaves when both sizes are in range. *)
Lemma cardinality_exec problem g :
  0 ≤ SetCoverSat.k problem + 1 →
  0 ≤ Z.of_nat (length (SetCoverSat.teachers problem)) - SetCoverSat.k problem + 1 →
  exec (SetCoverSat.cardinality_clauses problem) g
  = exec (for_ (Py.combinations (SetCoverSat.teachers problem)
                  (Z.to_nat (Z.of_nat (length (SetCoverSat.teachers problem))
                             - SetCoverSat.k problem + 1)))
            (λ subset,
               clause ← mapM (λ teacher,
                           SetCoverSat.get_var "x" [Teacher.name teacher]) subset;
               add_clause clause))
      (exec (for_ (Py.combinations (SetCoverSat.teachers problem)
                     (Z.to_nat (SetCoverSat.k problem + 1)))
               (λ subset,
                  clause ← mapM (λ teacher,
                              v ← SetCoverSat.get_var "x" [Teacher.name teacher];
                              mret (- v)) subset;
                  add_clause clause)) g).
Proof.
  intros Hk Hn. unfold SetCoverSat.cardinality_clauses.
  rewrite (exec_bind_ok _ _ _ _ _ (combinations_of_ok _ _ g Hk)).
  destruct (returns_ok _ g (returns_at_most
              (Py.combinations (SetCoverSat.teachers problem)
                 (Z.to_nat (SetCoverSat.k problem + 1))))) as ([] & E1).
  rewrite (exec_bind_ok _ _ _ _ _ E1).
  by rewrite (exec_bind_ok _ _ _ _ _ (combinations_of_ok _ _ _ Hn)).
Qed.

(** The clauses of a generated set-cover formula: one coverage clause per
    required subject, one negative clause per combination of [k + 1]
    teachers, one positive clause per combination of [n - k + 1]. *)
Lemma cover_generated_clauses problem :
  let n := Z.of_nat (length (SetCoverSat.teachers problem)) in
  let g := SetCoverSat.generated problem in
  0 ≤ SetCoverSat.k problem + 1 →
  0 ≤ n - SetCoverSat.k problem + 1 →
  (∀ subject, subject ∈ SetCoverSat.subjects problem →
     select_clause true
       (filter (λ teacher, SetCoverSat.can_teach teacher subject = true)
          (SetCoverSat.teachers problem)) g)
  ∧ (∀ subset,
       subset ∈ Py.combinations (SetCoverSat.teachers problem)
                  (Z.to_nat (SetCoverSat.k problem + 1)) →
       select_clause false subset g)
  ∧ (∀ subset,
       subset ∈ Py.combinations (SetCoverSat.teachers problem)
                  (Z.to_nat (n - SetCoverSat.k problem + 1)) →
       select_clause true subset g).
Proof.
  intros n g Hk Hn. subst g. unfold SetCoverSat.generated, exec.
  rewrite cover_generate_parts. fold (exec (A := ())).
  change ((SetCoverSat.cardinality_clauses problem ?g0).2)
    with (exec (SetCoverSat.cardinality_clauses problem) g0).
  split_and!.
  - intros subject Hs.
    apply (monotone_cardinality _ problem (select_clause_monotone _ _)).
    by apply coverage_clauses_stored.
  - intros subset Hsub. rewrite cardinality_exec by done.
    apply (preserves_for (select_clause false subset)).
    + intros s _. apply monotone_positive_body, select_clause_monotone.
    + by apply at_most_clauses_stored.
  - intros subset Hsub. rewrite cardinality_exec by done.
    by apply at_least_clauses_stored.
Qed.

(** ** Models of the set-cover formula *)

(** Whether the assignment selects a teacher: its select variable is
    interned and true. *)
Definition selected (a : Z → bool) (g : CNFGenerator) (teacher : Teacher) : bool :=
  match var_map g !! select_name teacher with
  | Some v => a v
  | None => false
  end.

Lemma lit_true_pos a v : 0 < v → Sat.lit_true a v = a v.
Proof. intros Hv. unfold Sat.lit_true. by destruct (Z.ltb_spec 0 v); [| lia]. Qed.

Lemma lit_true_neg a v : 0 < v → Sat.lit_true a (- v) = negb (a v).
Proof.
  intros Hv. unfold Sat.lit_true.
  destruct (Z.ltb_spec 0 (- v)); [lia |].
  destruct (Z.ltb_spec (- v) 0); [| lia]. by rewrite Z.opp_involutive.
Qed.

Lemma cnf_true_clause a cs c :
  Sat.cnf_true a cs = true → c ∈ cs → Sat.clause_true a c = true.
Proof.
  unfold Sat.cnf_true. rewrite forallb_forall. intros Hall Hc.
  apply Hall. by apply list_elem_of_In.
Qed.

Lemma clause_true_elem a c :
  Sat.clause_true a c = true ↔ ∃ l, l ∈ c ∧ Sat.lit_true a l = true.
Proof.
  unfold Sat.clause_true. rewrite existsb_exists.
  by setoid_rewrite list_elem_of_In.
Qed.

Lemma positive_clause_true a g ts :
  interner_ok g → Sat.cnf_true a (clauses g) = true →
  select_clause true ts g → ∃ t, t ∈ ts ∧ selected a g t = true.
Proof.
  intros Hok Hsat (vars & Hvars & Hin).
  apply (cnf_true_clause a) in Hin; [| done].
  apply clause_true_elem in Hin as (v & Hv & Htrue).
  apply list_elem_of_lookup in Hv as [i Hi].
  destruct (Forall2_lookup_r _ _ _ _ _ Hvars Hi) as (t & Ht & Hlook).
  exists t. split; [apply list_elem_of_lookup; eauto |].
  unfold selected. simpl in Hlook. rewrite Hlook.
  rewrite lit_true_pos in Htrue; [done |].
  apply (ok_range _ Hok) in Hlook. lia.
Qed.

Lemma negative_clause_true a g ts :
  interner_ok g → Sat.cnf_true a (clauses g) = true →
  select_clause false ts g → ∃ t, t ∈ ts ∧ selected a g t = false.
Proof.
  intros Hok Hsat (vars & Hvars & Hin).
  apply (cnf_true_clause a) in Hin; [| done].
  apply clause_true_elem in Hin as (l & Hl & Htrue).
  apply list_elem_of_fmap in Hl as (v & -> & Hv).
  apply list_elem_of_lookup in Hv as [i Hi].
  destruct (Forall2_lookup_r _ _ _ _ _ Hvars Hi) as (t & Ht & Hlook).
  exists t. split; [apply list_elem_of_lookup; eauto |].
  unfold selected. simpl in Hlook. rewrite Hlook.
  rewrite lit_true_neg in Htrue.
  - by apply negb_true_iff in Htrue.
  - apply (ok_range _ Hok) in Hlook. lia.
Qed.

(** A sublist of [r] elements is one of the combinations of size [r]. *)
Lemma combinations_sublist {A} (c l : list A) :
  c `sublist_of` l → c ∈ Py.combinations l (length c).
Proof.
  induction 1 as [| x c l Hsub IH | x c l Hsub IH].
  - by left.
  - simpl. apply elem_of_app. left. by apply list_elem_of_fmap_2.
  - destruct c as [| y c].
    + rewrite combinations_zero. by left.
    + simpl. apply elem_of_app. by right.
Qed.

(** Exactly [k] teachers are selected by a model of the three groups of
    clauses. *)
Lemma selected_count a g (teachers : list Teacher) (k : Z) :
  interner_ok g → Sat.cnf_true a (clauses g) = true →
  0 ≤ k + 1 → 0 ≤ Z.of_nat (length teachers) - k + 1 →
  (∀ subset, subset ∈ Py.combinations teachers (Z.to_nat (k + 1)) →
     select_clause false subset g) →
  (∀ subset,
     subset ∈ Py.combinations teachers
                (Z.to_nat (Z.of_nat (length teachers) - k + 1)) →
     select_clause true subset g) →
  Z.of_nat (length (filter (λ t, selected a g t = true) teachers)) = k.
Proof.
  intros Hok Hsat Hk Hn Hmost Hleast.
  set (sel := filter (λ t, selected a g t = true) teachers).
  set (unsel := filter (λ t, ¬ selected a g t = true) teachers).
  assert (Hsplit : (length sel + length unsel = length teachers)%nat).
  { rewrite <- length_app. apply Permutation_length.
    apply filter_app_complement. }
  destruct (Z.lt_trichotomy (Z.of_nat (length sel)) k) as [Hlt | [Heq | Hgt]];
    [exfalso | done | exfalso].
  - set (r := Z.to_nat (Z.of_nat (length teachers) - k + 1)).
    assert (Hr : (r ≤ length unsel)%nat) by lia.
    assert (Hcomb : take r unsel ∈ Py.combinations teachers r).
    { rewrite <- (length_take_le unsel r Hr) at 2. apply combinations_sublist.
      etrans; [apply sublist_take | apply sublist_filter]. }
    destruct (positive_clause_true a g _ Hok Hsat (Hleast _ Hcomb))
      as (t & Ht & Hsel).
    apply elem_of_take in Ht as (i & Ht & _).
    apply list_elem_of_lookup_2 in Ht.
    apply list_elem_of_filter in Ht as [Hnot _]. done.
  - set (r := Z.to_nat (k + 1)).
    assert (Hr : (r ≤ length sel)%nat) by lia.
    assert (Hcomb : take r sel ∈ Py.combinations teachers r).
    { rewrite <- (length_take_le sel r Hr) at 2. apply combinations_sublist.
      etrans; [apply sublist_take | apply sublist_filter]. }
    destruct (negative_clause_true a g _ Hok Hsat (Hmost _ Hcomb))
      as (t & Ht & Hunsel).
    apply elem_of_take in Ht as (i & Ht & _).
    apply list_elem_of_lookup_2 in Ht.
    apply list_elem_of_filter in Ht as [Hyes _]. congruence.
Qed.

(** ** Decoding a model of the set-cover formula *)

Lemma model_of_positive a nv var :
  var ∈ Sat.model_of a nv ∧ 0 < var ↔ (1 ≤ var ≤ Z.of_nat nv) ∧ a var = true.
Proof.
  unfold Sat.model_of. rewrite list_elem_of_fmap. split.
  - intros [(i & -> & Hi) Hpos]. apply elem_of_seq in Hi.
    destruct (a (Z.of_nat (S i))) eqn:E; [| lia]. split; [lia | done].
  - intros [Hrange Ha]. split; [| lia].
    exists (Z.to_nat (var - 1)). split.
    + replace (Z.of_nat (S (Z.to_nat (var - 1)))) with var by lia.
      by rewrite Ha.
    + apply elem_of_seq. lia.
Qed.

Lemma model_of_NoDup a nv : NoDup (Sat.model_of a nv).
Proof.
  unfold Sat.model_of. apply NoDup_fmap_2_strong; [| apply NoDup_seq].
  intros i j _ _. destruct (a (Z.of_nat (S i))), (a (Z.of_nat (S j))); lia.
Qed.

Lemma NoDup_omap_inj {A B} (f : A → option B) (l : list A) :
  (∀ x y z, f x = Some z → f y = Some z → x = y) →
  NoDup l → NoDup (omap f l).
Proof.
  intros Hinj. induction 1 as [| x l Hx Hl IH]; [constructor |].
  change (omap f (x :: l))
    with (match f x with Some y => y :: omap f l | None => omap f l end).
  destruct (f x) as [z |] eqn:E; [| done]. constructor; [| done].
  intros (y & Hy & Hfy)%list_elem_of_omap.
  by rewrite (Hinj x y z E Hfy) in Hx.
Qed.

Lemma selected_names_NoDup g model :
  interner_ok g → NoDup model → NoDup (selected_names (get_var_mapping g) model).
Proof.
  intros Hok. apply NoDup_omap_inj. intros v1 v2 name H1 H2.
  destruct (0 <? v1); [| done]. destruct (0 <? v2); [| done].
  destruct (get_var_mapping g !! v1) as [n1 |] eqn:E1; [| done].
  destruct (get_var_mapping g !! v2) as [n2 |] eqn:E2; [| done].
  simpl in *. apply teacher_of_select_Some in H1 as ->.
  apply teacher_of_select_Some in H2 as ->.
  apply get_var_mapping_lookup in E1, E2; try done. congruence.
Qed.

Lemma remove_dups_length_NoDup {A} `{EqDecision A} (l : list A) :
  length l = length (remove_dups l) → NoDup l.
Proof.
  induction l as [| x l IH]; [constructor |]. simpl.
  assert (Hle : (length (remove_dups l) ≤ length l)%nat).
  { clear. induction l as [| y l IH]; [done |]. simpl.
    case_decide; simpl; lia. }
  case_decide as Hx; simpl; [lia |].
  intros [= Hlen]. constructor; [done | by apply IH].
Qed.

Lemma validate_cover problem :
  SetCoverSat._validate_structure problem = true →
  NoDup (Teacher.name <$> SetCoverSat.teachers problem)
  ∧ 0 < SetCoverSat.k problem.
Proof.
  unfold SetCoverSat._validate_structure.
  intros [[Hdup _]%andb_true_iff Hk]%andb_true_iff.
  apply bool_decide_eq_true in Hdup. apply negb_true_iff in Hk.
  split; [by apply remove_dups_length_NoDup | lia].
Qed.

Lemma outcome_ok_range problem :
  0 < SetCoverSat.k problem →
  SetCoverSat.generate_outcome problem = Ok () →
  0 ≤ Z.of_nat (length (SetCoverSat.teachers problem)) - SetCoverSat.k problem + 1.
Proof.
  intros Hk Hout.
  destruct (Z.le_gt_cases 0
              (Z.of_nat (length (SetCoverSat.teachers problem))
               - SetCoverSat.k problem + 1)) as [| Hneg]; [done |].
  unfold SetCoverSat.generate_outcome, outcome in Hout.
  rewrite cover_generate_parts in Hout.
  fold (outcome (SetCoverSat.cardinality_clauses problem)
          (exec (SetCoverSat.coverage_clauses problem)
             (exec (SetCoverSat.capability_clauses problem) init))) in Hout.
  rewrite cardinality_raises in Hout by lia. done.
Qed.

(** The names decoded from a model are those of the selected teachers. *)
Lemma chosen_selected problem a name :
  let g := SetCoverSat.generated problem in
  name ∈ selected_names (get_var_mapping g)
           (Sat.model_of a (size (var_map g))) ↔
  ∃ teacher, teacher ∈ SetCoverSat.teachers problem
             ∧ Teacher.name teacher = name ∧ selected a g teacher = true.
Proof.
  intros g.
  assert (Hok : interner_ok g) by apply cover_generated_ok.
  assert (Hnames : names_ok problem g) by apply cover_generated_names.
  rewrite selected_names_elem by done. split.
  - intros (var & Hvar & Hpos & Hlook).
    destruct (proj1 (model_of_positive a _ var) (conj Hvar Hpos)) as [_ Ha].
    destruct (Hnames _ _ Hlook) as [(teacher & Ht & E) | (rest & E)]; [| done].
    exists teacher. apply String.app_inj in E. split_and!; [done | done |].
    unfold selected, select_name. rewrite <- E. by rewrite Hlook.
  - intros (teacher & Ht & <- & Hsel). unfold selected in Hsel.
    destruct (var_map g !! select_name teacher) as [var |] eqn:E; [| done].
    exists var. pose proof (ok_range _ Hok _ _ E) as Hr.
    rewrite (ok_next _ Hok) in Hr.
    destruct (proj2 (model_of_positive a (size (var_map g)) var)) as [Hin Hpos];
      [split; [lia | done] |].
    by split_and!.
Qed.

Lemma fmap_up_to_free (names : list string) :
  Forall (λ name, free_of "_" name = true) names → up_to "_" <$> names = names.
Proof.
  induction 1 as [| name names Hname _ IH]; [done |].
  by rewrite fmap_cons, IH, up_to_free.
Qed.

(** X26. For a valid instance whose teacher names hold no underscore and for
    which [generate_cnf] returns, every model of the generated formula is
    decoded by [_extract_teachers] to a list without repetition of exactly
    [k] names of teachers of the instance, and every required subject is in
    the capabilities of one of the decoded teachers. *)
Theorem decoded_cover_sound
    (problem : SetCoverSat.TeacherSubjectSetCover) (a : Z → bool) :
  SetCoverSat._validate_structure problem = true →
  Forall (λ teacher, free_of "_" (Teacher.name teacher) = true)
    (SetCoverSat.teachers problem) →
  SetCoverSat.generate_outcome problem = Ok () →
  let g := SetCoverSat.generated problem in
  Sat.cnf_true a (clauses g) = true →
  ∃ decoded,
    SetCoverSat._extract_teachers (get_var_mapping g)
      (Sat.model_of a (size (var_map g))) = Ok decoded
    ∧ NoDup decoded
    ∧ Z.of_nat (length decoded) = SetCoverSat.k problem
    ∧ (∀ name, name ∈ decoded →
         ∃ teacher, teacher ∈ SetCoverSat.teachers problem
                    ∧ Teacher.name teacher = name)
    ∧ (∀ subject, subject ∈ SetCoverSat.subjects problem →
         ∃ teacher, teacher ∈ SetCoverSat.teachers problem
                    ∧ Teacher.name teacher ∈ decoded
                    ∧ SetCoverSat.can_teach teacher subject = true).
Proof.
  intros Hvalid Hfree Hout g Hsat.
  destruct (validate_cover _ Hvalid) as [Hnodup Hk].
  pose proof (outcome_ok_range _ Hk Hout) as Hn.
  assert (Hok : interner_ok g) by apply cover_generated_ok.
  assert (Hnames : names_ok problem g) by apply cover_generated_names.
  destruct (cover_generated_clauses problem ltac:(lia) Hn)
    as (Hcover & Hmost & Hleast). fold g in Hcover, Hmost, Hleast.
  set (model := Sat.model_of a (size (var_map g))).
  set (chosen := selected_names (get_var_mapping g) model).
  assert (Hchosen : ∀ name, name ∈ chosen ↔
            ∃ teacher, teacher ∈ SetCoverSat.teachers problem
                       ∧ Teacher.name teacher = name
                       ∧ selected a g teacher = true)
    by (intros name; apply chosen_selected).
  assert (Hteachers : ∀ name, name ∈ chosen →
            ∃ teacher, teacher ∈ SetCoverSat.teachers problem
                       ∧ Teacher.name teacher = name).
  { intros name (teacher & Ht & Hname & _)%Hchosen. eauto. }
  exists chosen. split_and!.
  - rewrite (extract_teachers_spec problem) by done. f_equal.
    apply fmap_up_to_free, Forall_forall. intros name Hname.
    destruct (Hteachers name Hname) as (teacher & Ht & <-).
    by apply (proj1 (Forall_forall _ _) Hfree).
  - apply selected_names_NoDup; [done | apply model_of_NoDup].
  - set (sel := filter (λ t, selected a g t = true) (SetCoverSat.teachers problem)).
    assert (Hperm : chosen ≡ₚ Teacher.name <$> sel).
    { apply NoDup_Permutation.
      - apply selected_names_NoDup; [done | apply model_of_NoDup].
      - eapply sublist_NoDup; [apply Hnodup |].
        apply fmap_sublist, sublist_filter.
      - intros name. rewrite Hchosen, list_elem_of_fmap. split.
        + intros (teacher & Ht & Hname & Hsel). exists teacher.
          split; [done |]. by apply list_elem_of_filter.
        + intros (teacher & Hname & [Hsel Ht]%list_elem_of_filter). eauto. }
    rewrite (Permutation_length Hperm), length_fmap.
    apply selected_count; [done | done | lia | done | done | done].
  - done.
  - intros subject Hsubject.
    destruct (positive_clause_true a g _ Hok Hsat (Hcover subject Hsubject))
      as (teacher & [Hcan Ht]%list_elem_of_filter & Hsel).
    exists teacher. split_and!; [done | | done].
    apply Hchosen. eauto.
Qed.

(** The example instance of the specification: [A] teaches mathematics, [B]
    science, both subjects required, [k = 2]. *)
Definition example_cover : SetCoverSat.TeacherSubjectSetCover :=
  {| SetCoverSat.teachers :=
       [Teacher.mk "A" ["math"]; Teacher.mk "B" ["science"]];
     SetCoverSat.subjects := ["math"; "science"];
     SetCoverSat.k := 2 |}.

Lemma decoded_cover_sound_witness :
  ∃ decoded,
    SetCoverSat._extract_teachers
      (get_var_mapping (SetCoverSat.generated example_cover))
      (Sat.model_of (λ v, negb ((v =? 2) || (v =? 3)))
         (size (var_map (SetCoverSat.generated example_cover)))) = Ok decoded
    ∧ Z.of_nat (length decoded) = 2.
Proof.
  assert (H1 : SetCoverSat._validate_structure example_cover = true)
    by (vm_compute; reflexivity).
  assert (H2 : Forall (λ teacher, free_of "_" (Teacher.name teacher) = true)
                 (SetCoverSat.teachers example_cover))
    by (repeat constructor).
  assert (H3 : SetCoverSat.generate_outcome example_cover = Ok ())
    by (vm_compute; reflexivity).
  assert (H4 : Sat.cnf_true (λ v, negb ((v =? 2) || (v =? 3)))
                 (clauses (SetCoverSat.generated example_cover)) = true)
    by (vm_compute; reflexivity).
  destruct (decoded_cover_sound example_cover _ H1 H2 H3 H4)
    as (decoded & Hdec & _ & Hlen & _).
  exists decoded. split; [exact Hdec | exact Hlen].
Defined.

(** ** The NFA formula over named propositions *)

(** A proposition [state@time] and a signed occurrence of it. *)
Definition prop : Type := string * nat.
Definition nlit : Type := bool * prop.

Definition prop_name (p : prop) : string := NfaSat.var_name p.1 (Z.of_nat p.2).

Definition at_time (t : nat) (states : list string) : list prop :=
  (λ s, (s, t)) <$> states.

Definition at_least_one (props : list prop) : list nlit := (λ p, (true, p)) <$> props.

(** The clause forbidding the propositions at positions [i < j] together. *)
Definition neg_pair (props : list prop) (i j : nat) : list (list nlit) :=
  if (i <? j)%nat then
    match props !! i, props !! j with
    | Some p, Some q => [[(false, p); (false, q)]]
    | _, _ => []
    end
  else [].

Definition at_most_one_pairs (props : list prop) : list (list nlit) :=
  i ← seq 0 (length props); j ← seq 0 (length props); neg_pair props i j.

Definition exactly_one (props : list prop) : list (list nlit) :=
  at_least_one props :: at_most_one_pairs props.

(** The transition clause of [state] at [t], none for a state without
    successor on the symbol. *)
Definition transition_clause (nfa : NfaSat.NFA) (input_string : string)
    (t : nat) (state : string) : list (list nlit) :=
  match NfaSat.get_next_states nfa state (Py.getitem input_string t) with
  | [] => []
  | next => [(false, (state, t)) :: at_least_one (at_time (S t) next)]
  end.

(** The formula of section 4.3 of the specification, clause by clause. *)
Definition named_cnf (nfa : NfaSat.NFA) (input_string : string)
  : list (list nlit) :=
  let n := String.length input_string in
  exactly_one (at_time 0 (NfaSat.initial_states nfa))
  ++ (t ← Py.range n; state ← NfaSat.states nfa;
      transition_clause nfa input_string t state)
  ++ (t ← Py.range (n + 1); exactly_one (at_time t (NfaSat.states nfa)))
  ++ [at_least_one (at_time n (NfaSat.final_states nfa))].

(** A stored literal stands for a signed proposition: its variable is the
    index of the proposition's name. *)
Definition lit_rep (vm : gmap string Z) (nl : nlit) (l : Z) : Prop :=
  ∃ v, vm !! prop_name nl.2 = Some v ∧ l = if nl.1 then v else - v.

Definition clause_rep (vm : gmap string Z) (nc : list nlit) (c : list Z) : Prop :=
  Forall2 (lit_rep vm) nc c.

(** [rep ns g]: the store of [g] holds, clause by clause and literal by
    literal, the named clauses [ns]. *)
Definition rep (ns : list (list nlit)) (g : CNFGenerator) : Prop :=
  interner_ok g ∧ Forall2 (clause_rep (var_map g)) ns (clauses g).

(** The indices handed out for a list of propositions. *)
Definition indexed (props : list prop) (vars : list Z) (g : CNFGenerator) : Prop :=
  Forall2 (λ p v, var_map g !! prop_name p = Some v) props vars.

Lemma lit_rep_weaken vm vm' nl l : vm ⊆ vm' → lit_rep vm nl l → lit_rep vm' nl l.
Proof.
  intros Hsub (v & Hv & ->). exists v. split; [| done]. by eapply lookup_weaken.
Qed.

Lemma clause_rep_weaken vm vm' nc c :
  vm ⊆ vm' → clause_rep vm nc c → clause_rep vm' nc c.
Proof.
  intros Hsub H. eapply Forall2_impl; [apply H |].
  intros nl l. by apply lit_rep_weaken.
Qed.

Lemma stable_indexed props vars : stable (indexed props vars).
Proof.
  intros g g' H Hsub. eapply Forall2_impl; [apply H |].
  intros p v Hv. simpl in *. by eapply lookup_weaken.
Qed.

Lemma stable_and (F G : CNFGenerator → Prop) :
  stable F → stable G → stable (λ g, F g ∧ G g).
Proof. intros HF HG g g' [] Hsub. split; [by eapply HF | by eapply HG]. Qed.

Lemma stable_true : stable (λ _, True).
Proof. done. Qed.

Lemma rep_intern ns name :
  hoare (rep ns) (intern name)
    (λ v g, rep ns g ∧ var_map g !! name = Some v).
Proof.
  intros g [Hok Hrep].
  destruct (intern_lookup name g) as (i & E & Hi & Hsub & Hcl).
  exists i, (exec (intern name) g). split_and!; try done. split.
  - by apply interner_ok_intern.
  - rewrite Hcl. eapply Forall2_impl; [apply Hrep |].
    intros nc c. by apply clause_rep_weaken.
Qed.

Lemma rep_get_vars ns (t : nat) (z : Z) (states : list string) :
  z = Z.of_nat t →
  hoare (rep ns) (mapM (λ s, NfaSat.get_var s z) states)
    (λ vars g, rep ns g ∧ indexed (at_time t states) vars g).
Proof.
  intros ->. eapply hoare_weaken.
  - apply (hoare_mapM (rep ns)
             (λ s v g, var_map g !! prop_name (s, t) = Some v)).
    + intros s v. apply stable_lookup.
    + intros s _. apply rep_intern.
  - done.
  - intros vars g [Hrep Hvars]. split; [done |].
    unfold indexed, at_time. by apply Forall2_fmap_l.
Qed.

Lemma rep_add_clause ns nc c :
  hoare (λ g, rep ns g ∧ clause_rep (var_map g) nc c) (add_clause c)
    (λ _ g, rep (ns ++ [nc]) g).
Proof.
  intros g [[Hok Hrep] Hc]. exists (), (exec (add_clause c) g).
  split; [reflexivity |]. split; [reflexivity |].
  split; [by apply interner_ok_add_clause |].
  simpl. apply Forall2_app; [done |]. by constructor.
Qed.

Lemma indexed_positive props vars g :
  indexed props vars g → clause_rep (var_map g) (at_least_one props) vars.
Proof.
  intros H. unfold clause_rep, at_least_one. apply Forall2_fmap_l.
  eapply Forall2_impl; [apply H |]. intros p v Hv. by exists v.
Qed.

(** A loop whose iterations each append their own named clauses. *)
Lemma rep_for {X} (F : CNFGenerator → Prop) (l : list X) (body : X → M ())
    (S : X → list (list nlit)) :
  (∀ x ns, x ∈ l →
     hoare (λ g, rep ns g ∧ F g) (body x) (λ _ g, rep (ns ++ S x) g ∧ F g)) →
  ∀ ns, hoare (λ g, rep ns g ∧ F g) (for_ l body)
          (λ _ g, rep (ns ++ (l ≫= S)) g ∧ F g).
Proof.
  induction l as [| x l IH]; intros Hbody ns.
  - apply hoare_ret. intros g Hg. by rewrite app_nil_r.
  - rewrite for_cons, bind_cons, app_assoc.
    eapply hoare_bind; [apply Hbody; by left |]. intros [].
    apply IH. intros y ns' Hy. apply Hbody. by right.
Qed.

Lemma imap_pair_bind {A B} (f : nat → list B) (l : list A) (k : nat) :
  imap (λ i x, ((k + i)%nat, x)) l ≫= (λ ix, f ix.1) = seq k (length l) ≫= f.
Proof.
  revert k. induction l as [| x l IH]; intros k; [done |].
  rewrite imap_cons.
  change (seq k (length (x :: l))) with (k :: seq (S k) (length l)).
  rewrite !bind_cons. cbn [fst]. rewrite Nat.add_0_r. f_equal.
  rewrite <- IH. f_equal.
  apply imap_ext. intros i y _. simpl. f_equal. lia.
Qed.

Lemma enumerate_bind {A B} (f : nat → list B) (l : list A) :
  Py.enumerate l ≫= (λ ix, f ix.1) = seq 0 (length l) ≫= f.
Proof. apply (imap_pair_bind f l 0). Qed.

Lemma elem_of_enumerate {A} (l : list A) i x :
  (i, x) ∈ Py.enumerate l → l !! i = Some x.
Proof.
  intros (j & y & [= -> ->] & Hy)%elem_of_lookup_imap_1. done.
Qed.

Lemma indexed_lookup props vars g i v :
  indexed props vars g → vars !! i = Some v →
  ∃ p, props !! i = Some p ∧ var_map g !! prop_name p = Some v.
Proof. intros H Hv. apply (Forall2_lookup_r _ _ _ _ _ H Hv). Qed.

(** One step of the inner pairwise loop. *)
Lemma rep_neg_pair ns props vars i j s1 s2 :
  vars !! i = Some s1 → vars !! j = Some s2 →
  hoare (λ g, rep ns g ∧ indexed props vars g)
    (if (i <? j)%nat then add_clause [- s1; - s2] else mret ())
    (λ _ g, rep (ns ++ neg_pair props i j) g ∧ indexed props vars g).
Proof.
  intros Hi Hj. unfold neg_pair. destruct (i <? j)%nat.
  - intros g [Hrep Hidx].
    destruct (indexed_lookup _ _ _ _ _ Hidx Hi) as (p & Hp & Hpv).
    destruct (indexed_lookup _ _ _ _ _ Hidx Hj) as (q & Hq & Hqv).
    rewrite Hp, Hq.
    apply (hoare_frame _ (indexed props vars) _ _
             (rep_add_clause ns [(false, p); (false, q)] [- s1; - s2])
             (stable_indexed props vars)).
    split; [| done]. split; [done |].
    constructor; [by exists s1 |]. constructor; [by exists s2 | constructor].
  - apply hoare_ret. intros g Hg. by rewrite app_nil_r.
Qed.

Lemma rep_at_most_one ns props vars :
  hoare (λ g, rep ns g ∧ indexed props vars g) (at_most_one vars)
    (λ _ g, rep (ns ++ at_most_one_pairs props) g ∧ indexed props vars g).
Proof.
  assert (H : hoare (λ g, rep ns g ∧ indexed props vars g) (at_most_one vars)
            (λ _ g,
               rep (ns ++ (Py.enumerate vars ≫= λ ix,
                           Py.enumerate vars ≫= λ jx,
                           neg_pair props ix.1 jx.1)) g
               ∧ indexed props vars g)).
  { unfold at_most_one.
    apply (rep_for (indexed props vars) (Py.enumerate vars) _
             (λ ix, Py.enumerate vars ≫= λ jx, neg_pair props ix.1 jx.1)).
    intros [i s1] ns1 Hi%elem_of_enumerate.
    apply (rep_for (indexed props vars) (Py.enumerate vars) _
             (λ jx, neg_pair props i jx.1)).
    intros [j s2] ns2 Hj%elem_of_enumerate. by apply rep_neg_pair. }
  intros g Hg. destruct (H g Hg) as (a & g' & E & Hsub & Hpost).
  exists a, g'. split; [done |]. split; [done |].
  destruct Hpost as [Hrep' Hidx']. split; [| done].
  assert (Hlen : length vars = length props).
  { destruct Hg as [_ Hidx]. symmetry. by eapply Forall2_length. }
  unfold at_most_one_pairs. rewrite <- Hlen.
  rewrite <- (enumerate_bind
                (λ i, seq 0 (length vars) ≫= λ j, neg_pair props i j) vars).
  replace (Py.enumerate vars ≫=
             (λ ix, seq 0 (length vars) ≫= λ j, neg_pair props ix.1 j))
    with (Py.enumerate vars ≫= λ ix,
          Py.enumerate vars ≫= λ jx, neg_pair props ix.1 jx.1); [done |].
  apply list_bind_ext; [| done]. intros ix.
  apply (enumerate_bind (λ j, neg_pair props ix.1 j)).
Qed.

Lemma rep_for_plain {X} (l : list X) (body : X → M ()) (S : X → list (list nlit)) :
  (∀ x ns, x ∈ l → hoare (rep ns) (body x) (λ _ g, rep (ns ++ S x) g)) →
  ∀ ns, hoare (rep ns) (for_ l body) (λ _ g, rep (ns ++ (l ≫= S)) g).
Proof.
  intros Hbody ns. eapply hoare_weaken.
  - apply (rep_for (λ _, True) l body S). intros x ns' Hx.
    eapply hoare_weaken; [apply (Hbody x ns' Hx) | by intros g [] | done].
  - done.
  - by intros [] g [].
Qed.

Lemma rep_add_positive ns props vars :
  hoare (λ g, rep ns g ∧ indexed props vars g) (add_clause vars)
    (λ _ g, rep (ns ++ [at_least_one props]) g ∧ indexed props vars g).
Proof.
  eapply hoare_weaken.
  - apply (hoare_frame _ (indexed props vars) _ _
             (rep_add_clause ns (at_least_one props) vars)
             (stable_indexed props vars)).
  - intros g [Hrep Hidx]. split; [| done]. split; [done |].
    by apply indexed_positive.
  - done.
Qed.

(** The exactly-one block of one time step. *)
Lemma rep_exactly_one ns (t : nat) (z : Z) (states : list string) :
  z = Z.of_nat t →
  hoare (rep ns)
    (state_vars_at_t ← mapM (λ s, NfaSat.get_var s z) states;
     add_clause state_vars_at_t;;
     at_most_one state_vars_at_t)
    (λ _ g, rep (ns ++ exactly_one (at_time t states)) g).
Proof.
  intros Hz. eapply hoare_bind; [by apply rep_get_vars |]. intros vars.
  eapply hoare_bind; [apply rep_add_positive |]. intros [].
  eapply hoare_weaken;
    [apply rep_at_most_one | intros g Hg; exact Hg |].
  intros [] g [Hrep _]. unfold exactly_one.
  by rewrite <- app_assoc in Hrep.
Qed.

(** The transition step of one state at one time. *)
Lemma rep_transition ns nfa input_string (t : nat) (state : string) :
  hoare (rep ns)
    (current_var ← NfaSat.get_var state (Z.of_nat t);
     next_vars ← mapM (λ s, NfaSat.get_var s (Z.of_nat t + 1))
                   (NfaSat.get_next_states nfa state (Py.getitem input_string t));
     match next_vars with
     | [] => mret ()
     | _ => add_clause ((- current_var) :: next_vars)
     end)
    (λ _ g, rep (ns ++ transition_clause nfa input_string t state) g).
Proof.
  unfold transition_clause.
  set (next := NfaSat.get_next_states nfa state (Py.getitem input_string t)).
  eapply hoare_bind; [apply rep_intern |]. intros current_var.
  eapply hoare_bind.
  { apply hoare_frame; [| apply stable_lookup].
    apply (rep_get_vars ns (S t)). lia. }
  intros next_vars g [[Hrep Hidx] Hcur].
  destruct next as [| s next'].
  - apply Forall2_nil_inv_l in Hidx as ->.
    apply hoare_ret with (P := λ g', g' = g); [| done].
    intros g' ->. by rewrite app_nil_r.
  - destruct next_vars as [| v vs]; [by apply Forall2_nil_inv_r in Hidx |].
    apply (rep_add_clause ns
             ((false, (state, t)) :: at_least_one (at_time (S t) (s :: next')))
             ((- current_var) :: v :: vs)).
    split; [done |]. constructor.
    + by exists current_var.
    + by apply indexed_positive.
Qed.

(** The generated formula is the named formula, clause by clause. *)
Lemma nfa_generate_rep nfa input_string :
  hoare (rep []) (NfaSat.generate_cnf nfa input_string)
    (λ _ g, rep (named_cnf nfa input_string) g).
Proof.
  unfold NfaSat.generate_cnf, named_cnf.
  eapply hoare_bind; [by apply (rep_get_vars [] 0) |]. intros init_state_vars.
  eapply hoare_bind; [apply rep_add_positive |]. intros [].
  eapply hoare_bind; [apply rep_at_most_one |]. intros [].
  eapply hoare_bind.
  { eapply hoare_weaken;
      [apply (rep_for_plain _ _
                (λ t, state ← NfaSat.states nfa;
                      transition_clause nfa input_string t state))
      | by intros g [] | done].
    intros t ns _.
    apply (rep_for_plain _ _ (λ state, transition_clause nfa input_string t state)).
    intros state ns' _. apply rep_transition. }
  intros [].
  eapply hoare_bind.
  { apply (rep_for_plain _ _ (λ t, exactly_one (at_time t (NfaSat.states nfa)))).
    intros t ns _. by apply rep_exactly_one. }
  intros [].
  eapply hoare_bind; [by apply (rep_get_vars _ (String.length input_string)) |].
  intros final_state_vars.
  eapply hoare_weaken;
    [apply rep_add_positive | intros g Hg; exact Hg |].
  intros [] g [Hrep _]. unfold exactly_one.
  by rewrite <- !app_assoc in Hrep.
Qed.

Lemma nfa_generated_rep nfa input_string :
  rep (named_cnf nfa input_string) (NfaSat.generated nfa input_string).
Proof.
  destruct (hoare_exec _ _ _ init (nfa_generate_rep nfa input_string))
    as (a & _ & _ & H); [| done].
  split; [apply interner_ok_init | constructor].
Qed.

(** ** Truth of the named formula *)

Definition nlit_true (ν : string → bool) (nl : nlit) : bool :=
  if nl.1 then ν (prop_name nl.2) else negb (ν (prop_name nl.2)).

Definition nclause_true (ν : string → bool) (nc : list nlit) : bool :=
  existsb (nlit_true ν) nc.

Definition ncnf_true (ν : string → bool) (ns : list (list nlit)) : bool :=
  forallb (nclause_true ν) ns.

(** From an assignment of the indices to one of the names, and back. *)
Definition names_of (g : CNFGenerator) (a : Z → bool) (name : string) : bool :=
  match var_map g !! name with
  | Some v => a v
  | None => false
  end.

Definition indices_of (g : CNFGenerator) (ν : string → bool) (v : Z) : bool :=
  match get_var_mapping g !! v with
  | Some name => ν name
  | None => false
  end.

Lemma existsb_Forall2 {A B} (f : A → bool) (h : B → bool) l k :
  Forall2 (λ x y, f x = h y) l k → existsb f l = existsb h k.
Proof. induction 1 as [| x y l k Hxy _ IH]; [done |]. simpl. by rewrite Hxy, IH. Qed.

Lemma forallb_Forall2 {A B} (f : A → bool) (h : B → bool) l k :
  Forall2 (λ x y, f x = h y) l k → forallb f l = forallb h k.
Proof. induction 1 as [| x y l k Hxy _ IH]; [done |]. simpl. by rewrite Hxy, IH. Qed.

Lemma lit_rep_true g a nl l :
  interner_ok g → lit_rep (var_map g) nl l →
  nlit_true (names_of g a) nl = Sat.lit_true a l.
Proof.
  intros Hok (v & Hv & ->). unfold nlit_true, names_of. rewrite Hv.
  pose proof (ok_range _ Hok _ _ Hv) as Hr.
  destruct nl.1; [by rewrite lit_true_pos by lia | by rewrite lit_true_neg by lia].
Qed.

Lemma rep_cnf_true ns g a :
  rep ns g → ncnf_true (names_of g a) ns = Sat.cnf_true a (clauses g).
Proof.
  intros [Hok Hrep]. apply forallb_Forall2.
  eapply Forall2_impl; [apply Hrep |]. intros nc c Hc.
  apply existsb_Forall2. eapply Forall2_impl; [apply Hc |].
  intros nl l. by apply lit_rep_true.
Qed.

Lemma names_of_indices_of g ν name v :
  interner_ok g → var_map g !! name = Some v →
  names_of g (indices_of g ν) name = ν name.
Proof.
  intros Hok Hv. unfold names_of, indices_of. rewrite Hv.
  by rewrite (proj2 (get_var_mapping_lookup g v name Hok) Hv).
Qed.

Lemma rep_ncnf_true ns g ν :
  rep ns g → Sat.cnf_true (indices_of g ν) (clauses g) = ncnf_true ν ns.
Proof.
  intros Hrep. rewrite <- (rep_cnf_true ns g) by done.
  destruct Hrep as [Hok Hrep]. unfold ncnf_true.
  induction Hrep as [| nc c ns cs Hc _ IH]; [done |]. simpl. rewrite IH. f_equal.
  unfold nclause_true. clear IH.
  induction Hc as [| nl l nc c Hl _ IH]; [done |]. simpl. rewrite IH. f_equal.
  destruct Hl as (v & Hv & _). unfold nlit_true.
  by rewrite (names_of_indices_of g ν _ v).
Qed.

(** The stored formula has a model exactly when the named formula has one. *)
Lemma rep_satisfiable ns g :
  rep ns g → Sat.satisfiable (clauses g) ↔ ∃ ν, ncnf_true ν ns = true.
Proof.
  intros Hrep. split.
  - intros [a Ha]. exists (names_of g a). by rewrite (rep_cnf_true ns g).
  - intros [ν Hν]. exists (indices_of g ν). by rewrite (rep_ncnf_true ns g).
Qed.

(** ** Names of propositions are unambiguous *)

Lemma free_of_sep_app sep s d : free_of sep (s +:+ String sep d) = false.
Proof.
  unfold free_of. rewrite all_chars_app. simpl. rewrite Ascii.eqb_refl. simpl.
  apply andb_false_r.
Qed.

Lemma append_sep_inj sep s s' d d' :
  free_of sep d = true → free_of sep d' = true →
  s +:+ String sep d = s' +:+ String sep d' → s = s' ∧ d = d'.
Proof.
  intros Hd Hd'. revert s'. induction s as [| c s IH]; intros [| c' s'].
  - rewrite !append_nil_l. by intros [= ->].
  - rewrite append_nil_l, append_cons. intros [= <- ->].
    by rewrite free_of_sep_app in Hd.
  - rewrite append_nil_l, append_cons. intros [= -> <-].
    by rewrite free_of_sep_app in Hd'.
  - rewrite !append_cons. intros [= -> H]. by destruct (IH _ H) as [-> ->].
Qed.

Lemma var_name_inj state time state' time' :
  NfaSat.var_name state time = NfaSat.var_name state' time' →
  state = state' ∧ time = time'.
Proof.
  unfold NfaSat.var_name.
  change ("_" +:+ ?s) with (String "_" s). intros H.
  apply append_sep_inj in H as [-> H%str_inj]; [done | |];
    (apply numeral_free_of; [done | apply str_chars]).
Qed.

Lemma prop_name_inj p q : prop_name p = prop_name q → p = q.
Proof.
  destruct p as [s t], q as [s' t']. unfold prop_name. simpl.
  intros [-> Ht]%var_name_inj. f_equal. lia.
Qed.

(** ** The clauses of the named formula *)

Lemma nclause_true_elem ν nc :
  nclause_true ν nc = true ↔ ∃ nl, nl ∈ nc ∧ nlit_true ν nl = true.
Proof.
  unfold nclause_true. rewrite existsb_exists.
  by setoid_rewrite list_elem_of_In.
Qed.

Lemma ncnf_true_elem ν ns :
  ncnf_true ν ns = true ↔ ∀ nc, nc ∈ ns → nclause_true ν nc = true.
Proof.
  unfold ncnf_true. rewrite forallb_forall.
  by setoid_rewrite list_elem_of_In.
Qed.

Lemma at_least_one_true ν t states :
  nclause_true ν (at_least_one (at_time t states)) = true ↔
  ∃ s, s ∈ states ∧ ν (prop_name (s, t)) = true.
Proof.
  rewrite nclause_true_elem. unfold at_least_one, at_time. split.
  - intros (nl & Hnl & Htrue).
    apply list_elem_of_fmap in Hnl as (p & -> & Hp).
    apply list_elem_of_fmap in Hp as (s & -> & Hs). by exists s.
  - intros (s & Hs & Htrue). exists (true, (s, t)). split; [| done].
    apply list_elem_of_fmap. exists (s, t). split; [done |].
    apply list_elem_of_fmap. by exists s.
Qed.

Lemma elem_of_at_most_one_pairs nc props :
  nc ∈ at_most_one_pairs props ↔
  ∃ i j p q, (i < j)%nat ∧ props !! i = Some p ∧ props !! j = Some q
             ∧ nc = [(false, p); (false, q)].
Proof.
  unfold at_most_one_pairs. rewrite list_elem_of_bind. split.
  - intros (i & Hin & _). apply list_elem_of_bind in Hin as (j & Hin & _).
    unfold neg_pair in Hin. destruct (Nat.ltb_spec i j); [| by apply elem_of_nil in Hin].
    destruct (props !! i) as [p |] eqn:Ep; [| by apply elem_of_nil in Hin].
    destruct (props !! j) as [q |] eqn:Eq; [| by apply elem_of_nil in Hin].
    apply list_elem_of_singleton in Hin as ->. by exists i, j, p, q.
  - intros (i & j & p & q & Hij & Hp & Hq & ->).
    exists i. split; [| apply elem_of_seq; apply lookup_lt_Some in Hp; lia].
    apply list_elem_of_bind. exists j.
    split; [| apply elem_of_seq; apply lookup_lt_Some in Hq; lia].
    unfold neg_pair. destruct (Nat.ltb_spec i j); [| lia].
    rewrite Hp, Hq. by left.
Qed.

(** The pairwise clauses hold exactly when no two positions are both true. *)
Lemma at_most_one_true ν t states :
  (∀ nc, nc ∈ at_most_one_pairs (at_time t states) → nclause_true ν nc = true) ↔
  ∀ i j s s', (i < j)%nat → states !! i = Some s → states !! j = Some s' →
    ν (prop_name (s, t)) = true → ν (prop_name (s', t)) = true → False.
Proof.
  split.
  - intros H i j s s' Hij Hs Hs' Ht Ht'.
    assert (Hc : nclause_true ν [(false, (s, t)); (false, (s', t))] = true).
    { apply H, elem_of_at_most_one_pairs. exists i, j, (s, t), (s', t).
      unfold at_time. rewrite !list_lookup_fmap, Hs, Hs'. by split_and!. }
    unfold nclause_true, nlit_true in Hc. simpl in Hc.
    by rewrite Ht, Ht' in Hc.
  - intros H nc (i & j & p & q & Hij & Hp & Hq & ->)%elem_of_at_most_one_pairs.
    unfold at_time in Hp, Hq. rewrite list_lookup_fmap in Hp, Hq.
    destruct (states !! i) as [s |] eqn:Es; [| done].
    destruct (states !! j) as [s' |] eqn:Es'; [| done].
    simpl in Hp, Hq. simplify_eq.
    unfold nclause_true, nlit_true. simpl.
    destruct (ν (prop_name (s, t))) eqn:E1; [| done].
    destruct (ν (prop_name (s', t))) eqn:E2; [| done].
    by destruct (H i j s s' Hij Es Es' E1 E2).
Qed.

Lemma transition_clause_true ν nfa input_string t state :
  (∀ nc, nc ∈ transition_clause nfa input_string t state →
         nclause_true ν nc = true) ↔
  (NfaSat.get_next_states nfa state (Py.getitem input_string t) = []
   ∨ ν (prop_name (state, t)) = false
   ∨ ∃ s', s' ∈ NfaSat.get_next_states nfa state (Py.getitem input_string t)
           ∧ ν (prop_name (s', S t)) = true).
Proof.
  unfold transition_clause.
  destruct (NfaSat.get_next_states nfa state (Py.getitem input_string t))
    as [| s0 next] eqn:E.
  - split; [by left |]. by intros _ nc ?%elem_of_nil.
  - split.
    + intros H. right.
      specialize (H _ ltac:(by left)).
      unfold nclause_true in H. simpl in H.
      apply orb_true_iff in H as [H | H].
      * left. unfold nlit_true in H. simpl in H. by apply negb_true_iff in H.
      * right. by apply (at_least_one_true ν (S t) (s0 :: next)).
    + intros [? | [H | H]] nc ->%list_elem_of_singleton; [done | |].
      * unfold nclause_true. simpl. unfold nlit_true at 1. simpl. by rewrite H.
      * unfold nclause_true. simpl. apply orb_true_iff. right.
        by apply (at_least_one_true ν (S t) (s0 :: next)).
Qed.

Lemma ncnf_true_app ν ns ns' :
  ncnf_true ν (ns ++ ns') = true ↔ ncnf_true ν ns = true ∧ ncnf_true ν ns' = true.
Proof. unfold ncnf_true. rewrite forallb_app. apply andb_true_iff. Qed.

Lemma ncnf_true_bind {X} ν (l : list X) (f : X → list (list nlit)) :
  ncnf_true ν (l ≫= f) = true ↔ ∀ x, x ∈ l → ncnf_true ν (f x) = true.
Proof.
  induction l as [| x l IH].
  - split; [by intros _ x ?%elem_of_nil | done].
  - rewrite bind_cons, ncnf_true_app, IH. split.
    + intros [Hx Hl] y [-> | Hy]%elem_of_cons; auto.
    + intros H. split; [apply H; by left |]. intros y Hy. apply H. by right.
Qed.

(** No two of the states are occupied together at time [t]. *)
Definition at_most_one_at (ν : string → bool) (t : nat) (states : list string)
  : Prop :=
  ∀ i j s s', (i < j)%nat → states !! i = Some s → states !! j = Some s' →
    ν (prop_name (s, t)) = true → ν (prop_name (s', t)) = true → False.

Definition some_at (ν : string → bool) (t : nat) (states : list string) : Prop :=
  ∃ s, s ∈ states ∧ ν (prop_name (s, t)) = true.

Lemma exactly_one_true ν t states :
  ncnf_true ν (exactly_one (at_time t states)) = true ↔
  some_at ν t states ∧ at_most_one_at ν t states.
Proof.
  unfold exactly_one. change (?x :: ?l) with ([x] ++ l).
  rewrite ncnf_true_app. unfold ncnf_true at 1. simpl. rewrite andb_true_r.
  rewrite at_least_one_true, ncnf_true_elem, at_most_one_true. done.
Qed.

(** What a model of the named formula says, group by group. *)
Lemma named_cnf_true ν nfa input_string :
  ncnf_true ν (named_cnf nfa input_string) = true ↔
  (some_at ν 0 (NfaSat.initial_states nfa)
   ∧ at_most_one_at ν 0 (NfaSat.initial_states nfa))
  ∧ (∀ t state, (t < String.length input_string)%nat →
       state ∈ NfaSat.states nfa →
       NfaSat.get_next_states nfa state (Py.getitem input_string t) = []
       ∨ ν (prop_name (state, t)) = false
       ∨ some_at ν (S t)
           (NfaSat.get_next_states nfa state (Py.getitem input_string t)))
  ∧ (∀ t, (t ≤ String.length input_string)%nat →
       some_at ν t (NfaSat.states nfa) ∧ at_most_one_at ν t (NfaSat.states nfa))
  ∧ some_at ν (String.length input_string) (NfaSat.final_states nfa).
Proof.
  unfold named_cnf. rewrite !ncnf_true_app, exactly_one_true.
  rewrite !ncnf_true_bind.
  assert (Hfin : ncnf_true ν
            [at_least_one (at_time (String.length input_string)
                             (NfaSat.final_states nfa))] = true
          ↔ some_at ν (String.length input_string) (NfaSat.final_states nfa)).
  { unfold ncnf_true. simpl. rewrite andb_true_r. apply at_least_one_true. }
  rewrite Hfin. clear Hfin.
  split.
  - intros (Hinit & Htrans & Hone & Hfinal).
    split; [done |]. split; [| split; [| done]].
    + intros t state Ht Hstate.
      assert (Hin : t ∈ Py.range (String.length input_string))
        by (apply elem_of_seq; lia).
      specialize (Htrans t Hin). rewrite ncnf_true_bind in Htrans.
      specialize (Htrans state Hstate). rewrite ncnf_true_elem in Htrans.
      by apply transition_clause_true in Htrans.
    + intros t Ht. apply exactly_one_true, Hone, elem_of_seq. lia.
  - intros (Hinit & Htrans & Hone & Hfinal).
    split; [done |]. split; [| split; [| done]].
    + intros t Ht%elem_of_seq. apply ncnf_true_bind. intros state Hstate.
      apply ncnf_true_elem, transition_clause_true, Htrans; [lia | done].
    + intros t Ht%elem_of_seq. apply exactly_one_true, Hone. lia.
Qed.

(** ** Runs of the automaton and the generated formula *)

(** A run on [input_string]: one declared state per time [0 .. len], starting
    in an initial state and ending in a final one.  A strict run follows the
    transition relation at every step; a lenient run may leave a state that
    has no successor on the current symbol towards any declared state. *)
Record run (lenient : bool) (nfa : NfaSat.NFA) (input_string : string)
  (r : list string) : Prop := mk_run {
  run_length : length r = S (String.length input_string);
  run_declared : ∀ s, s ∈ r → s ∈ NfaSat.states nfa;
  run_initial : ∃ s, r !! 0%nat = Some s ∧ s ∈ NfaSat.initial_states nfa;
  run_steps : ∀ t s s', r !! t = Some s → r !! S t = Some s' →
    s' ∈ NfaSat.get_next_states nfa s (Py.getitem input_string t)
    ∨ (lenient = true
       ∧ NfaSat.get_next_states nfa s (Py.getitem input_string t) = []);
  run_final : ∃ s, r !! String.length input_string = Some s
                   ∧ s ∈ NfaSat.final_states nfa
}.

(** No declared state is without a successor on a symbol of the word. *)
Definition no_dead_end (nfa : NfaSat.NFA) (input_string : string) : Prop :=
  ∀ t s, (t < String.length input_string)%nat → s ∈ NfaSat.states nfa →
    NfaSat.get_next_states nfa s (Py.getitem input_string t) ≠ [].

(** The state a model occupies at time [t]: the first declared state whose
    proposition is true. *)
Definition occupied (ν : string → bool) (t : nat) (states : list string)
  : string :=
  default "" (head (filter (λ s, ν (prop_name (s, t)) = true) states)).

Definition run_of (ν : string → bool) (nfa : NfaSat.NFA) (input_string : string)
  : list string :=
  (λ t, occupied ν t (NfaSat.states nfa))
    <$> Py.range (S (String.length input_string)).

(** The model of a run: the proposition of [(s, t)] is true when the run is
    in [s] at time [t]. *)
Definition model_of_run (r : list string) (name : string) : bool :=
  existsb (λ ts, String.eqb name (prop_name (ts.2, ts.1))) (Py.enumerate r).

(** The successful branches of [dfs] from [s]: the states visited after [s]. *)
Fixpoint trace (nfa : NfaSat.NFA) (input_string : string) (s : string)
  (rest : list string) : Prop :=
  match input_string, rest with
  | EmptyString, [] => s ∈ NfaSat.final_states nfa
  | String c w, s' :: rest' =>
      s' ∈ NfaSat.get_next_states nfa s (String c EmptyString)
      ∧ trace nfa w s' rest'
  | _, _ => False
  end.

Lemma forallb_elem_of {A} (f : A → bool) (l : list A) x :
  forallb f l = true → x ∈ l → f x = true.
Proof. rewrite forallb_forall. intros H Hx. by apply H, list_elem_of_In. Qed.

Lemma valid_initial nfa s :
  NfaSat._validate_structure nfa = true →
  s ∈ NfaSat.initial_states nfa → s ∈ NfaSat.states nfa.
Proof.
  unfold NfaSat._validate_structure. rewrite !andb_true_iff.
  intros [[H _] _] Hs. by apply (forallb_elem_of _ _ _ H), bool_decide_eq_true in Hs.
Qed.

Lemma valid_final nfa s :
  NfaSat._validate_structure nfa = true →
  s ∈ NfaSat.final_states nfa → s ∈ NfaSat.states nfa.
Proof.
  unfold NfaSat._validate_structure. rewrite !andb_true_iff.
  intros [[_ H] _] Hs. by apply (forallb_elem_of _ _ _ H), bool_decide_eq_true in Hs.
Qed.

Lemma valid_next nfa s symbol s' :
  NfaSat._validate_structure nfa = true →
  s' ∈ NfaSat.get_next_states nfa s symbol → s' ∈ NfaSat.states nfa.
Proof.
  unfold NfaSat._validate_structure, NfaSat.get_next_states.
  rewrite !andb_true_iff. intros [_ H].
  destruct (NfaSat.transitions nfa !! s) as [trans |] eqn:Ht; [| by intros ?%elem_of_nil].
  destruct (trans !! symbol) as [next |] eqn:Hn; simpl; [| by intros ?%elem_of_nil].
  intros Hs'.
  apply elem_of_map_to_list in Ht. apply (forallb_elem_of _ _ _ H) in Ht.
  apply andb_true_iff in Ht as [_ Ht].
  apply elem_of_map_to_list in Hn. apply (forallb_elem_of _ _ _ Ht) in Hn.
  apply andb_true_iff in Hn as [_ Hn].
  by apply (forallb_elem_of _ _ _ Hn), bool_decide_eq_true in Hs'.
Qed.

Lemma unique_at ν t states s s' :
  at_most_one_at ν t states → s ∈ states → s' ∈ states →
  ν (prop_name (s, t)) = true → ν (prop_name (s', t)) = true → s = s'.
Proof.
  intros Hone [i Hi]%list_elem_of_lookup [j Hj]%list_elem_of_lookup Hs Hs'.
  destruct (Nat.lt_total i j) as [Hlt | [-> | Hlt]].
  - destruct (Hone i j s s' Hlt Hi Hj Hs Hs').
  - congruence.
  - destruct (Hone j i s' s Hlt Hj Hi Hs' Hs).
Qed.

Lemma occupied_spec ν t states :
  some_at ν t states →
  occupied ν t states ∈ states ∧ ν (prop_name (occupied ν t states, t)) = true.
Proof.
  intros (s & Hs & Hν). unfold occupied.
  destruct (head _) as [x |] eqn:Hx.
  - apply head_Some_elem_of, list_elem_of_filter in Hx as [? ?]. done.
  - apply head_None in Hx.
    assert (H : s ∈ filter (λ s, ν (prop_name (s, t)) = true) states)
      by by apply list_elem_of_filter.
    rewrite Hx in H. by apply elem_of_nil in H.
Qed.

Lemma occupied_unique ν t states s :
  at_most_one_at ν t states → s ∈ states → ν (prop_name (s, t)) = true →
  occupied ν t states = s.
Proof.
  intros Hone Hs Hν.
  destruct (occupied_spec ν t states) as [Ho Hoν]; [by exists s |].
  by apply (unique_at ν t states).
Qed.

Lemma run_of_lookup ν nfa input_string t :
  (t ≤ String.length input_string)%nat →
  run_of ν nfa input_string !! t = Some (occupied ν t (NfaSat.states nfa)).
Proof.
  intros Ht. unfold run_of, Py.range.
  by rewrite list_lookup_fmap, lookup_seq_lt by lia.
Qed.

Lemma run_of_lookup_Some ν nfa input_string t s :
  run_of ν nfa input_string !! t = Some s →
  (t ≤ String.length input_string)%nat ∧ s = occupied ν t (NfaSat.states nfa).
Proof.
  intros H.
  assert (Ht : (t < length (run_of ν nfa input_string))%nat)
    by (apply lookup_lt_is_Some; eauto).
  unfold run_of, Py.range in Ht. rewrite length_fmap, length_seq in Ht.
  rewrite run_of_lookup in H by lia. split; [lia | congruence].
Qed.

(** A model of the named formula is a lenient run. *)
Lemma model_run ν nfa input_string :
  NfaSat._validate_structure nfa = true →
  ncnf_true ν (named_cnf nfa input_string) = true →
  run true nfa input_string (run_of ν nfa input_string).
Proof.
  intros Hvalid (Hinit & Htrans & Hone & Hfinal)%named_cnf_true.
  assert (Hocc : ∀ t s, (t ≤ String.length input_string)%nat →
            s ∈ NfaSat.states nfa → ν (prop_name (s, t)) = true →
            occupied ν t (NfaSat.states nfa) = s).
  { intros t s Ht. apply occupied_unique, Hone, Ht. }
  split.
  - unfold run_of, Py.range. by rewrite length_fmap, length_seq.
  - intros s [t Ht]%list_elem_of_lookup.
    apply run_of_lookup_Some in Ht as [Ht ->].
    apply occupied_spec, Hone, Ht.
  - destruct Hinit as [(s & Hs & Hν) _]. exists s. split; [| done].
    rewrite run_of_lookup by lia. f_equal.
    apply Hocc; [lia | by apply valid_initial | done].
  - intros t s s' [Ht ->]%run_of_lookup_Some [HSt ->]%run_of_lookup_Some.
    destruct (occupied_spec ν t (NfaSat.states nfa)) as [Ho Hoν];
      [apply Hone, Ht |].
    destruct (Htrans t _ ltac:(lia) Ho) as [Hnil | [Hf | (s' & Hs' & Hν)]].
    + right. done.
    + congruence.
    + left. rewrite (Hocc (S t) s'); [done | lia | | done].
      by apply (valid_next nfa _ _ _ Hvalid Hs').
  - destruct Hfinal as (s & Hs & Hν). exists s. split; [| done].
    rewrite run_of_lookup by lia. f_equal.
    apply Hocc; [lia | by apply valid_final | done].
Qed.

Lemma model_of_run_true r s t :
  model_of_run r (prop_name (s, t)) = true ↔ r !! t = Some s.
Proof.
  unfold model_of_run, Py.enumerate. rewrite existsb_exists. split.
  - intros ([i x] & Hin & Heq). apply list_elem_of_In in Hin.
    apply elem_of_lookup_imap in Hin as (i' & x' & [= -> ->] & Hl).
    simpl in Heq. apply String.eqb_eq, prop_name_inj in Heq.
    by injection Heq as -> ->.
  - intros Hl. exists (t, s). split; [| by apply String.eqb_eq].
    apply list_elem_of_In, elem_of_lookup_imap. by exists t, s.
Qed.

Lemma at_most_one_at_run r t states :
  NoDup states → at_most_one_at (model_of_run r) t states.
Proof.
  intros Hnd i j s s' Hlt Hi Hj Hs%model_of_run_true Hs'%model_of_run_true.
  assert (s = s') as <- by congruence.
  pose proof (NoDup_lookup _ _ _ _ Hnd Hi Hj). lia.
Qed.

(** A lenient run is a model of the named formula. *)
Lemma run_model nfa input_string r :
  NoDup (NfaSat.states nfa) → NoDup (NfaSat.initial_states nfa) →
  run true nfa input_string r →
  ncnf_true (model_of_run r) (named_cnf nfa input_string) = true.
Proof.
  intros Hnd Hndi [Hlen Hdecl (s0 & Hs0 & Hinit) Hsteps (sn & Hsn & Hfinal)].
  apply named_cnf_true. split; [| split; [| split]].
  - split; [| by apply at_most_one_at_run].
    exists s0. split; [done | by apply model_of_run_true].
  - intros t state Ht Hstate.
    destruct (model_of_run r (prop_name (state, t))) eqn:Hν; [| by right; left].
    apply model_of_run_true in Hν.
    destruct (lookup_lt_is_Some_2 r (S t)) as [s' Hs']; [lia |].
    destruct (Hsteps t state s' Hν Hs') as [Hstep | [_ Hnil]].
    + right; right. exists s'. split; [done | by apply model_of_run_true].
    + by left.
  - intros t Ht. split; [| by apply at_most_one_at_run].
    destruct (lookup_lt_is_Some_2 r t) as [s Hs]; [lia |].
    exists s. split; [| by apply model_of_run_true].
    eapply Hdecl, list_elem_of_lookup_2, Hs.
  - exists sn. split; [done | by apply model_of_run_true].
Qed.

(** The formula the generator stores has a model exactly when the automaton
    has a lenient run on the word. *)
Lemma satisfiable_run nfa input_string :
  NfaSat._validate_structure nfa = true →
  NoDup (NfaSat.states nfa) → NoDup (NfaSat.initial_states nfa) →
  Sat.satisfiable (clauses (NfaSat.generated nfa input_string))
  ↔ ∃ r, run true nfa input_string r.
Proof.
  intros Hvalid Hnd Hndi.
  rewrite (rep_satisfiable _ _ (nfa_generated_rep nfa input_string)). split.
  - intros [ν Hν]. eexists. by apply model_run.
  - intros [r Hr]. eexists. by apply run_model.
Qed.

Lemma dfs_trace nfa input_string s :
  NfaSat.dfs nfa input_string s = true ↔ ∃ rest, trace nfa input_string s rest.
Proof.
  revert s. induction input_string as [| c w IH]; intros s; simpl.
  - rewrite bool_decide_eq_true. split.
    + intros H. by exists [].
    + by intros [[| ? ?] H]; simpl in H.
  - rewrite existsb_exists. split.
    + intros (s' & Hin%list_elem_of_In & [rest Hrest]%IH). by exists (s' :: rest).
    + intros [[| s' rest] H]; [done |]. destruct H as [Hin Hrest].
      exists s'. split; [by apply list_elem_of_In |]. apply IH. by exists rest.
Qed.

Lemma trace_length nfa input_string s rest :
  trace nfa input_string s rest → length rest = String.length input_string.
Proof.
  revert s rest. induction input_string as [| c w IH]; intros s [| s' rest]; simpl;
    try done.
  intros [_ H]. f_equal. by eapply IH.
Qed.

Lemma trace_steps nfa input_string s rest t a b :
  trace nfa input_string s rest →
  (s :: rest) !! t = Some a → (s :: rest) !! S t = Some b →
  b ∈ NfaSat.get_next_states nfa a (Py.getitem input_string t).
Proof.
  revert s rest t. induction input_string as [| c w IH]; intros s [| s' rest] t;
    simpl; try done.
  intros [Hin Hrest]. destruct t as [| t].
  - simpl. by intros [= <-] [= <-].
  - intros Ha Hb. by apply (IH s' rest t).
Qed.

Lemma trace_final nfa input_string s rest :
  trace nfa input_string s rest →
  ∃ f, (s :: rest) !! String.length input_string = Some f
       ∧ f ∈ NfaSat.final_states nfa.
Proof.
  revert s rest. induction input_string as [| c w IH]; intros s [| s' rest]; simpl;
    try done.
  - intros H. by exists s.
  - intros [_ H]. by apply IH.
Qed.

Lemma steps_trace nfa input_string s rest :
  length rest = String.length input_string →
  (∀ t a b, (s :: rest) !! t = Some a → (s :: rest) !! S t = Some b →
     b ∈ NfaSat.get_next_states nfa a (Py.getitem input_string t)) →
  (∃ f, (s :: rest) !! String.length input_string = Some f
        ∧ f ∈ NfaSat.final_states nfa) →
  trace nfa input_string s rest.
Proof.
  revert s rest. induction input_string as [| c w IH]; intros s [| s' rest]; simpl;
    try done.
  - by intros _ _ (f & [= <-] & Hf).
  - intros [= Hlen] Hsteps Hfinal. split.
    + by apply (Hsteps 0%nat s s').
    + apply IH; [done | | done].
      intros t a b Ha Hb. by apply (Hsteps (S t) a b).
Qed.

(** Every successful search of [accepts] is a strict run. *)
Lemma accepts_to_run nfa input_string :
  NfaSat._validate_structure nfa = true →
  NfaSat.accepts nfa input_string = true → ∃ r, run false nfa input_string r.
Proof.
  intros Hvalid. unfold NfaSat.accepts. rewrite existsb_exists.
  intros (s & Hs%list_elem_of_In & [rest Hrest]%dfs_trace).
  exists (s :: rest). split.
  - simpl. f_equal. by eapply trace_length.
  - intros x [i Hi]%list_elem_of_lookup. destruct i as [| i].
    + injection Hi as <-. by apply valid_initial.
    + destruct (lookup_lt_is_Some_2 (s :: rest) i) as [a Ha].
      { apply lookup_lt_Some in Hi. lia. }
      eapply valid_next; [done |].
      eapply (trace_steps _ _ _ _ i a x Hrest Ha Hi).
  - by exists s.
  - intros t a b Ha Hb. left. by eapply trace_steps.
  - by eapply trace_final.
Qed.

(** Every strict run is found by [accepts]. *)
Lemma run_to_accepts nfa input_string r :
  run false nfa input_string r → NfaSat.accepts nfa input_string = true.
Proof.
  intros [Hlen Hdecl (s & Hs & Hinit) Hsteps Hfinal].
  unfold NfaSat.accepts. rewrite existsb_exists.
  destruct r as [| s' rest]; [done |]. injection Hs as ->.
  exists s. split; [by apply list_elem_of_In |].
  apply dfs_trace. exists rest. apply steps_trace; [by injection Hlen | | done].
  intros t a b Ha Hb. by destruct (Hsteps t a b Ha Hb) as [? | [? _]].
Qed.

Lemma run_strict_lenient nfa input_string r :
  run false nfa input_string r → run true nfa input_string r.
Proof.
  intros [Hlen Hdecl Hinit Hsteps Hfinal]. split; try done.
  intros t s s' Hs Hs'. by destruct (Hsteps t s s' Hs Hs') as [? | [? _]]; [left |].
Qed.

Lemma run_lenient_strict nfa input_string r :
  no_dead_end nfa input_string →
  run true nfa input_string r → run false nfa input_string r.
Proof.
  intros Hdead [Hlen Hdecl Hinit Hsteps Hfinal]. split; try done.
  intros t s s' Hs Hs'. destruct (Hsteps t s s' Hs Hs') as [? | [_ Hnil]]; [by left |].
  destruct (Hdead t s); [| by eapply Hdecl, list_elem_of_lookup_2 | done].
  apply lookup_lt_Some in Hs'. lia.
Qed.

(** ** What the generated formula decides *)

(** X1. For a validated automaton whose state list and initial-state list
    have no repetition, the formula [generate_cnf] stores is satisfiable
    exactly when the automaton has a lenient run on the word: a sequence of
    declared states, initial at time 0 and final at the end, that follows a
    transition wherever the current state has one on the current symbol. *)
Theorem nfa_formula_lenient_runs nfa input_string :
  NfaSat._validate_structure nfa = true →
  NoDup (NfaSat.states nfa) → NoDup (NfaSat.initial_states nfa) →
  Sat.satisfiable (clauses (NfaSat.generated nfa input_string))
  ↔ ∃ r, run true nfa input_string r.
Proof.
  intros Hvalid Hnd Hndi.
  rewrite (rep_satisfiable _ _ (nfa_generated_rep nfa input_string)). split.
  - intros [ν Hν]. exists (run_of ν nfa input_string). by apply model_run.
  - intros [r Hr]. exists (model_of_run r). by apply run_model.
Qed.

Lemma nfa_formula_lenient_runs_witness :
  NfaSat._validate_structure example_nfa = true
  ∧ NoDup (NfaSat.states example_nfa)
  ∧ NoDup (NfaSat.initial_states example_nfa)
  ∧ (Sat.satisfiable (clauses (NfaSat.generated example_nfa "ab"))
     ↔ ∃ r, run true example_nfa "ab" r).
Proof.
  assert (H1 : NfaSat._validate_structure example_nfa = true)
    by (vm_compute; reflexivity).
  assert (H2 : NoDup (NfaSat.states example_nfa))
    by (apply (bool_decide_unpack _); vm_compute; exact I).
  assert (H3 : NoDup (NfaSat.initial_states example_nfa))
    by (apply (bool_decide_unpack _); vm_compute; exact I).
  split; [exact H1 |]. split; [exact H2 |]. split; [exact H3 |].
  exact (nfa_formula_lenient_runs example_nfa "ab" H1 H2 H3).
Defined.

(** X2. [accepts] returns [True] exactly when the validated automaton has a
    strict run on the word: every step follows a transition. *)
Theorem accepts_strict_runs nfa input_string :
  NfaSat._validate_structure nfa = true →
  NfaSat.accepts nfa input_string = true ↔ ∃ r, run false nfa input_string r.
Proof.
  intros Hvalid. split.
  - by apply accepts_to_run.
  - intros [r Hr]. by apply (run_to_accepts nfa input_string r).
Qed.

Lemma accepts_strict_runs_witness :
  NfaSat._validate_structure example_nfa = true
  ∧ (NfaSat.accepts example_nfa "ab" = true
     ↔ ∃ r, run false example_nfa "ab" r).
Proof.
  assert (H1 : NfaSat._validate_structure example_nfa = true)
    by (vm_compute; reflexivity).
  split; [exact H1 |].
  exact (accepts_strict_runs example_nfa "ab" H1).
Defined.

(** X3. The encoding is complete: when [accepts] returns [True] on a word,
    the stored formula is satisfiable. *)
Theorem accepted_word_satisfiable nfa input_string :
  NfaSat._validate_structure nfa = true →
  NoDup (NfaSat.states nfa) → NoDup (NfaSat.initial_states nfa) →
  NfaSat.accepts nfa input_string = true →
  Sat.satisfiable (clauses (NfaSat.generated nfa input_string)).
Proof.
  intros Hvalid Hnd Hndi [r Hr]%accepts_to_run; [| done].
  apply satisfiable_run; [done .. |]. exists r. by apply run_strict_lenient.
Qed.

Lemma accepted_word_satisfiable_witness :
  NfaSat._validate_structure example_nfa = true
  ∧ NoDup (NfaSat.states example_nfa)
  ∧ NoDup (NfaSat.initial_states example_nfa)
  ∧ NfaSat.accepts example_nfa "ab" = true
  ∧ Sat.satisfiable (clauses (NfaSat.generated example_nfa "ab")).
Proof.
  assert (H1 : NfaSat._validate_structure example_nfa = true)
    by (vm_compute; reflexivity).
  assert (H2 : NoDup (NfaSat.states example_nfa))
    by (apply (bool_decide_unpack _); vm_compute; exact I).
  assert (H3 : NoDup (NfaSat.initial_states example_nfa))
    by (apply (bool_decide_unpack _); vm_compute; exact I).
  assert (H4 : NfaSat.accepts example_nfa "ab" = true)
    by (vm_compute; reflexivity).
  split; [exact H1 |]. split; [exact H2 |]. split; [exact H3 |].
  split; [exact H4 |].
  exact (accepted_word_satisfiable example_nfa "ab" H1 H2 H3 H4).
Defined.

(** An automaton in which every state has a successor on every symbol. *)
Definition total_nfa : NfaSat.NFA :=
  {| NfaSat.states := ["q0"; "q1"];
     NfaSat.alphabet := ["a"; "b"];
     NfaSat.transitions :=
       {[ "q0" := {[ "a" := ["q0"; "q1"]; "b" := ["q0"] ]};
          "q1" := {[ "a" := ["q1"]; "b" := ["q1"] ]} ]};
     NfaSat.initial_states := ["q0"];
     NfaSat.final_states := ["q1"] |}.

Lemma total_nfa_no_dead_end : no_dead_end total_nfa "ab".
Proof.
  intros t s Ht Hs.
  assert (Hs' : s = "q0" ∨ s = "q1").
  { apply elem_of_cons in Hs as [-> | Hs]; [by left |].
    apply elem_of_cons in Hs as [-> | Hs]; [by right |].
    by apply elem_of_nil in Hs. }
  destruct t as [| [| t]]; [| | simpl in Ht; lia];
    destruct Hs' as [-> | ->]; vm_compute; discriminate.
Qed.

(** X4. When no declared state lacks a successor on a symbol of the word,
    the stored formula is satisfiable exactly when [accepts] returns
    [True]. *)
Theorem no_dead_end_formula_exact nfa input_string :
  NfaSat._validate_structure nfa = true →
  NoDup (NfaSat.states nfa) → NoDup (NfaSat.initial_states nfa) →
  no_dead_end nfa input_string →
  Sat.satisfiable (clauses (NfaSat.generated nfa input_string))
  ↔ NfaSat.accepts nfa input_string = true.
Proof.
  intros Hvalid Hnd Hndi Hdead.
  rewrite satisfiable_run by done. split.
  - intros [r Hr]. apply (run_to_accepts nfa input_string r).
    by apply run_lenient_strict.
  - intros [r Hr]%accepts_to_run; [| done].
    exists r. by apply run_strict_lenient.
Qed.

Lemma no_dead_end_formula_exact_witness :
  NfaSat._validate_structure total_nfa = true
  ∧ NoDup (NfaSat.states total_nfa)
  ∧ NoDup (NfaSat.initial_states total_nfa)
  ∧ no_dead_end total_nfa "ab"
  ∧ (Sat.satisfiable (clauses (NfaSat.generated total_nfa "ab"))
     ↔ NfaSat.accepts total_nfa "ab" = true).
Proof.
  assert (H1 : NfaSat._validate_structure total_nfa = true)
    by (vm_compute; reflexivity).
  assert (H2 : NoDup (NfaSat.states total_nfa))
    by (apply (bool_decide_unpack _); vm_compute; exact I).
  assert (H3 : NoDup (NfaSat.initial_states total_nfa))
    by (apply (bool_decide_unpack _); vm_compute; exact I).
  split; [exact H1 |]. split; [exact H2 |]. split; [exact H3 |].
  split; [exact total_nfa_no_dead_end |].
  exact (no_dead_end_formula_exact total_nfa "ab" H1 H2 H3 total_nfa_no_dead_end).
Defined.

(** ** Symbols outside the alphabet *)

Lemma valid_symbol nfa s symbol :
  NfaSat._validate_structure nfa = true →
  symbol ∉ NfaSat.alphabet nfa → NfaSat.get_next_states nfa s symbol = [].
Proof.
  unfold NfaSat._validate_structure, NfaSat.get_next_states.
  rewrite !andb_true_iff. intros [_ H] Hsym.
  destruct (NfaSat.transitions nfa !! s) as [trans |] eqn:Ht; [| done].
  destruct (trans !! symbol) as [next |] eqn:Hn; [| done]. exfalso.
  apply elem_of_map_to_list in Ht. apply (forallb_elem_of _ _ _ H) in Ht.
  apply andb_true_iff in Ht as [_ Ht].
  apply elem_of_map_to_list in Hn. apply (forallb_elem_of _ _ _ Ht) in Hn.
  apply andb_true_iff in Hn as [Hn _]. by apply bool_decide_eq_true in Hn.
Qed.

Lemma dfs_foreign_symbol nfa input_string s :
  NfaSat._validate_structure nfa = true →
  NfaSat.word_over nfa input_string = false →
  NfaSat.dfs nfa input_string s = false.
Proof.
  intros Hvalid. revert s. induction input_string as [| c w IH]; intros s; [done |].
  simpl. intros [Hc | Hw]%andb_false_iff.
  - apply bool_decide_eq_false in Hc. by rewrite (valid_symbol nfa s _ Hvalid Hc).
  - induction (NfaSat.get_next_states nfa s (String c "")) as [| s' l IHl]; [done |].
    simpl. by rewrite (IH s' Hw), IHl.
Qed.

(** X5. A validated automaton rejects every word that holds a symbol outside
    its alphabet: [accepts] returns [False]. *)
Theorem foreign_symbol_rejected nfa input_string :
  NfaSat._validate_structure nfa = true →
  NfaSat.word_over nfa input_string = false →
  NfaSat.accepts nfa input_string = false.
Proof.
  intros Hvalid Hw. unfold NfaSat.accepts.
  induction (NfaSat.initial_states nfa) as [| s l IH]; [done |].
  simpl. by rewrite (dfs_foreign_symbol nfa input_string s Hvalid Hw), IH.
Qed.

Lemma foreign_symbol_rejected_witness :
  NfaSat._validate_structure example_nfa = true
  ∧ NfaSat.word_over example_nfa "ac" = false
  ∧ NfaSat.accepts example_nfa "ac" = false.
Proof.
  assert (H1 : NfaSat._validate_structure example_nfa = true)
    by (vm_compute; reflexivity).
  assert (H2 : NfaSat.word_over example_nfa "ac" = false)
    by (vm_compute; reflexivity).
  split; [exact H1 |]. split; [exact H2 |].
  exact (foreign_symbol_rejected example_nfa "ac" H1 H2).
Defined.

(** ** The variables of the NFA formula *)

(** The states the generator can meet: the declared ones, the initial and
    final ones, and the targets of transitions. *)
Definition mentioned (nfa : NfaSat.NFA) (s : string) : Prop :=
  s ∈ NfaSat.initial_states nfa ∨ s ∈ NfaSat.states nfa
  ∨ s ∈ NfaSat.final_states nfa
  ∨ ∃ s0 symbol, s ∈ NfaSat.get_next_states nfa s0 symbol.

(** Every interned name is that of a mentioned state at a time up to [n]. *)
Definition nfa_names (nfa : NfaSat.NFA) (n : nat) (g : CNFGenerator) : Prop :=
  ∀ name v, var_map g !! name = Some v →
    ∃ s t, name = prop_name (s, t) ∧ mentioned nfa s ∧ (t ≤ n)%nat.

(** The propositions of the formula: every declared state at every time. *)
Definition all_props (nfa : NfaSat.NFA) (n : nat) : list prop :=
  t ← Py.range (S n); at_time t (NfaSat.states nfa).

Lemma nfa_generate_preserves_mentioned P nfa input_string :
  (∀ state (t : nat), mentioned nfa state → (t ≤ String.length input_string)%nat →
     preserves P (NfaSat.get_var state (Z.of_nat t))) →
  (∀ c, preserves P (add_clause c)) →
  preserves P (NfaSat.generate_cnf nfa input_string).
Proof.
  intros Hget Hadd. unfold NfaSat.generate_cnf.
  apply preserves_bind.
  { apply preserves_mapM. intros s Hs. apply (Hget s 0%nat); [by left | lia]. }
  intros init_state_vars.
  apply preserves_bind; [apply Hadd |]. intros _.
  apply preserves_bind; [by apply preserves_at_most_one |]. intros _.
  apply preserves_bind.
  { apply preserves_for. intros t Ht%elem_of_seq.
    apply preserves_for. intros state Hstate.
    apply preserves_bind.
    { apply Hget; [by right; left | lia]. }
    intros current_var. apply preserves_bind.
    { apply preserves_mapM. intros s Hs.
      replace (Z.of_nat t + 1) with (Z.of_nat (S t)) by lia.
      apply Hget; [| lia]. right; right; right. eauto. }
    intros next_vars.
    destruct next_vars; [apply preserves_ret | apply Hadd]. }
  intros _. apply preserves_bind.
  { apply preserves_for. intros t Ht%elem_of_seq.
    apply preserves_bind.
    { apply preserves_mapM. intros s Hs. apply Hget; [by right; left | lia]. }
    intros state_vars_at_t.
    apply preserves_bind; [apply Hadd |]. intros _.
    by apply preserves_at_most_one. }
  intros _. apply preserves_bind.
  { apply preserves_mapM. intros s Hs. apply Hget; [by right; right; left | lia]. }
  intros final_state_vars. apply Hadd.
Qed.

Lemma nfa_generated_names nfa input_string :
  nfa_names nfa (String.length input_string) (NfaSat.generated nfa input_string).
Proof.
  apply (nfa_generate_preserves_mentioned
           (nfa_names nfa (String.length input_string))).
  - intros state t Hstate Ht g Hg name v. unfold exec, NfaSat.get_var.
    destruct (var_map g !! NfaSat.var_name state (Z.of_nat t)) as [j |] eqn:E.
    + rewrite (intern_known _ _ _ E). apply Hg.
    + rewrite (intern_fresh _ _ E). simpl. rewrite lookup_insert.
      case_decide as Hname; [| apply Hg].
      intros _. exists state, t. by rewrite <- Hname.
  - by intros c g Hg.
  - intros name v. simpl. by rewrite lookup_empty.
Qed.

Lemma valid_mentioned nfa s :
  NfaSat._validate_structure nfa = true → mentioned nfa s → s ∈ NfaSat.states nfa.
Proof.
  intros Hvalid [H | [H | [H | (s0 & symbol & H)]]].
  - by apply valid_initial.
  - done.
  - by apply valid_final.
  - by eapply valid_next.
Qed.

Lemma elem_of_all_props nfa n s t :
  (s, t) ∈ all_props nfa n ↔ s ∈ NfaSat.states nfa ∧ (t ≤ n)%nat.
Proof.
  unfold all_props, at_time, Py.range. rewrite list_elem_of_bind. split.
  - intros (t' & (s' & [= -> ->] & Hs)%list_elem_of_fmap & Ht%elem_of_seq).
    split; [done | lia].
  - intros [Hs Ht]. exists t. split; [| apply elem_of_seq; lia].
    apply list_elem_of_fmap. by exists s.
Qed.

(** Every proposition of the formula is interned. *)
Lemma nfa_generated_interned nfa input_string s t :
  s ∈ NfaSat.states nfa → (t ≤ String.length input_string)%nat →
  is_Some (var_map (NfaSat.generated nfa input_string) !! prop_name (s, t)).
Proof.
  intros Hs Ht.
  destruct (nfa_generated_rep nfa input_string) as [_ Hrep].
  set (nc := at_least_one (at_time t (NfaSat.states nfa))).
  assert (Hnc : nc ∈ named_cnf nfa input_string).
  { unfold named_cnf. rewrite !elem_of_app. right; right; left.
    apply list_elem_of_bind. exists t. split; [by left |].
    apply elem_of_seq. lia. }
  apply list_elem_of_lookup in Hnc as [i Hi].
  destruct (Forall2_lookup_l _ _ _ _ _ Hrep Hi) as (c & _ & Hc).
  assert (Hl : (true, (s, t)) ∈ nc).
  { unfold nc, at_least_one, at_time. rewrite <- list_fmap_compose.
    apply list_elem_of_fmap. by exists s. }
  apply list_elem_of_lookup in Hl as [j Hj].
  destruct (Forall2_lookup_l _ _ _ _ _ Hc Hj) as (l & _ & v & Hv & _).
  by exists v.
Qed.

Lemma NoDup_all_props nfa n : NoDup (NfaSat.states nfa) → NoDup (all_props nfa n).
Proof.
  intros Hnd. unfold all_props, at_time. apply NoDup_bind.
  - intros t1 t2 p _ _ (s1 & -> & _)%list_elem_of_fmap
      (s2 & [= _ ->] & _)%list_elem_of_fmap. done.
  - intros t _. apply NoDup_fmap_2; [| done]. by intros s1 s2 [= ->].
  - apply NoDup_seq.
Qed.

Lemma length_all_props nfa n :
  length (all_props nfa n) = (length (NfaSat.states nfa) * S n)%nat.
Proof.
  unfold all_props, at_time, Py.range. generalize 0%nat.
  induction (S n) as [| m IH]; intros k; simpl; [lia |].
  rewrite length_app, length_fmap, IH. lia.
Qed.

(** X6. For a validated automaton whose state list has no repetition, the
    generator interns exactly one variable per declared state and time
    [0 .. len(input_string)]: [|states| * (len + 1)] variables, numbered
    from 1, and [next_var] stands one past them. *)
Theorem nfa_variable_count nfa input_string :
  NfaSat._validate_structure nfa = true →
  NoDup (NfaSat.states nfa) →
  let g := NfaSat.generated nfa input_string in
  size (var_map g)
  = (length (NfaSat.states nfa) * S (String.length input_string))%nat
  ∧ next_var g
    = Z.of_nat (length (NfaSat.states nfa) * S (String.length input_string)) + 1
  ∧ ∀ name, is_Some (var_map g !! name) ↔
      ∃ s t, name = prop_name (s, t) ∧ s ∈ NfaSat.states nfa
             ∧ (t ≤ String.length input_string)%nat.
Proof.
  intros Hvalid Hnd g.
  assert (Hdom : ∀ name, is_Some (var_map g !! name) ↔
            ∃ s t, name = prop_name (s, t) ∧ s ∈ NfaSat.states nfa
                   ∧ (t ≤ String.length input_string)%nat).
  { intros name. split.
    - intros [v Hv].
      destruct (nfa_generated_names nfa input_string name v Hv)
        as (s & t & -> & Hs & Ht).
      exists s, t. split_and!; [done | by apply valid_mentioned | done].
    - intros (s & t & -> & Hs & Ht). by apply nfa_generated_interned. }
  assert (Hsize : size (var_map g)
            = (length (NfaSat.states nfa) * S (String.length input_string))%nat).
  { rewrite <- (size_dom (D := gset string)).
    rewrite <- length_all_props,
      <- (length_fmap prop_name (all_props nfa (String.length input_string))).
    rewrite <- (size_list_to_set (C := gset string)).
    - f_equal. apply set_eq. intros name.
      rewrite elem_of_dom, elem_of_list_to_set, Hdom, list_elem_of_fmap. split.
      + intros (s & t & -> & Hs & Ht). exists (s, t). split; [done |].
        by apply elem_of_all_props.
      + intros ([s t] & -> & Hp%elem_of_all_props). by exists s, t.
    - apply NoDup_fmap_2_strong; [| by apply NoDup_all_props].
      intros p q _ _. apply prop_name_inj. }
  split; [done |]. split; [| done].
  pose proof (ok_next _ (nfa_generated_ok nfa input_string)) as Hnext.
  fold g in Hnext. by rewrite Hnext, Hsize.
Qed.

Lemma nfa_variable_count_witness :
  NfaSat._validate_structure example_nfa = true
  ∧ NoDup (NfaSat.states example_nfa)
  ∧ size (var_map (NfaSat.generated example_nfa "ab")) = 6%nat.
Proof.
  assert (H1 : NfaSat._validate_structure example_nfa = true)
    by (vm_compute; reflexivity).
  assert (H2 : NoDup (NfaSat.states example_nfa))
    by (apply (bool_decide_unpack _); vm_compute; exact I).
  split; [exact H1 |]. split; [exact H2 |].
  exact (proj1 (nfa_variable_count example_nfa "ab" H1 H2)).
Defined.

(** ** Decoding a model of the NFA formula *)

Lemma split_append sep a b :
  Py.split sep (a +:+ String sep b) = Py.split sep a ++ Py.split sep b.
Proof.
  induction a as [| c a IH].
  - rewrite append_nil_l. cbn. by rewrite Ascii.eqb_refl.
  - rewrite append_cons. cbn. rewrite IH.
    destruct (Ascii.eqb c sep); [done |].
    pose proof (split_nonempty sep a) as Hne.
    by destruct (Py.split sep a).
Qed.

Lemma split_not_free sep s :
  free_of sep s = false → (2 ≤ length (Py.split sep s))%nat.
Proof.
  induction s as [| c s IH]; [done |]. cbn.
  destruct (Ascii.eqb c sep) eqn:Hc; simpl.
  - intros _. pose proof (split_nonempty sep s).
    destruct (Py.split sep s); simpl; [done | lia].
  - intros Hs. specialize (IH Hs).
    destruct (Py.split sep s); simpl in *; lia.
Qed.

Lemma str_free_of_underscore z : free_of "_" (Py.str z) = true.
Proof. apply numeral_free_of; [done | apply str_chars]. Qed.

Lemma split_prop_name s t :
  Py.split "_" (prop_name (s, t)) = Py.split "_" s ++ [Py.str (Z.of_nat t)].
Proof.
  unfold prop_name, NfaSat.var_name. simpl.
  change ("_" +:+ ?d) with (String "_" d).
  by rewrite split_append, (split_free _ _ (str_free_of_underscore _)).
Qed.

(** One step of the loop of [_extract_path] on the name of a state free of
    underscores at time [t]: the entry [t -> state] is stored. *)
Lemma fill_step vm v s t rest m :
  vm !! v = Some (prop_name (s, t)) → free_of "_" s = true →
  NfaSat.fill_time_state_map vm (v :: rest) m
  = NfaSat.fill_time_state_map vm rest (<[Z.of_nat t := s]> m).
Proof.
  intros Hv Hs. simpl. unfold dict_get. rewrite Hv. simpl.
  rewrite split_prop_name, (split_free _ _ Hs). cbn [app].
  by rewrite int_str.
Qed.

(** On the name of a state that holds an underscore the unpacking fails. *)
Lemma fill_step_raises vm v s t rest m :
  vm !! v = Some (prop_name (s, t)) → free_of "_" s = false →
  NfaSat.fill_time_state_map vm (v :: rest) m = Raise (ValueError "unpack").
Proof.
  intros Hv Hs. simpl. unfold dict_get. rewrite Hv. simpl.
  rewrite split_prop_name. apply split_not_free in Hs.
  destruct (Py.split "_" s) as [| p1 [| p2 [| p3 ps]]]; simpl in *; try lia; done.
Qed.

(** The loop over variables that all stand for [st t] at some [t]. *)
Lemma fill_decodes vm (st : nat → string) order m :
  (∀ v, v ∈ order →
     ∃ t, vm !! v = Some (prop_name (st t, t)) ∧ free_of "_" (st t) = true) →
  (∀ z s, m !! z = Some s → ∃ t, z = Z.of_nat t ∧ s = st t) →
  ∃ m', NfaSat.fill_time_state_map vm order m = Ok m'
        ∧ (∀ z s, m' !! z = Some s → ∃ t, z = Z.of_nat t ∧ s = st t)
        ∧ (∀ z, is_Some (m' !! z) ↔
             is_Some (m !! z)
             ∨ ∃ v t, v ∈ order ∧ vm !! v = Some (prop_name (st t, t))
                      ∧ z = Z.of_nat t).
Proof.
  revert m. induction order as [| v rest IH]; intros m Hord Hm.
  - exists m. split_and!; [done | done |]. intros z. split; [by left |].
    intros [H | (v & t & Hv%elem_of_nil & _)]; done.
  - destruct (Hord v) as (t & Hv & Hfree); [by left |].
    rewrite (fill_step _ _ _ _ _ _ Hv Hfree).
    destruct (IH (<[Z.of_nat t := st t]> m)) as (m' & E & Hm' & Hdom).
    + intros v' Hv'. apply Hord. by right.
    + intros z s. rewrite lookup_insert. case_decide as Hz.
      * intros [= <-]. by exists t.
      * apply Hm.
    + exists m'. split_and!; [done | done |]. intros z. rewrite Hdom.
      rewrite lookup_insert. split.
      * intros [H | (v' & t' & Hv' & Hlook & ->)].
        -- case_decide as Hz; [| by left].
           right. exists v, t. split_and!; [by left | done | done].
        -- right. exists v', t'. split_and!; [by right | done | done].
      * intros [H | (v' & t' & [-> | Hv']%elem_of_cons & Hlook & ->)].
        -- left. case_decide; [by eexists | done].
        -- left. rewrite Hv in Hlook. injection Hlook as Heq.
           apply prop_name_inj in Heq. injection Heq as _ ->.
           rewrite decide_True by done. by eexists.
        -- right. by exists v', t'.
Qed.

(** The loop raises as soon as one of the variables stands for a state whose
    name holds an underscore. *)
Lemma fill_raises vm order m v s t :
  (∀ v', v' ∈ order → ∃ s' t', vm !! v' = Some (prop_name (s', t'))) →
  v ∈ order → vm !! v = Some (prop_name (s, t)) → free_of "_" s = false →
  NfaSat.fill_time_state_map vm order m = Raise (ValueError "unpack").
Proof.
  revert m. induction order as [| v0 rest IH]; intros m Hord Hin Hv Hs.
  { by apply elem_of_nil in Hin. }
  destruct (Hord v0) as (s0 & t0 & Hv0); [by left |].
  destruct (free_of "_" s0) eqn:Hs0.
  - rewrite (fill_step _ _ _ _ _ _ Hv0 Hs0). apply IH; [| | done | done].
    + intros v' Hv'. apply Hord. by right.
    + apply elem_of_cons in Hin as [-> | Hin]; [| done].
      rewrite Hv in Hv0. injection Hv0 as Heq. apply prop_name_inj in Heq.
      injection Heq as -> _. congruence.
  - by apply (fill_step_raises _ _ s0 t0).
Qed.

Lemma result_mapM_ok {A B} (f : A → result B) (h : A → B) (l : list A) :
  (∀ x, x ∈ l → f x = Ok (h x)) → mapM f l = Ok (h <$> l).
Proof.
  induction l as [| x l IH]; intros Hf; [done |].
  rewrite result_mapM_cons, (Hf x) by (by left). simpl.
  rewrite IH; [done |]. intros y Hy. apply Hf. by right.
Qed.

(** The path read off a map whose keys are the times [0 .. n]. *)
Lemma path_of_times (st : nat → string) (n : nat) (m : gmap Z string) :
  (∀ z s, m !! z = Some s → ∃ t, z = Z.of_nat t ∧ s = st t) →
  (∀ z, is_Some (m !! z) ↔ ∃ t, (t ≤ n)%nat ∧ z = Z.of_nat t) →
  NfaSat.path_of m = Ok (st <$> Py.range (S n)).
Proof.
  intros Hm Hdom.
  assert (Hsize : size m = S n).
  { rewrite <- (size_dom (D := gset Z)).
    assert (Hlen : length (Z.of_nat <$> seq 0 (S n)) = S n)
      by (rewrite length_fmap; apply length_seq).
    rewrite <- Hlen.
    rewrite <- (size_list_to_set (C := gset Z)).
    - f_equal. apply set_eq. intros z.
      rewrite elem_of_dom, elem_of_list_to_set, Hdom, list_elem_of_fmap. split.
      + intros (t & Ht & ->). exists t. split; [done |]. apply elem_of_seq. lia.
      + intros (t & -> & Ht%elem_of_seq). exists t. split; [lia | done].
    - apply NoDup_fmap_2; [apply Nat2Z.inj' | apply NoDup_seq]. }
  unfold NfaSat.path_of. rewrite Hsize. apply result_mapM_ok.
  intros t Ht%elem_of_seq. unfold dict_get.
  destruct (proj2 (Hdom (Z.of_nat t))) as [s Hs]; [exists t; split; [lia | done] |].
  rewrite Hs. destruct (Hm _ _ Hs) as (t' & Ht' & ->).
  by apply Nat2Z.inj in Ht' as <-.
Qed.

(** The true variables of a model: those the model lists positively. *)
Definition true_vars (model : list Z) : list Z :=
  remove_dups (filter (λ lit, 0 < lit) model).

Lemma elem_of_true_vars g a v :
  interner_ok g →
  v ∈ true_vars (Sat.model_of a (size (var_map g))) ↔
  ∃ name, var_map g !! name = Some v ∧ a v = true.
Proof.
  intros Hok. unfold true_vars.
  rewrite elem_of_remove_dups, list_elem_of_filter.
  rewrite (and_comm (0 < v)), model_of_positive. split.
  - intros [Hr Ha]. destruct (ok_surj _ Hok v) as [name Hname].
    { rewrite (ok_next _ Hok). lia. }
    by exists name.
  - intros (name & Hname & Ha). split; [| done].
    apply (ok_range _ Hok) in Hname. rewrite (ok_next _ Hok) in Hname. lia.
Qed.

Lemma names_of_true g a name :
  names_of g a name = true ↔ ∃ v, var_map g !! name = Some v ∧ a v = true.
Proof.
  unfold names_of. destruct (var_map g !! name) as [v |].
  - split; [by exists v | by intros (v' & [= <-] & ?)].
  - split; [done | by intros (v' & ? & ?)].
Qed.

Section Decoding.
Context (nfa : NfaSat.NFA) (input_string : string) (a : Z → bool).
Let g := NfaSat.generated nfa input_string.
Let ν := names_of g a.
Let model := Sat.model_of a (size (var_map g)).

(** The true variables of a model of the formula are those of the run it
    describes. *)
Lemma true_vars_run :
  NfaSat._validate_structure nfa = true →
  Sat.cnf_true a (clauses g) = true →
  (∀ v, v ∈ true_vars model →
     ∃ t, (t ≤ String.length input_string)%nat
          ∧ get_var_mapping g !! v
            = Some (prop_name (occupied ν t (NfaSat.states nfa), t)))
  ∧ (∀ t, (t ≤ String.length input_string)%nat →
       ∃ v, v ∈ true_vars model
            ∧ get_var_mapping g !! v
              = Some (prop_name (occupied ν t (NfaSat.states nfa), t))).
Proof.
  intros Hvalid Hsat.
  assert (Hok : interner_ok g) by apply nfa_generated_ok.
  assert (Hν : ncnf_true ν (named_cnf nfa input_string) = true).
  { unfold ν. by rewrite (rep_cnf_true _ g a (nfa_generated_rep nfa input_string)). }
  apply named_cnf_true in Hν as (_ & _ & Hone & _).
  split.
  - intros v (name & Hname & Ha)%(elem_of_true_vars g a v Hok).
    destruct (nfa_generated_names nfa input_string name v Hname)
      as (s & t & -> & Hs%(valid_mentioned nfa s Hvalid) & Ht).
    exists t. split; [done |].
    apply (get_var_mapping_lookup g v _ Hok).
    rewrite (occupied_unique ν t (NfaSat.states nfa) s); [done | | done |].
    + apply Hone, Ht.
    + apply names_of_true. by exists v.
  - intros t Ht.
    destruct (occupied_spec ν t (NfaSat.states nfa)) as [_ Htrue];
      [apply Hone, Ht |].
    apply names_of_true in Htrue as (v & Hv & Ha).
    exists v. split.
    + apply (elem_of_true_vars g a v Hok). eauto.
    + by apply (get_var_mapping_lookup g v _ Hok).
Qed.

Lemma extract_path_in_run order :
  NfaSat._validate_structure nfa = true →
  Forall (λ s, free_of "_" s = true) (NfaSat.states nfa) →
  Sat.cnf_true a (clauses g) = true →
  order ≡ₚ true_vars model →
  NfaSat.extract_path_in (get_var_mapping g) order
  = Ok (run_of ν nfa input_string).
Proof.
  intros Hvalid Hfree Hsat Hperm.
  destruct (true_vars_run Hvalid Hsat) as [Hvars Htimes].
  assert (Hν : ncnf_true ν (named_cnf nfa input_string) = true).
  { unfold ν. by rewrite (rep_cnf_true _ g a (nfa_generated_rep nfa input_string)). }
  apply named_cnf_true in Hν as (_ & _ & Hone & _).
  set (st := λ t, occupied ν t (NfaSat.states nfa)).
  unfold NfaSat.extract_path_in.
  destruct (fill_decodes (get_var_mapping g) st order ∅) as (m & E & Hm & Hdom).
  - intros v Hv. rewrite Hperm in Hv.
    destruct (Hvars v Hv) as (t & Ht & Hlook). exists t. split; [done |].
    apply (proj1 (Forall_forall _ _) Hfree).
    apply occupied_spec, Hone, Ht.
  - intros z s. by rewrite lookup_empty.
  - rewrite E. simpl. unfold run_of.
    apply (path_of_times st); [done |]. intros z. rewrite Hdom. split.
    + intros [[s Hs] | (v & t & Hv & Hlook & ->)].
      { by rewrite lookup_empty in Hs. }
      rewrite Hperm in Hv. destruct (Hvars v Hv) as (t' & Ht' & Hlook').
      rewrite Hlook in Hlook'. injection Hlook' as Heq.
      apply prop_name_inj in Heq. injection Heq as _ ->. by exists t'.
    + intros (t & Ht & ->). right.
      destruct (Htimes t Ht) as (v & Hv & Hlook).
      exists v, t. by rewrite Hperm.
Qed.

End Decoding.

(** X7. For a validated automaton whose state names hold no underscore,
    [_extract_path] decodes every model of the generated formula, in
    whatever order the set of true variables is iterated, to one path: a
    lenient run of the automaton on the word, which is a run accepted by
    [accepts] when no declared state lacks a successor. *)
Theorem extract_path_decodes_run nfa input_string (a : Z → bool) :
  NfaSat._validate_structure nfa = true →
  Forall (λ s, free_of "_" s = true) (NfaSat.states nfa) →
  let g := NfaSat.generated nfa input_string in
  let model := Sat.model_of a (size (var_map g)) in
  Sat.cnf_true a (clauses g) = true →
  ∃ path,
    NfaSat._extract_path (get_var_mapping g) model = Ok path
    ∧ (∀ order, order ≡ₚ true_vars model →
         NfaSat.extract_path_in (get_var_mapping g) order = Ok path)
    ∧ run true nfa input_string path
    ∧ (no_dead_end nfa input_string →
       run false nfa input_string path
       ∧ NfaSat.accepts nfa input_string = true).
Proof.
  intros Hvalid Hfree g model Hsat.
  exists (run_of (names_of g a) nfa input_string).
  assert (Hrun : run true nfa input_string (run_of (names_of g a) nfa input_string)).
  { apply model_run; [done |].
    by rewrite (rep_cnf_true _ g a (nfa_generated_rep nfa input_string)). }
  split_and!.
  - by apply (extract_path_in_run nfa input_string a).
  - intros order Hperm. by apply (extract_path_in_run nfa input_string a).
  - done.
  - intros Hdead. apply (run_lenient_strict _ _ _ Hdead) in Hrun.
    split; [done |]. by eapply run_to_accepts.
Qed.

Lemma extract_path_decodes_run_witness :
  let g := NfaSat.generated example_nfa "ab" in
  let a := λ v, (v =? 1) || (v =? 3) || (v =? 5) in
  Sat.cnf_true a (clauses g) = true
  ∧ ∃ path,
      NfaSat._extract_path (get_var_mapping g)
        (Sat.model_of a (size (var_map g))) = Ok path
      ∧ run true example_nfa "ab" path.
Proof.
  intros g a.
  assert (H1 : NfaSat._validate_structure example_nfa = true)
    by (vm_compute; reflexivity).
  assert (H2 : Forall (λ s, free_of "_" s = true) (NfaSat.states example_nfa))
    by (repeat constructor).
  assert (H3 : Sat.cnf_true a (clauses g) = true)
    by (vm_compute; reflexivity).
  split; [exact H3 |].
  destruct (extract_path_decodes_run example_nfa "ab" a H1 H2 H3)
    as (path & Hpath & _ & Hrun & _).
  exists path. split; [exact Hpath | exact Hrun].
Defined.

(** X8. When an assignment makes true the variable of a state whose name
    holds an underscore, [_extract_path] raises [ValueError]: the name
    [state_time] splits into more than two pieces, whatever the order in
    which the true variables are iterated. *)
Theorem extract_path_underscore_raises nfa input_string (a : Z → bool) s t :
  let g := NfaSat.generated nfa input_string in
  let model := Sat.model_of a (size (var_map g)) in
  free_of "_" s = false →
  names_of g a (prop_name (s, t)) = true →
  NfaSat._extract_path (get_var_mapping g) model = Raise (ValueError "unpack")
  ∧ ∀ order, order ≡ₚ true_vars model →
      NfaSat.extract_path_in (get_var_mapping g) order
      = Raise (ValueError "unpack").
Proof.
  intros g model Hs (v & Hv & Ha)%names_of_true.
  assert (Hok : interner_ok g) by apply nfa_generated_ok.
  assert (Hall : ∀ order, order ≡ₚ true_vars model →
            NfaSat.extract_path_in (get_var_mapping g) order
            = Raise (ValueError "unpack")).
  { intros order Hperm. unfold NfaSat.extract_path_in.
    rewrite (fill_raises (get_var_mapping g) order ∅ v s t); [done | | | | done].
    - intros v' Hv'. rewrite Hperm in Hv'.
      apply (elem_of_true_vars g a v' Hok) in Hv' as (name & Hname & _).
      destruct (nfa_generated_names nfa input_string name v' Hname)
        as (s' & t' & -> & _).
      exists s', t'. by apply (get_var_mapping_lookup g v' _ Hok).
    - rewrite Hperm. apply (elem_of_true_vars g a v Hok). eauto.
    - by apply (get_var_mapping_lookup g v _ Hok). }
  split; [| done]. by apply Hall.
Qed.

(** A single state, initial and final, whose name holds an underscore. *)
Definition underscore_nfa : NfaSat.NFA :=
  {| NfaSat.states := ["q_0"];
     NfaSat.alphabet := ["a"];
     NfaSat.transitions := ∅;
     NfaSat.initial_states := ["q_0"];
     NfaSat.final_states := ["q_0"] |}.

Lemma extract_path_underscore_raises_witness :
  let g := NfaSat.generated underscore_nfa "" in
  NfaSat._validate_structure underscore_nfa = true
  ∧ Sat.cnf_true (λ _, true) (clauses g) = true
  ∧ NfaSat._extract_path (get_var_mapping g)
      (Sat.model_of (λ _, true) (size (var_map g)))
    = Raise (ValueError "unpack").
Proof.
  intros g.
  assert (H1 : free_of "_" "q_0" = false) by (vm_compute; reflexivity).
  assert (H2 : names_of g (λ _, true) (prop_name ("q_0", 0%nat)) = true)
    by (vm_compute; reflexivity).
  split; [by vm_compute |]. split; [by vm_compute |].
  exact (proj1 (extract_path_underscore_raises underscore_nfa "" (λ _, true)
                  "q_0" 0%nat H1 H2)).
Defined.

(** ** Covers and models of the set-cover formula *)

(** The name of the capability variable of a teacher and a subject. *)
Definition capability_name (teacher : Teacher) (subject : string) : string :=
  "y_" +:+ Teacher.name teacher +:+ "_" +:+ subject.

(** The capability names of the pairs the instance allows. *)
Definition capable_names (problem : SetCoverSat.TeacherSubjectSetCover)
  : list string :=
  teacher ← SetCoverSat.teachers problem;
  subject ← SetCoverSat.subjects problem;
  if SetCoverSat.can_teach teacher subject
  then [capability_name teacher subject] else [].

(** The valuation of the names that selects the teachers named in [chosen]
    and states the capabilities of the instance. *)
Definition cover_valuation (problem : SetCoverSat.TeacherSubjectSetCover)
    (chosen : list string) (name : string) : bool :=
  bool_decide (name ∈ String.app "x_" <$> chosen)
  || bool_decide (name ∈ capable_names problem).

(** [chosen] names [k] teachers of the instance that between them teach
    every required subject. *)
Record exact_cover (problem : SetCoverSat.TeacherSubjectSetCover)
    (chosen : list string) : Prop := mk_cover {
  cover_NoDup : NoDup chosen;
  cover_size : Z.of_nat (length chosen) = SetCoverSat.k problem;
  cover_teachers : ∀ name, name ∈ chosen →
    ∃ teacher, teacher ∈ SetCoverSat.teachers problem
               ∧ Teacher.name teacher = name;
  cover_subjects : ∀ subject, subject ∈ SetCoverSat.subjects problem →
    ∃ teacher, teacher ∈ SetCoverSat.teachers problem
               ∧ Teacher.name teacher ∈ chosen
               ∧ SetCoverSat.can_teach teacher subject = true
}.

(** A discipline on clauses: every stored clause is [good] for the names
    interned so far. *)
Definition all_good (good : gmap string Z → list Z → Prop) (g : CNFGenerator)
  : Prop :=
  interner_ok g ∧ ∀ c, c ∈ clauses g → good (var_map g) c.

(** [v] is the index of the select variable of [t]. *)
Definition selects (vm : gmap string Z) (t : Teacher) (v : Z) : Prop :=
  vm !! select_name t = Some v ∧ 1 ≤ v.

Lemma hoare_for_inv {A} (I : CNFGenerator → Prop) (l : list A) (body : A → M ()) :
  (∀ x, x ∈ l → hoare I (body x) (λ _, I)) → hoare I (for_ l body) (λ _, I).
Proof.
  intros Hbody. apply (hoare_for (λ _, I)). intros done x rest ->.
  apply Hbody. apply elem_of_app. right. by left.
Qed.

Lemma hoare_combinations_of {A} (P : CNFGenerator → Prop) (l : list A) r :
  0 ≤ r →
  hoare P (SetCoverSat.combinations_of l r)
    (λ subsets g, subsets = Py.combinations l (Z.to_nat r) ∧ P g).
Proof.
  intros Hr g Hg. exists (Py.combinations l (Z.to_nat r)), g.
  split; [by apply combinations_of_ok |]. done.
Qed.

Section Discipline.
Context (good : gmap string Z → list Z → Prop).
Hypothesis good_mono : ∀ vm vm' c, vm ⊆ vm' → good vm c → good vm' c.

Lemma all_good_intern name :
  hoare (all_good good) (intern name)
    (λ v g, all_good good g ∧ var_map g !! name = Some v ∧ 1 ≤ v).
Proof.
  intros g [Hok Hg]. destruct (intern_lookup name g) as (i & E & Hi & Hsub & Hcl).
  pose proof (interner_ok_intern name g Hok) as Hok'.
  exists i, (exec (intern name) g).
  split; [done |]. split; [done |]. split; [split; [done |] | split; [done |]].
  - intros c Hc. rewrite Hcl in Hc. eapply good_mono; [done | by apply Hg].
  - apply (ok_range _ Hok') in Hi. lia.
Qed.

Lemma all_good_add_clause c :
  hoare (λ g, all_good good g ∧ good (var_map g) c) (add_clause c)
    (λ _, all_good good).
Proof.
  intros g [[Hok Hg] Hc]. exists (), (exec (add_clause c) g).
  split; [reflexivity |]. split; [reflexivity |].
  split; [by apply interner_ok_add_clause |].
  intros c' [Hc' | ->%list_elem_of_singleton]%elem_of_app; [by apply Hg | done].
Qed.

Lemma stable_selects t v : stable (λ g, selects (var_map g) t v).
Proof. intros g g' [Hv Hpos] Hsub. split; [by eapply lookup_weaken | done]. Qed.

Lemma all_good_get_select teacher :
  hoare (all_good good) (SetCoverSat.get_var "x" [Teacher.name teacher])
    (λ v g, all_good good g ∧ selects (var_map g) teacher v).
Proof.
  change (SetCoverSat.get_var "x" [Teacher.name teacher])
    with (intern (select_name teacher)).
  apply all_good_intern.
Qed.

(** A positive clause over the select variables of [ts]. *)
Lemma all_good_positive (ts : list Teacher) :
  (∀ vm vars, Forall2 (selects vm) ts vars → good vm vars) →
  hoare (all_good good)
    (clause ← mapM (λ teacher, SetCoverSat.get_var "x" [Teacher.name teacher]) ts;
     add_clause clause)
    (λ _, all_good good).
Proof.
  intros Hgood. eapply hoare_bind.
  - apply (hoare_mapM (all_good good) (λ t v g, selects (var_map g) t v)).
    + apply stable_selects.
    + intros t _. apply all_good_get_select.
  - intros vars. eapply hoare_weaken;
      [apply all_good_add_clause | | intros [] g Hg; exact Hg].
    intros g [Hg Hvars]. split; [done |]. by apply Hgood.
Qed.

(** A negative clause over the select variables of [ts]. *)
Lemma all_good_negative (ts : list Teacher) :
  (∀ vm vars, Forall2 (selects vm) ts vars → good vm (Z.opp <$> vars)) →
  hoare (all_good good)
    (clause ← mapM (λ teacher,
                 v ← SetCoverSat.get_var "x" [Teacher.name teacher]; mret (- v)) ts;
     add_clause clause)
    (λ _, all_good good).
Proof.
  intros Hgood. eapply hoare_bind.
  - apply (hoare_mapM (all_good good) (λ t l g, selects (var_map g) t (- l))).
    + intros t l. apply stable_selects.
    + intros t _. eapply hoare_bind; [apply all_good_get_select |].
      intros v. apply hoare_ret. intros g [Hg Hv]. split; [done |].
      by rewrite Z.opp_involutive.
  - intros lits. eapply hoare_weaken;
      [apply all_good_add_clause | | intros [] g Hg; exact Hg].
    intros g [Hg Hlits]. split; [done |].
    rewrite <- (opp_opp_list lits). apply Hgood.
    apply Forall2_fmap_r. eapply Forall2_impl; [apply Hlits |]. done.
Qed.

Context (problem : SetCoverSat.TeacherSubjectSetCover).

Hypothesis Hcapability : ∀ teacher subject vm v,
  teacher ∈ SetCoverSat.teachers problem →
  subject ∈ SetCoverSat.subjects problem →
  vm !! capability_name teacher subject = Some v → 1 ≤ v →
  good vm [if SetCoverSat.can_teach teacher subject then v else - v].
Hypothesis Hcoverage : ∀ subject vm vars,
  subject ∈ SetCoverSat.subjects problem →
  Forall2 (selects vm)
    (filter (λ teacher, SetCoverSat.can_teach teacher subject = true)
       (SetCoverSat.teachers problem)) vars →
  good vm vars.
Hypothesis Hk : 0 ≤ SetCoverSat.k problem + 1.
Hypothesis Hn :
  0 ≤ Z.of_nat (length (SetCoverSat.teachers problem)) - SetCoverSat.k problem + 1.
Hypothesis Hmost : ∀ subset vm vars,
  subset ∈ Py.combinations (SetCoverSat.teachers problem)
             (Z.to_nat (SetCoverSat.k problem + 1)) →
  Forall2 (selects vm) subset vars → good vm (Z.opp <$> vars).
Hypothesis Hleast : ∀ subset vm vars,
  subset ∈ Py.combinations (SetCoverSat.teachers problem)
             (Z.to_nat (Z.of_nat (length (SetCoverSat.teachers problem))
                        - SetCoverSat.k problem + 1)) →
  Forall2 (selects vm) subset vars → good vm vars.

Lemma all_good_capability :
  hoare (all_good good) (SetCoverSat.capability_clauses problem)
    (λ _, all_good good).
Proof.
  apply hoare_for_inv. intros teacher Ht.
  apply hoare_for_inv. intros subject Hs.
  change (SetCoverSat.get_var "y" [Teacher.name teacher; subject])
    with (intern (capability_name teacher subject)).
  eapply hoare_bind; [apply all_good_intern |]. intros y_ij.
  assert (Hadd : hoare
            (λ g, all_good good g
                  ∧ var_map g !! capability_name teacher subject = Some y_ij
                  ∧ 1 ≤ y_ij)
            (add_clause [if SetCoverSat.can_teach teacher subject
                         then y_ij else - y_ij]) (λ _, all_good good)).
  { eapply hoare_weaken;
      [apply all_good_add_clause | | intros [] g Hg; exact Hg].
    intros g (Hg & Hv & Hpos). split; [done |]. by apply Hcapability. }
  by destruct (SetCoverSat.can_teach teacher subject).
Qed.

Lemma all_good_coverage :
  hoare (all_good good) (SetCoverSat.coverage_clauses problem)
    (λ _, all_good good).
Proof.
  apply hoare_for_inv. intros subject Hs. apply all_good_positive.
  intros vm vars. by apply Hcoverage.
Qed.

Lemma all_good_cardinality :
  hoare (all_good good) (SetCoverSat.cardinality_clauses problem)
    (λ _, all_good good).
Proof.
  unfold SetCoverSat.cardinality_clauses.
  eapply hoare_bind; [by apply hoare_combinations_of |]. intros subsets.
  apply (hoare_pure (subsets = _)). intros ->.
  eapply hoare_bind.
  { apply hoare_for_inv. intros subset Hsubset. apply all_good_negative.
    intros vm vars. by apply Hmost. }
  intros [].
  eapply hoare_bind; [by apply hoare_combinations_of |]. intros subsets.
  apply (hoare_pure (subsets = _)). intros ->.
  apply hoare_for_inv. intros subset Hsubset. apply all_good_positive.
  intros vm vars. by apply Hleast.
Qed.

Lemma all_good_generate :
  hoare (all_good good) (SetCoverSat.generate_cnf problem) (λ _, all_good good).
Proof.
  unfold SetCoverSat.generate_cnf.
  eapply hoare_bind; [apply all_good_capability |]. intros [].
  eapply hoare_bind; [apply all_good_coverage |]. intros [].
  apply all_good_cardinality.
Qed.

Lemma all_good_generated :
  SetCoverSat.generate_outcome problem = Ok ()
  ∧ all_good good (SetCoverSat.generated problem).
Proof.
  destruct (hoare_exec _ _ _ init all_good_generate) as ([] & E & _ & Hgood).
  { split; [apply interner_ok_init |]. intros c Hc. by apply elem_of_nil in Hc. }
  split; [| done]. unfold SetCoverSat.generate_outcome, outcome. by rewrite E.
Qed.

End Discipline.

(** The literal over the variable of [name] that [ν] makes true. *)
Definition lit_holds (ν : string → bool) (vm : gmap string Z) (l : Z) : Prop :=
  ∃ name v, vm !! name = Some v ∧ l = if ν name then v else - v.

(** A clause with a literal that [ν] makes true. *)
Definition holds (ν : string → bool) (vm : gmap string Z) (c : list Z) : Prop :=
  ∃ l, l ∈ c ∧ lit_holds ν vm l.

Lemma holds_mono ν vm vm' c : vm ⊆ vm' → holds ν vm c → holds ν vm' c.
Proof.
  intros Hsub (l & Hl & name & v & Hv & Heq). exists l. split; [done |].
  exists name, v. split; [by eapply lookup_weaken | done].
Qed.

Lemma holds_cnf_true ν g :
  all_good (holds ν) g → Sat.cnf_true (indices_of g ν) (clauses g) = true.
Proof.
  intros [Hok Hg]. unfold Sat.cnf_true. apply forallb_forall.
  intros c Hc%list_elem_of_In.
  destruct (Hg c Hc) as (l & Hl & name & v & Hv & ->).
  apply clause_true_elem. eexists. split; [done |].
  pose proof (ok_range _ Hok _ _ Hv) as Hr.
  assert (Hν : indices_of g ν v = ν name).
  { unfold indices_of.
    by rewrite (proj2 (get_var_mapping_lookup g v name Hok) Hv). }
  destruct (ν name) eqn:E.
  - rewrite lit_true_pos by lia. by rewrite Hν.
  - rewrite lit_true_neg by lia. by rewrite Hν.
Qed.

(** A positive clause over teachers one of whom [ν] selects holds, and so
    does a negative clause over teachers one of whom [ν] leaves out. *)
Lemma holds_positive ν vm (ts : list Teacher) vars :
  (∃ t, t ∈ ts ∧ ν (select_name t) = true) →
  Forall2 (selects vm) ts vars → holds ν vm vars.
Proof.
  intros (t & [i Hi]%list_elem_of_lookup & Hν) Hvars.
  destruct (Forall2_lookup_l _ _ _ _ _ Hvars Hi) as (v & Hv & Hlook & _).
  exists v. split; [by eapply list_elem_of_lookup_2 |].
  exists (select_name t), v. by rewrite Hν.
Qed.

Lemma holds_negative ν vm (ts : list Teacher) vars :
  (∃ t, t ∈ ts ∧ ν (select_name t) = false) →
  Forall2 (selects vm) ts vars → holds ν vm (Z.opp <$> vars).
Proof.
  intros (t & [i Hi]%list_elem_of_lookup & Hν) Hvars.
  destruct (Forall2_lookup_l _ _ _ _ _ Hvars Hi) as (v & Hv & Hlook & _).
  exists (- v). split.
  - apply list_elem_of_fmap. exists v. split; [done |].
    by eapply list_elem_of_lookup_2.
  - exists (select_name t), v. by rewrite Hν.
Qed.

(** ** Names of the set-cover variables *)

Lemma teacher_by_name (teachers : list Teacher) t t' :
  NoDup (Teacher.name <$> teachers) → t ∈ teachers → t' ∈ teachers →
  Teacher.name t = Teacher.name t' → t = t'.
Proof.
  intros Hnd [i Hi]%list_elem_of_lookup [j Hj]%list_elem_of_lookup Hname.
  assert (i = j) as ->.
  { apply (NoDup_lookup _ i j (Teacher.name t) Hnd).
    - by rewrite list_lookup_fmap, Hi.
    - by rewrite list_lookup_fmap, Hj, Hname. }
  congruence.
Qed.

Lemma select_name_chosen (chosen : list string) name :
  "x_" +:+ name ∈ String.app "x_" <$> chosen ↔ name ∈ chosen.
Proof.
  rewrite list_elem_of_fmap. split.
  - intros (name' & Heq & Hin). by apply String.app_inj in Heq as ->.
  - intros Hin. by exists name.
Qed.

Lemma select_not_capable problem name : "x_" +:+ name ∉ capable_names problem.
Proof.
  unfold capable_names.
  intros (t & (s & Hin & _)%list_elem_of_bind & _)%list_elem_of_bind.
  destruct (SetCoverSat.can_teach t s); [| by apply elem_of_nil in Hin].
  by apply list_elem_of_singleton in Hin.
Qed.

Lemma capability_not_select (chosen : list string) teacher subject :
  capability_name teacher subject ∉ String.app "x_" <$> chosen.
Proof. by intros (name & Heq & _)%list_elem_of_fmap. Qed.

Lemma capability_name_inj t s t' s' :
  free_of "_" (Teacher.name t) = true → free_of "_" (Teacher.name t') = true →
  capability_name t s = capability_name t' s' →
  Teacher.name t = Teacher.name t' ∧ s = s'.
Proof.
  intros Hfree Hfree'. unfold capability_name.
  change ("y_" +:+ ?a) with (String "y" (String "_" a)).
  change ("_" +:+ ?a) with (String "_" a).
  intros [= Heq].
  assert (Hname : Teacher.name t = Teacher.name t').
  { rewrite <- (up_to_app "_" (Teacher.name t) s Hfree).
    rewrite <- (up_to_app "_" (Teacher.name t') s' Hfree'). by rewrite Heq. }
  split; [done |]. rewrite Hname in Heq.
  by apply String.app_inj in Heq as [= ->].
Qed.

Section Valuation.
Context (problem : SetCoverSat.TeacherSubjectSetCover) (chosen : list string).
Hypothesis Hnames : NoDup (Teacher.name <$> SetCoverSat.teachers problem).
Hypothesis Hfree : Forall (λ teacher, free_of "_" (Teacher.name teacher) = true)
                     (SetCoverSat.teachers problem).

Lemma cover_valuation_select teacher :
  cover_valuation problem chosen (select_name teacher)
  = bool_decide (Teacher.name teacher ∈ chosen).
Proof.
  unfold cover_valuation, select_name.
  rewrite (bool_decide_eq_false_2 (_ ∈ capable_names problem))
    by apply select_not_capable.
  rewrite orb_false_r. apply bool_decide_ext, select_name_chosen.
Qed.

Lemma cover_valuation_capability teacher subject :
  teacher ∈ SetCoverSat.teachers problem →
  subject ∈ SetCoverSat.subjects problem →
  cover_valuation problem chosen (capability_name teacher subject)
  = SetCoverSat.can_teach teacher subject.
Proof.
  intros Ht Hs. unfold cover_valuation.
  rewrite (bool_decide_eq_false_2 (_ ∈ String.app "x_" <$> chosen))
    by apply capability_not_select.
  simpl. destruct (SetCoverSat.can_teach teacher subject) eqn:Hcan.
  - apply bool_decide_eq_true. unfold capable_names.
    apply list_elem_of_bind. exists teacher. split; [| done].
    apply list_elem_of_bind. exists subject. split; [| done].
    rewrite Hcan. by left.
  - apply bool_decide_eq_false. unfold capable_names.
    intros (t' & (s' & Hin & Hs')%list_elem_of_bind & Ht')%list_elem_of_bind.
    destruct (SetCoverSat.can_teach t' s') eqn:Hcan';
      [| by apply elem_of_nil in Hin].
    apply list_elem_of_singleton in Hin.
    apply capability_name_inj in Hin as [Hname ->];
      [| by apply (proj1 (Forall_forall _ _) Hfree)
       | by apply (proj1 (Forall_forall _ _) Hfree)].
    rewrite (teacher_by_name _ _ _ Hnames Ht Ht' Hname) in Hcan. congruence.
Qed.

End Valuation.

(** A combination of [r] elements is a sublist of length [r]. *)
Lemma combinations_spec {A} (l : list A) r c :
  c ∈ Py.combinations l r → c `sublist_of` l ∧ length c = r.
Proof.
  revert r c. induction l as [| x l IH]; intros [| r] c; simpl.
  - intros ->%list_elem_of_singleton. split; [constructor | done].
  - by intros ?%elem_of_nil.
  - intros ->%list_elem_of_singleton. split; [apply sublist_nil_l | done].
  - intros [Hc | Hc]%elem_of_app.
    + apply list_elem_of_fmap in Hc as (c' & -> & Hc').
      destruct (IH _ _ Hc') as [Hsub <-]. split; [by constructor | done].
    + destruct (IH _ _ Hc) as [Hsub Hlen]. split; [by constructor | done].
Qed.

(** Among [k + 1] teachers one is not among the [k] chosen. *)
Lemma more_than_chosen (teachers subset : list Teacher) (chosen : list string) :
  NoDup (Teacher.name <$> teachers) → subset `sublist_of` teachers →
  (length chosen < length subset)%nat →
  ∃ t, t ∈ subset ∧ Teacher.name t ∉ chosen.
Proof.
  intros Hnd Hsub Hlen.
  destruct (Forall_Exists_dec (λ t, Teacher.name t ∈ chosen)
              (λ t, Teacher.name t ∉ chosen)
              (λ t, decide (Teacher.name t ∈ chosen)) subset) as [Hall | Hex].
  - exfalso.
    assert (Hle : (length (Teacher.name <$> subset) ≤ length chosen)%nat).
    { apply submseteq_length, NoDup_submseteq.
      - eapply sublist_NoDup; [apply Hnd | by apply fmap_sublist].
      - intros name (t & -> & Ht)%list_elem_of_fmap.
        by apply (proj1 (Forall_forall _ _) Hall). }
    rewrite length_fmap in Hle. lia.
  - apply Exists_exists in Hex as (t & Ht & Hnot).
    by exists t.
Qed.

(** Among more teachers than are left out one is chosen. *)
Lemma more_than_left_out (teachers subset : list Teacher) (chosen : list string) :
  NoDup (Teacher.name <$> teachers) → subset `sublist_of` teachers →
  NoDup chosen →
  (∀ name, name ∈ chosen → name ∈ Teacher.name <$> teachers) →
  (length teachers < length subset + length chosen)%nat →
  ∃ t, t ∈ subset ∧ Teacher.name t ∈ chosen.
Proof.
  intros Hnd Hsub Hch Hin Hlen.
  destruct (Forall_Exists_dec (λ t, Teacher.name t ∉ chosen)
              (λ t, Teacher.name t ∈ chosen)
              (λ t, match decide (Teacher.name t ∈ chosen) with
                    | left H => right H
                    | right H => left H
                    end) subset) as [Hall | Hex].
  - exfalso.
    assert (Hle : (length ((Teacher.name <$> subset) ++ chosen)
                   ≤ length (Teacher.name <$> teachers))%nat).
    { apply submseteq_length, NoDup_submseteq.
      - apply NoDup_app. split_and!; [| | done].
        + eapply sublist_NoDup; [apply Hnd | by apply fmap_sublist].
        + intros name (t & -> & Ht)%list_elem_of_fmap.
          by apply (proj1 (Forall_forall _ _) Hall).
      - intros name [(t & -> & Ht)%list_elem_of_fmap | Hname]%elem_of_app.
        + apply list_elem_of_fmap. exists t. split; [done |].
          by eapply elem_of_sublist.
        + by apply Hin. }
    rewrite length_app, !length_fmap in Hle. lia.
  - apply Exists_exists in Hex as (t & Ht & Hyes).
    by exists t.
Qed.

(** Every exact cover is a model: the formula of a valid instance whose
    teacher names hold no underscore is satisfied by the valuation of the
    cover, and [generate_cnf] returns. *)
Lemma exact_cover_model problem chosen :
  SetCoverSat._validate_structure problem = true →
  Forall (λ teacher, free_of "_" (Teacher.name teacher) = true)
    (SetCoverSat.teachers problem) →
  exact_cover problem chosen →
  let g := SetCoverSat.generated problem in
  SetCoverSat.generate_outcome problem = Ok ()
  ∧ Sat.cnf_true (indices_of g (cover_valuation problem chosen)) (clauses g) = true.
Proof.
  intros Hvalid Hfree [Hnd Hsize Hteachers Hsubjects] g.
  destruct (validate_cover _ Hvalid) as [Hnames Hk].
  assert (Hsel : ∀ t, cover_valuation problem chosen (select_name t)
                      = bool_decide (Teacher.name t ∈ chosen))
    by apply cover_valuation_select.
  assert (Hin : ∀ name, name ∈ chosen →
            name ∈ Teacher.name <$> SetCoverSat.teachers problem).
  { intros name (t & Ht & <-)%Hteachers. by apply list_elem_of_fmap_2. }
  assert (Hle : (length chosen ≤ length (SetCoverSat.teachers problem))%nat).
  { rewrite <- (length_fmap Teacher.name (SetCoverSat.teachers problem)).
    by apply submseteq_length, NoDup_submseteq. }
  set (ν := cover_valuation problem chosen).
  assert (H1 : ∀ teacher subject,
            teacher ∈ SetCoverSat.teachers problem →
            subject ∈ SetCoverSat.subjects problem →
            ν (capability_name teacher subject)
            = SetCoverSat.can_teach teacher subject)
    by (by apply cover_valuation_capability).
  assert (H2 : ∀ subject, subject ∈ SetCoverSat.subjects problem →
            ∃ t, t ∈ filter (λ teacher, SetCoverSat.can_teach teacher subject = true)
                       (SetCoverSat.teachers problem)
                 ∧ ν (select_name t) = true).
  { intros subject Hs. destruct (Hsubjects subject Hs) as (t & Ht & Hc & Hcan).
    exists t. split; [by apply list_elem_of_filter |].
    unfold ν. rewrite Hsel. by apply bool_decide_eq_true. }
  assert (H3 : 0 ≤ SetCoverSat.k problem + 1) by lia.
  assert (H4 : 0 ≤ Z.of_nat (length (SetCoverSat.teachers problem))
                   - SetCoverSat.k problem + 1) by lia.
  assert (H5 : ∀ subset,
            subset ∈ Py.combinations (SetCoverSat.teachers problem)
                       (Z.to_nat (SetCoverSat.k problem + 1)) →
            ∃ t, t ∈ subset ∧ ν (select_name t) = false).
  { intros subset [Hsub Hlen]%combinations_spec.
    destruct (more_than_chosen _ subset chosen Hnames Hsub) as (t & Ht & Hnot);
      [lia |].
    exists t. split; [done |]. unfold ν. rewrite Hsel.
    by apply bool_decide_eq_false. }
  assert (H6 : ∀ subset,
            subset ∈ Py.combinations (SetCoverSat.teachers problem)
                       (Z.to_nat (Z.of_nat (length (SetCoverSat.teachers problem))
                                  - SetCoverSat.k problem + 1)) →
            ∃ t, t ∈ subset ∧ ν (select_name t) = true).
  { intros subset [Hsub Hlen]%combinations_spec.
    destruct (more_than_left_out _ subset chosen Hnames Hsub Hnd Hin)
      as (t & Ht & Hyes); [lia |].
    exists t. split; [done |]. unfold ν. rewrite Hsel.
    by apply bool_decide_eq_true. }
  destruct (all_good_generated (holds ν) (holds_mono ν) problem) as [Hout Hgood];
    [| | done | done | | |].
  - intros teacher subject vm v Ht Hs Hv _. eexists. split; [by left |].
    exists (capability_name teacher subject), v. by rewrite (H1 _ _ Ht Hs).
  - intros subject vm vars Hs. by apply holds_positive, H2.
  - intros subset vm vars Hsubset. by apply holds_negative, H5.
  - intros subset vm vars Hsubset. by apply holds_positive, H6.
  - split; [done |]. by apply holds_cnf_true.
Qed.

(** Every model selects an exact cover. *)
Lemma model_exact_cover problem (a : Z → bool) :
  SetCoverSat._validate_structure problem = true →
  SetCoverSat.generate_outcome problem = Ok () →
  let g := SetCoverSat.generated problem in
  Sat.cnf_true a (clauses g) = true →
  exact_cover problem
    (Teacher.name <$> filter (λ t, selected a g t = true)
                        (SetCoverSat.teachers problem)).
Proof.
  intros Hvalid Hout g Hsat.
  destruct (validate_cover _ Hvalid) as [Hnames Hk].
  pose proof (outcome_ok_range _ Hk Hout) as Hn.
  assert (Hok : interner_ok g) by apply cover_generated_ok.
  destruct (cover_generated_clauses problem ltac:(lia) Hn)
    as (Hcover & Hmost & Hleast). fold g in Hcover, Hmost, Hleast.
  split.
  - eapply sublist_NoDup; [apply Hnames |]. apply fmap_sublist, sublist_filter.
  - rewrite length_fmap. apply selected_count; [done | done | lia | done ..].
  - intros name (t & -> & [_ Ht]%list_elem_of_filter)%list_elem_of_fmap. eauto.
  - intros subject Hs.
    destruct (positive_clause_true a g _ Hok Hsat (Hcover subject Hs))
      as (t & [Hcan Ht]%list_elem_of_filter & Hsel).
    exists t. split_and!; [done | | done].
    apply list_elem_of_fmap_2. by apply list_elem_of_filter.
Qed.

(** X9. For a valid instance whose teacher names hold no underscore and for
    which [generate_cnf] returns, the generated formula is satisfiable
    exactly when some [k] teachers of the instance teach, between them,
    every required subject. *)
Theorem cover_formula_exact problem :
  SetCoverSat._validate_structure problem = true →
  Forall (λ teacher, free_of "_" (Teacher.name teacher) = true)
    (SetCoverSat.teachers problem) →
  SetCoverSat.generate_outcome problem = Ok () →
  Sat.satisfiable (clauses (SetCoverSat.generated problem))
  ↔ ∃ chosen, exact_cover problem chosen.
Proof.
  intros Hvalid Hfree Hout. split.
  - intros [a Ha]. eexists. by apply (model_exact_cover problem a).
  - intros [chosen Hchosen].
    exists (indices_of (SetCoverSat.generated problem)
              (cover_valuation problem chosen)).
    by apply exact_cover_model.
Qed.

Lemma cover_formula_exact_witness :
  SetCoverSat._validate_structure example_cover = true
  ∧ Forall (λ teacher, free_of "_" (Teacher.name teacher) = true)
      (SetCoverSat.teachers example_cover)
  ∧ SetCoverSat.generate_outcome example_cover = Ok ()
  ∧ (Sat.satisfiable (clauses (SetCoverSat.generated example_cover))
     ↔ ∃ chosen, exact_cover example_cover chosen).
Proof.
  assert (H1 : SetCoverSat._validate_structure example_cover = true)
    by (vm_compute; reflexivity).
  assert (H2 : Forall (λ teacher, free_of "_" (Teacher.name teacher) = true)
                 (SetCoverSat.teachers example_cover))
    by (repeat constructor).
  assert (H3 : SetCoverSat.generate_outcome example_cover = Ok ())
    by (vm_compute; reflexivity).
  split; [exact H1 |]. split; [exact H2 |]. split; [exact H3 |].
  exact (cover_formula_exact example_cover H1 H2 H3).
Defined.

(** X10. An exact cover is always found: for a valid instance whose teacher
    names hold no underscore, whenever [k] teachers cover the subjects,
    [generate_cnf] returns and the formula it leaves is satisfiable. *)
Theorem exact_cover_satisfiable problem chosen :
  SetCoverSat._validate_structure problem = true →
  Forall (λ teacher, free_of "_" (Teacher.name teacher) = true)
    (SetCoverSat.teachers problem) →
  exact_cover problem chosen →
  SetCoverSat.generate_outcome problem = Ok ()
  ∧ Sat.satisfiable (clauses (SetCoverSat.generated problem)).
Proof.
  intros Hvalid Hfree Hchosen.
  destruct (exact_cover_model problem chosen Hvalid Hfree Hchosen) as [Hout Hsat].
  split; [done |]. by eexists.
Qed.

(** ** Capability variables that share a name *)

(** The store holds the unit clause of the capability of a teacher for a
    subject: the variable when the teacher can teach it, its negation
    otherwise. *)
Definition capability_stored (teacher : Teacher) (subject : string)
    (g : CNFGenerator) : Prop :=
  ∃ v, var_map g !! capability_name teacher subject = Some v
       ∧ [if SetCoverSat.can_teach teacher subject then v else - v] ∈ clauses g.

Lemma capability_stored_monotone teacher subject :
  monotone (capability_stored teacher subject).
Proof.
  split.
  - intros name g (v & Hv & Hin). exists v. split.
    + eapply lookup_weaken; [apply Hv | apply intern_extends].
    + by rewrite intern_clauses.
  - intros c g (v & Hv & Hin). exists v. split; [done |].
    simpl. apply elem_of_app. by left.
Qed.

Lemma capability_body_stored teacher subject :
  hoare (λ _, True)
    (y_ij ← SetCoverSat.get_var "y" [Teacher.name teacher; subject];
     if SetCoverSat.can_teach teacher subject
     then add_clause [y_ij] else add_clause [- y_ij])
    (λ _ g, capability_stored teacher subject g).
Proof.
  intros g _.
  change (SetCoverSat.get_var "y" [Teacher.name teacher; subject])
    with (intern (capability_name teacher subject)).
  destruct (intern_lookup (capability_name teacher subject) g)
    as (v & E & Hv & Hsub & _).
  set (g1 := exec (intern (capability_name teacher subject)) g) in *.
  exists (),
    (exec (add_clause [if SetCoverSat.can_teach teacher subject then v else - v]) g1).
  split_and!.
  - unfold mbind, M_bind. rewrite E.
    by destruct (SetCoverSat.can_teach teacher subject).
  - done.
  - exists v. split; [done |]. simpl. apply elem_of_app. right. by left.
Qed.

Lemma monotone_capability_body P teacher subject :
  monotone P →
  preserves P
    (y_ij ← SetCoverSat.get_var "y" [Teacher.name teacher; subject];
     if SetCoverSat.can_teach teacher subject
     then add_clause [y_ij] else add_clause [- y_ij]).
Proof.
  intros HP. apply preserves_bind; [by apply monotone_cover_get_var |].
  intros y_ij. destruct (SetCoverSat.can_teach teacher subject); apply HP.
Qed.

Lemma capability_clauses_stored problem g teacher subject :
  teacher ∈ SetCoverSat.teachers problem →
  subject ∈ SetCoverSat.subjects problem →
  capability_stored teacher subject
    (exec (SetCoverSat.capability_clauses problem) g).
Proof.
  intros Ht Hs. unfold SetCoverSat.capability_clauses.
  apply (for_establishes_exec
           (λ teacher g, ∀ subject, subject ∈ SetCoverSat.subjects problem →
                           capability_stored teacher subject g)); [| | done | done].
  - intros t _. apply for_establishes.
    + intros s _. apply capability_body_stored.
    + intros s s' _ _. apply monotone_capability_body, capability_stored_monotone.
  - intros t t' _ _ g' Hg' s Hs'.
    apply (preserves_for (capability_stored t s)); [| by apply Hg'].
    intros s' _. apply monotone_capability_body, capability_stored_monotone.
Qed.

Lemma generated_capability_stored problem teacher subject :
  teacher ∈ SetCoverSat.teachers problem →
  subject ∈ SetCoverSat.subjects problem →
  capability_stored teacher subject (SetCoverSat.generated problem).
Proof.
  intros Ht Hs. unfold SetCoverSat.generated, exec.
  rewrite cover_generate_parts. fold (exec (A := ())).
  change ((SetCoverSat.cardinality_clauses problem ?g0).2)
    with (exec (SetCoverSat.cardinality_clauses problem) g0).
  apply (monotone_cardinality _ problem (capability_stored_monotone _ _)).
  apply (monotone_coverage _ problem (capability_stored_monotone _ _)).
  by apply capability_clauses_stored.
Qed.

(** X11. When the names [teacher_subject] of two pairs coincide, one pair
    that the instance allows and one that it does not, the two pairs share
    one capability variable, the formula holds it both as a unit clause and
    negated, and no assignment satisfies it, whether or not a cover
    exists. *)
Theorem capability_collision_unsat problem t1 s1 t2 s2 :
  t1 ∈ SetCoverSat.teachers problem → s1 ∈ SetCoverSat.subjects problem →
  t2 ∈ SetCoverSat.teachers problem → s2 ∈ SetCoverSat.subjects problem →
  Teacher.name t1 +:+ "_" +:+ s1 = Teacher.name t2 +:+ "_" +:+ s2 →
  SetCoverSat.can_teach t1 s1 = true → SetCoverSat.can_teach t2 s2 = false →
  ∃ v, [v] ∈ clauses (SetCoverSat.generated problem)
       ∧ [- v] ∈ clauses (SetCoverSat.generated problem)
       ∧ ∀ a, Sat.cnf_true a (clauses (SetCoverSat.generated problem)) = false.
Proof.
  intros Ht1 Hs1 Ht2 Hs2 Hname Hcan1 Hcan2.
  destruct (generated_capability_stored problem t1 s1 Ht1 Hs1) as (v & Hv & Hin1).
  destruct (generated_capability_stored problem t2 s2 Ht2 Hs2) as (v' & Hv' & Hin2).
  assert (Heq : capability_name t1 s1 = capability_name t2 s2).
  { unfold capability_name. by rewrite Hname. }
  rewrite Heq in Hv. rewrite Hv in Hv'. injection Hv' as <-.
  rewrite Hcan1 in Hin1. rewrite Hcan2 in Hin2.
  exists v. split_and!; [done | done |]. intros a.
  pose proof (ok_range _ (cover_generated_ok problem) _ _ Hv) as Hr.
  destruct (Sat.cnf_true a (clauses (SetCoverSat.generated problem))) eqn:Hsat;
    [exfalso | done].
  pose proof (cnf_true_clause a _ _ Hsat Hin1) as H1.
  pose proof (cnf_true_clause a _ _ Hsat Hin2) as H2.
  unfold Sat.clause_true in H1, H2. simpl in H1, H2.
  rewrite orb_false_r in H1, H2.
  rewrite lit_true_pos in H1 by lia. rewrite lit_true_neg in H2 by lia.
  by rewrite H1 in H2.
Qed.

(** Teacher [a] teaches both subjects, yet the pair ([a_b], [c]) shares its
    variable with ([a], [b_c]). *)
Definition colliding_cover : SetCoverSat.TeacherSubjectSetCover :=
  {| SetCoverSat.teachers :=
       [Teacher.mk "a" ["b_c"; "c"]; Teacher.mk "a_b" ["b_c"]];
     SetCoverSat.subjects := ["b_c"; "c"];
     SetCoverSat.k := 1 |}.

Lemma colliding_cover_covered : exact_cover colliding_cover ["a"].
Proof.
  split.
  - apply NoDup_singleton.
  - done.
  - intros name ->%list_elem_of_singleton.
    exists (Teacher.mk "a" ["b_c"; "c"]). split; [by left | done].
  - intros subject Hs. exists (Teacher.mk "a" ["b_c"; "c"]).
    split_and!; [by left | by left |].
    simpl in Hs. apply elem_of_cons in Hs as [-> | Hs]; [by vm_compute |].
    apply list_elem_of_singleton in Hs as ->. by vm_compute.
Qed.

Lemma capability_collision_unsat_witness :
  SetCoverSat._validate_structure colliding_cover = true
  ∧ SetCoverSat.generate_outcome colliding_cover = Ok ()
  ∧ exact_cover colliding_cover ["a"]
  ∧ ∀ a, Sat.cnf_true a (clauses (SetCoverSat.generated colliding_cover)) = false.
Proof.
  split; [by vm_compute |]. split; [by vm_compute |].
  split; [apply colliding_cover_covered |].
  destruct (capability_collision_unsat colliding_cover
              (Teacher.mk "a" ["b_c"; "c"]) "b_c" (Teacher.mk "a_b" ["b_c"]) "c")
    as (v & _ & _ & Hunsat).
  - by left.
  - by left.
  - right. by left.
  - right. by left.
  - reflexivity.
  - by vm_compute.
  - by vm_compute.
  - exact Hunsat.
Defined.

(** ** Round trips: from a run or a cover to a model and back *)

Lemma run_of_model_of_run nfa input_string r :
  NfaSat._validate_structure nfa = true →
  NoDup (NfaSat.states nfa) → NoDup (NfaSat.initial_states nfa) →
  run true nfa input_string r →
  let g := NfaSat.generated nfa input_string in
  run_of (names_of g (indices_of g (model_of_run r))) nfa input_string = r.
Proof.
  intros Hvalid Hnd Hndi Hrun g.
  assert (Hok : interner_ok g) by apply nfa_generated_ok.
  set (ν := names_of g (indices_of g (model_of_run r))).
  assert (Hν : ∀ s t, s ∈ NfaSat.states nfa →
            (t ≤ String.length input_string)%nat →
            ν (prop_name (s, t)) = model_of_run r (prop_name (s, t))).
  { intros s t Hs Ht.
    destruct (nfa_generated_interned nfa input_string s t Hs Ht) as [v Hv].
    by apply (names_of_indices_of g _ _ v). }
  apply list_eq. intros t.
  destruct (decide (t ≤ String.length input_string)%nat) as [Ht | Ht].
  - rewrite run_of_lookup by done.
    destruct (lookup_lt_is_Some_2 r t) as [s Hs].
    { rewrite (run_length _ _ _ _ Hrun). lia. }
    rewrite Hs. f_equal.
    assert (Hin : s ∈ NfaSat.states nfa).
    { eapply (run_declared _ _ _ _ Hrun), list_elem_of_lookup_2, Hs. }
    apply occupied_unique; [| done |].
    + intros i j s1 s2 Hlt Hi Hj H1 H2.
      rewrite Hν in H1, H2; [| by eapply list_elem_of_lookup_2 | done
                             | by eapply list_elem_of_lookup_2 | done].
      by apply (at_most_one_at_run r t _ Hnd i j s1 s2).
    + rewrite Hν by done. by apply model_of_run_true.
  - rewrite (lookup_ge_None_2 r) by (rewrite (run_length _ _ _ _ Hrun); lia).
    apply lookup_ge_None_2. unfold run_of, Py.range.
    rewrite length_fmap, length_seq. lia.
Qed.

(** X12. Round trip for runs: for a validated automaton without repeated
    states whose state names hold no underscore, the assignment that
    encodes a lenient run satisfies the generated formula, and
    [_extract_path] decodes the model of that assignment back to the
    run. *)
Theorem run_round_trip nfa input_string r :
  NfaSat._validate_structure nfa = true →
  NoDup (NfaSat.states nfa) → NoDup (NfaSat.initial_states nfa) →
  Forall (λ s, free_of "_" s = true) (NfaSat.states nfa) →
  run true nfa input_string r →
  let g := NfaSat.generated nfa input_string in
  let a := indices_of g (model_of_run r) in
  Sat.cnf_true a (clauses g) = true
  ∧ NfaSat._extract_path (get_var_mapping g)
      (Sat.model_of a (size (var_map g))) = Ok r.
Proof.
  intros Hvalid Hnd Hndi Hfree Hrun g a.
  assert (Hsat : Sat.cnf_true a (clauses g) = true).
  { unfold a. rewrite (rep_ncnf_true _ g _ (nfa_generated_rep nfa input_string)).
    by apply run_model. }
  split; [done |].
  unfold NfaSat._extract_path.
  rewrite (extract_path_in_run nfa input_string a) by done.
  f_equal. by apply run_of_model_of_run.
Qed.

Lemma run_round_trip_witness :
  let g := NfaSat.generated example_nfa "ab" in
  let a := indices_of g (model_of_run ["q0"; "q1"; "q1"]) in
  run true example_nfa "ab" ["q0"; "q1"; "q1"]
  ∧ Sat.cnf_true a (clauses g) = true
  ∧ NfaSat._extract_path (get_var_mapping g)
      (Sat.model_of a (size (var_map g))) = Ok ["q0"; "q1"; "q1"].
Proof.
  intros g a.
  assert (H1 : NfaSat._validate_structure example_nfa = true)
    by (vm_compute; reflexivity).
  assert (H2 : NoDup (NfaSat.states example_nfa))
    by (apply (bool_decide_unpack _); vm_compute; exact I).
  assert (H3 : NoDup (NfaSat.initial_states example_nfa))
    by (apply (bool_decide_unpack _); vm_compute; exact I).
  assert (H4 : Forall (λ s, free_of "_" s = true) (NfaSat.states example_nfa))
    by (repeat constructor).
  assert (H5 : run true example_nfa "ab" ["q0"; "q1"; "q1"]).
  { apply run_strict_lenient.
    assert (Hacc : NfaSat.dfs example_nfa "ab" "q0" = true)
      by (vm_compute; reflexivity).
    split.
    - done.
    - intros s Hs. simpl.
      apply elem_of_cons in Hs as [-> | Hs]; [by left |].
      apply elem_of_cons in Hs as [-> | Hs]; [right; by left |].
      apply list_elem_of_singleton in Hs as ->. right; by left.
    - exists "q0". split; [done | by left].
    - intros [| [| t]] s s'; simpl.
      + intros [= <-] [= <-]. left. vm_compute. right. by left.
      + intros [= <-] [= <-]. left. vm_compute. by left.
      + intros _ Hs'. destruct t; done.
    - exists "q1". split; [done | by left]. }
  split; [exact H5 |].
  exact (run_round_trip example_nfa "ab" _ H1 H2 H3 H4 H5).
Defined.

(** Every teacher is in some combination of a size between one and the
    number of teachers. *)
Lemma combinations_cover {A} (l : list A) (r : nat) x :
  x ∈ l → (1 ≤ r ≤ length l)%nat → ∃ c, c ∈ Py.combinations l r ∧ x ∈ c.
Proof.
  revert r. induction l as [| y l IH]; intros r Hx Hr.
  { by apply elem_of_nil in Hx. }
  destruct r as [| r]; [lia |]. simpl in Hr. simpl.
  assert (Htake : ∀ m, (m ≤ length l)%nat → take m l ∈ Py.combinations l m).
  { intros m Hm. rewrite <- (length_take_le l m Hm) at 2.
    apply combinations_sublist, sublist_take. }
  apply elem_of_cons in Hx as [-> | Hx].
  - exists (y :: take r l). split; [| by left].
    apply elem_of_app. left. apply list_elem_of_fmap_2, Htake. lia.
  - destruct (decide (S r ≤ length l)%nat) as [Hle | Hgt].
    + destruct (IH (S r) Hx ltac:(lia)) as (c & Hc & Hin).
      exists c. split; [| done]. apply elem_of_app. by right.
    + exists (y :: l). split; [| by right].
      apply elem_of_app. left. apply list_elem_of_fmap_2.
      assert (r = length l) as -> by lia. rewrite <- (take_ge l (length l)) at 1 by lia.
      by apply Htake.
Qed.

(** When [generate_cnf] returns for [k] of at most [n], the select variable
    of every teacher is interned. *)
Lemma select_interned problem teacher :
  0 < SetCoverSat.k problem ≤ Z.of_nat (length (SetCoverSat.teachers problem)) →
  teacher ∈ SetCoverSat.teachers problem →
  is_Some (var_map (SetCoverSat.generated problem) !! select_name teacher).
Proof.
  intros Hk Ht. set (n := length (SetCoverSat.teachers problem)) in *.
  destruct (cover_generated_clauses problem ltac:(lia) ltac:(fold n; lia))
    as (_ & _ & Hleast).
  destruct (combinations_cover (SetCoverSat.teachers problem)
              (Z.to_nat (Z.of_nat n - SetCoverSat.k problem + 1)) teacher Ht)
    as (c & Hc & Hin); [fold n; lia |].
  destruct (Hleast c Hc) as (vars & Hvars & _).
  apply list_elem_of_lookup in Hin as [i Hi].
  destruct (Forall2_lookup_l _ _ _ _ _ Hvars Hi) as (v & _ & Hv). by exists v.
Qed.

(** X13. Round trip for covers: for a valid instance whose teacher names
    hold no underscore, the assignment that encodes an exact cover satisfies
    the generated formula, and [_extract_teachers] decodes the model of that
    assignment to the names of the cover, each once. *)
Theorem cover_round_trip problem chosen :
  SetCoverSat._validate_structure problem = true →
  Forall (λ teacher, free_of "_" (Teacher.name teacher) = true)
    (SetCoverSat.teachers problem) →
  exact_cover problem chosen →
  let g := SetCoverSat.generated problem in
  let a := indices_of g (cover_valuation problem chosen) in
  Sat.cnf_true a (clauses g) = true
  ∧ ∃ decoded,
      SetCoverSat._extract_teachers (get_var_mapping g)
        (Sat.model_of a (size (var_map g))) = Ok decoded
      ∧ decoded ≡ₚ chosen.
Proof.
  intros Hvalid Hfree Hcover g a.
  destruct (exact_cover_model problem chosen Hvalid Hfree Hcover) as [Hout Hsat].
  split; [done |].
  destruct (validate_cover _ Hvalid) as [Hnames Hk].
  assert (Hok : interner_ok g) by apply cover_generated_ok.
  assert (Hgnames : names_ok problem g) by apply cover_generated_names.
  set (model := Sat.model_of a (size (var_map g))).
  set (names := selected_names (get_var_mapping g) model).
  assert (Hle : (length chosen ≤ length (SetCoverSat.teachers problem))%nat).
  { rewrite <- (length_fmap Teacher.name (SetCoverSat.teachers problem)).
    apply submseteq_length, NoDup_submseteq; [apply Hcover |].
    intros name (t & Ht & <-)%(cover_teachers _ _ Hcover).
    by apply list_elem_of_fmap_2. }
  pose proof (cover_size _ _ Hcover) as Hsize.
  assert (Hsel : ∀ t, t ∈ SetCoverSat.teachers problem →
            selected a g t = bool_decide (Teacher.name t ∈ chosen)).
  { intros t Ht. unfold selected.
    destruct (select_interned problem t ltac:(lia) Ht) as [v Hv].
    fold g in Hv. rewrite Hv. unfold a, indices_of.
    rewrite (proj2 (get_var_mapping_lookup g v _ Hok) Hv).
    by apply cover_valuation_select. }
  assert (Hελ : ∀ name, name ∈ names ↔ name ∈ chosen).
  { intros name. pose proof (chosen_selected problem a name) as Hcs.
    cbv zeta in Hcs. fold g in Hcs. fold model in Hcs. fold names in Hcs.
    rewrite Hcs. split.
    - intros (t & Ht & <- & Hs). rewrite (Hsel t Ht) in Hs.
      by apply bool_decide_eq_true in Hs.
    - intros Hin. destruct (cover_teachers _ _ Hcover name Hin) as (t & Ht & <-).
      exists t. split_and!; [done | done |]. rewrite (Hsel t Ht).
      by apply bool_decide_eq_true. }
  exists names. split.
  - rewrite (extract_teachers_spec problem) by done. f_equal.
    apply fmap_up_to_free, Forall_forall. intros name Hname%Hελ.
    destruct (cover_teachers _ _ Hcover name Hname) as (t & Ht & <-).
    by apply (proj1 (Forall_forall _ _) Hfree).
  - apply NoDup_Permutation; [| apply Hcover | done].
    apply selected_names_NoDup; [done | apply model_of_NoDup].
Qed.

Lemma example_cover_covered : exact_cover example_cover ["A"; "B"].
Proof.
  split.
  - apply (bool_decide_unpack _). vm_compute. exact I.
  - done.
  - intros name Hname. simpl.
    apply elem_of_cons in Hname as [-> | Hname].
    + exists (Teacher.mk "A" ["math"]). split; [by left | done].
    + apply list_elem_of_singleton in Hname as ->.
      exists (Teacher.mk "B" ["science"]). split; [right; by left | done].
  - intros subject Hs. simpl in Hs.
    apply elem_of_cons in Hs as [-> | Hs].
    + exists (Teacher.mk "A" ["math"]).
      split_and!; [by left | by left | by vm_compute].
    + apply list_elem_of_singleton in Hs as ->.
      exists (Teacher.mk "B" ["science"]).
      split_and!; [right; by left | right; by left | by vm_compute].
Qed.

Lemma cover_round_trip_witness :
  let g := SetCoverSat.generated example_cover in
  let a := indices_of g (cover_valuation example_cover ["A"; "B"]) in
  exact_cover example_cover ["A"; "B"]
  ∧ Sat.cnf_true a (clauses g) = true
  ∧ ∃ decoded,
      SetCoverSat._extract_teachers (get_var_mapping g)
        (Sat.model_of a (size (var_map g))) = Ok decoded
      ∧ decoded ≡ₚ ["A"; "B"].
Proof.
  intros g a.
  assert (H1 : SetCoverSat._validate_structure example_cover = true)
    by (vm_compute; reflexivity).
  assert (H2 : Forall (λ teacher, free_of "_" (Teacher.name teacher) = true)
                 (SetCoverSat.teachers example_cover))
    by (repeat constructor).
  split; [exact example_cover_covered |].
  exact (cover_round_trip example_cover ["A"; "B"] H1 H2 example_cover_covered).
Defined.

Lemma exact_cover_satisfiable_witness :
  SetCoverSat._validate_structure example_cover = true
  ∧ exact_cover example_cover ["A"; "B"]
  ∧ SetCoverSat.generate_outcome example_cover = Ok ()
  ∧ Sat.satisfiable (clauses (SetCoverSat.generated example_cover)).
Proof.
  assert (H1 : SetCoverSat._validate_structure example_cover = true)
    by (vm_compute; reflexivity).
  assert (H2 : Forall (λ teacher, free_of "_" (Teacher.name teacher) = true)
                 (SetCoverSat.teachers example_cover))
    by (repeat constructor).
  split; [exact H1 |]. split; [exact example_cover_covered |].
  exact (exact_cover_satisfiable example_cover ["A"; "B"] H1 H2
           example_cover_covered).
Defined.

(** ** The human-readable text: [write_pretty] *)

(** [s[:stop]]: the characters before position [stop], counted from the end
    when [stop] is negative. *)
Definition slice_to (s : string) (stop : Z) : string :=
  let len := Z.of_nat (String.length s) in
  let stop := if stop <? 0 then Z.max (len + stop) 0 else Z.min stop len in
  String.substring 0 (Z.to_nat stop) s.

Section Pretty.
(** The connectives of the text lie outside ASCII; each is one character of
    the Python string, and the two characters are parameters here. *)
Variables (vee wedge : ascii).

(** The inner loop of [write_pretty] for one literal:
<<
    var_name = var_mapping[abs(v)]
    var_sign = "" if v > 0 else "-"
    clause_str.append(f"{var_sign}{var_name}")
>> *)
Definition pretty_literal (var_mapping : gmap Z string) (v : Z) : result string :=
  var_name ← dict_get var_mapping (Z.abs v);
  let var_sign := if 0 <? v then "" else "-" in
  mret (var_sign +:+ var_name).

(** The outer loop, from the text [formula] built so far. *)
Fixpoint pretty_loop (var_mapping : gmap Z string) (cs : list (list Z))
    (formula : string) : result string :=
  match cs with
  | [] => Ok formula
  | clause :: rest =>
      clause_str ← mapM (pretty_literal var_mapping) clause;
      let formula := formula +:+ "(" in
      let formula := formula +:+ Py.join (String " " (String vee " ")) clause_str in
      let formula := formula +:+ String ")" (String " " (String wedge Py.nl)) in
      pretty_loop var_mapping rest formula
  end.

(** [write_pretty]: the text written to the file, or the [KeyError] of a
    literal whose variable has no name. *)
Definition write_pretty (g : CNFGenerator) : result string :=
  formula ← pretty_loop (get_var_mapping g) (clauses g) "";
  mret (slice_to formula (-3)).

(** A named literal and a named clause as they are printed. *)
Definition pretty_nlit (nl : nlit) : string :=
  (if nl.1 then "" else "-") +:+ prop_name nl.2.

Definition pretty_nclause (nc : list nlit) : string :=
  "(" +:+ Py.join (String " " (String vee " ")) (pretty_nlit <$> nc) +:+ ")".

Lemma pretty_literal_rep g nl l :
  interner_ok g → lit_rep (var_map g) nl l →
  pretty_literal (get_var_mapping g) l = Ok (pretty_nlit nl).
Proof.
  intros Hok (v & Hv & ->). pose proof (ok_range _ Hok _ _ Hv) as Hr.
  unfold pretty_literal, pretty_nlit, dict_get.
  assert (Habs : Z.abs (if nl.1 then v else - v) = v) by (destruct nl.1; lia).
  rewrite Habs, (proj2 (get_var_mapping_lookup g v _ Hok) Hv). simpl.
  destruct nl.1.
  - by destruct (Z.ltb_spec 0 v); [| lia].
  - by destruct (Z.ltb_spec 0 (- v)); [lia |].
Qed.

Lemma pretty_clause_rep g nc c :
  interner_ok g → clause_rep (var_map g) nc c →
  mapM (pretty_literal (get_var_mapping g)) c = Ok (pretty_nlit <$> nc).
Proof.
  intros Hok. induction 1 as [| nl l nc c Hl _ IH]; [done |].
  by rewrite result_mapM_cons, (pretty_literal_rep g nl l Hok Hl), IH.
Qed.

Lemma pretty_loop_rep g ns cs formula :
  interner_ok g → Forall2 (clause_rep (var_map g)) ns cs →
  pretty_loop (get_var_mapping g) cs formula
  = Ok (formula
        +:+ foldr (λ nc text,
               (pretty_nclause nc +:+ String " " (String wedge Py.nl)) +:+ text)
              "" ns).
Proof.
  intros Hok Hrep. revert formula.
  induction Hrep as [| nc c ns cs Hc _ IH]; intros formula.
  - simpl. by rewrite append_nil_r.
  - simpl. rewrite (pretty_clause_rep g nc c Hok Hc). simpl. rewrite IH.
    f_equal. unfold pretty_nclause. rewrite !append_assoc. reflexivity.
Qed.

End Pretty.

Lemma length_append s t :
  String.length (s +:+ t) = (String.length s + String.length t)%nat.
Proof. induction s as [| c s IH]; [done |]. rewrite append_cons. simpl. by rewrite IH. Qed.

Lemma substring_append s t :
  String.substring 0 (String.length s) (s +:+ t) = s.
Proof.
  induction s as [| c s IH].
  - rewrite append_nil_l. by destruct t.
  - rewrite append_cons. simpl. by rewrite IH.
Qed.

Lemma slice_to_append s t :
  t ≠ "" → slice_to (s +:+ t) (- Z.of_nat (String.length t)) = s.
Proof.
  intros Ht. unfold slice_to. rewrite length_append.
  assert (Hlen : (0 < String.length t)%nat) by (destruct t; [done | simpl; lia]).
  destruct (Z.ltb_spec (- Z.of_nat (String.length t)) 0) as [Hlt | Hge]; [| lia].
  replace (Z.to_nat (Z.max _ 0)) with (String.length s) by lia.
  apply substring_append.
Qed.

(** The pieces, each followed by the separator, without the last
    separator, are the pieces joined by it. *)
Lemma foldr_join sep (pieces : list string) :
  pieces ≠ [] →
  foldr (λ piece text, (piece +:+ sep) +:+ text) "" pieces
  = Py.join sep pieces +:+ sep.
Proof.
  induction pieces as [| x [| y l] IH]; [done | |]; intros _.
  - simpl. by rewrite append_nil_r.
  - rewrite join_cons. cbn [foldr] in *. rewrite IH by done.
    by rewrite !append_assoc.
Qed.

Lemma foldr_fmap_pieces {A} (f : A → string) sep (l : list A) :
  foldr (λ x text, (f x +:+ sep) +:+ text) "" l
  = foldr (λ piece text, (piece +:+ sep) +:+ text) "" (f <$> l).
Proof.
  induction l as [| x l IH]; [done |].
  rewrite fmap_cons. cbn [foldr]. by rewrite IH.
Qed.

(** X14. [write_pretty] on the formula of the NFA generator never meets a
    missing name, and writes the clauses in their order, each as its
    literals [state_time] or [-state_time] joined by the disjunction sign
    between parentheses, the clauses separated by the conjunction sign and
    a newline, with nothing after the last clause. *)
Theorem write_pretty_nfa (vee wedge : ascii) nfa input_string :
  write_pretty vee wedge (NfaSat.generated nfa input_string)
  = Ok (Py.join (String " " (String wedge Py.nl))
          (pretty_nclause vee <$> named_cnf nfa input_string)).
Proof.
  destruct (nfa_generated_rep nfa input_string) as [Hok Hrep].
  unfold write_pretty.
  rewrite (pretty_loop_rep vee wedge _ _ _ "" Hok Hrep).
  cbn [mbind mret result_bind result_ret]. f_equal.
  rewrite append_nil_l.
  assert (Hne : pretty_nclause vee <$> named_cnf nfa input_string ≠ []).
  { unfold named_cnf, exactly_one. by rewrite <- app_comm_cons. }
  rewrite (foldr_fmap_pieces (pretty_nclause vee)), (foldr_join _ _ Hne).
  by apply (slice_to_append _ (String " " (String wedge Py.nl))).
Qed.

Lemma pretty_literal_outcome var_mapping v :
  (∃ text, pretty_literal var_mapping v = Ok text
           ∧ is_Some (var_mapping !! Z.abs v))
  ∨ (pretty_literal var_mapping v = Raise KeyError
     ∧ var_mapping !! Z.abs v = None).
Proof.
  unfold pretty_literal, dict_get.
  destruct (var_mapping !! Z.abs v) as [name |]; [left | right]; eauto.
Qed.

Lemma pretty_clause_outcome var_mapping clause :
  (∃ texts, mapM (pretty_literal var_mapping) clause = Ok texts
            ∧ Forall (λ v, is_Some (var_mapping !! Z.abs v)) clause)
  ∨ (mapM (pretty_literal var_mapping) clause = Raise KeyError
     ∧ Exists (λ v, var_mapping !! Z.abs v = None) clause).
Proof.
  induction clause as [| v clause IH]; [left; by exists [] |].
  rewrite result_mapM_cons.
  destruct (pretty_literal_outcome var_mapping v)
    as [(text & -> & Hv) | [-> Hv]]; [| right; split; [done | by left]].
  destruct IH as [(texts & -> & Hall) | [-> Hex]].
  - left. eexists. split; [done |]. by constructor.
  - right. split; [done | by right].
Qed.

Lemma pretty_loop_outcome vee wedge var_mapping cs formula :
  (∃ text, pretty_loop vee wedge var_mapping cs formula = Ok text
           ∧ Forall (Forall (λ v, is_Some (var_mapping !! Z.abs v))) cs)
  ∨ (pretty_loop vee wedge var_mapping cs formula = Raise KeyError
     ∧ Exists (Exists (λ v, var_mapping !! Z.abs v = None)) cs).
Proof.
  revert formula. induction cs as [| clause cs IH]; intros formula.
  { left. by exists formula. }
  simpl. destruct (pretty_clause_outcome var_mapping clause)
    as [(texts & -> & Hall) | [-> Hex]]; [| right; split; [done | by left]].
  cbn [mbind result_bind].
  destruct (IH ((formula +:+ "(")
                +:+ Py.join (String " " (String vee " ")) texts
                +:+ String ")" (String " " (String wedge Py.nl))))
    as [(text & E & Hcs) | [E Hex]].
  - left. exists text. split; [| by constructor].
    rewrite <- E. by rewrite !append_assoc.
  - right. split; [| by right]. rewrite <- E. by rewrite !append_assoc.
Qed.

(** The text of a literal and of a clause, from the reverse mapping. *)
Definition literal_text (var_mapping : gmap Z string) (v : Z) : string :=
  (if 0 <? v then "" else "-") +:+ default "" (var_mapping !! Z.abs v).

Definition clause_text (vee : ascii) (var_mapping : gmap Z string)
    (clause : list Z) : string :=
  "(" +:+ Py.join (String " " (String vee " ")) (literal_text var_mapping <$> clause)
  +:+ ")".

Lemma pretty_loop_ok vee wedge var_mapping cs formula :
  Forall (Forall (λ v, is_Some (var_mapping !! Z.abs v))) cs →
  pretty_loop vee wedge var_mapping cs formula
  = Ok (formula
        +:+ foldr (λ clause text,
               (clause_text vee var_mapping clause
                +:+ String " " (String wedge Py.nl)) +:+ text) "" cs).
Proof.
  intros Hcs. revert formula.
  induction Hcs as [| clause cs Hclause _ IH]; intros formula.
  - simpl. by rewrite append_nil_r.
  - simpl.
    rewrite (result_mapM_ok _ (literal_text var_mapping)).
    + cbn [mbind result_bind]. rewrite IH. f_equal. unfold clause_text.
      rewrite !append_assoc. reflexivity.
    + intros v Hv. apply (proj1 (Forall_forall _ _) Hclause) in Hv as [name Hname].
      unfold pretty_literal, literal_text, dict_get. by rewrite Hname.
Qed.

Lemma write_pretty_named (vee wedge : ascii) (g : CNFGenerator) :
  Forall (Forall (λ v, is_Some (get_var_mapping g !! Z.abs v))) (clauses g) →
  write_pretty vee wedge g
  = Ok (Py.join (String " " (String wedge Py.nl))
          (clause_text vee (get_var_mapping g) <$> clauses g)).
Proof.
  intros Hall. unfold write_pretty. rewrite (pretty_loop_ok _ _ _ _ _ Hall).
  cbn [mbind mret result_bind result_ret]. f_equal. rewrite append_nil_l.
  destruct (clauses g) as [| c cs] eqn:E; [done |].
  rewrite (foldr_fmap_pieces (clause_text vee (get_var_mapping g))).
  rewrite foldr_join by done.
  by apply (slice_to_append _ (String " " (String wedge Py.nl))).
Qed.

(** X15. [write_pretty] returns exactly when the variable of every stored
    literal has a name in the reverse mapping, and then writes the clauses in
    their order, each between parentheses with its literals as [name] or
    [-name] joined by the disjunction sign, the clauses separated by the
    conjunction sign and a newline, with nothing after the last one;
    otherwise it raises [KeyError], before anything is written. *)
Theorem write_pretty_text (vee wedge : ascii) (g : CNFGenerator) :
  (Forall (Forall (λ v, is_Some (get_var_mapping g !! Z.abs v))) (clauses g)
   ∧ write_pretty vee wedge g
     = Ok (Py.join (String " " (String wedge Py.nl))
             (clause_text vee (get_var_mapping g) <$> clauses g)))
  ∨ (Exists (Exists (λ v, get_var_mapping g !! Z.abs v = None)) (clauses g)
     ∧ write_pretty vee wedge g = Raise KeyError).
Proof.
  destruct (pretty_loop_outcome vee wedge (get_var_mapping g) (clauses g) "")
    as [(text & _ & Hall) | [E Hex]].
  - left. split; [done |]. by apply write_pretty_named.
  - right. split; [done |]. unfold write_pretty. by rewrite E.
Qed.

(** A clause all of whose variables are interned. *)
Definition interned_clause (vm : gmap string Z) (c : list Z) : Prop :=
  ∀ l, l ∈ c → ∃ name, vm !! name = Some (Z.abs l).

Lemma interned_clause_mono vm vm' c :
  vm ⊆ vm' → interned_clause vm c → interned_clause vm' c.
Proof.
  intros Hsub Hc l Hl. destruct (Hc l Hl) as [name Hname].
  exists name. by eapply lookup_weaken.
Qed.

Lemma interned_select vm (ts : list Teacher) vars :
  Forall2 (selects vm) ts vars →
  interned_clause vm vars ∧ interned_clause vm (Z.opp <$> vars).
Proof.
  intros Hvars.
  assert (H : ∀ v, v ∈ vars → ∃ name, vm !! name = Some v ∧ 1 ≤ v).
  { intros v [i Hi]%list_elem_of_lookup.
    destruct (Forall2_lookup_r _ _ _ _ _ Hvars Hi) as (t & _ & Hv & Hpos). eauto. }
  split.
  - intros v (name & Hname & Hpos)%H. exists name.
    by replace (Z.abs v) with v by lia.
  - intros l (v & -> & (name & Hname & Hpos)%H)%list_elem_of_fmap. exists name.
    by replace (Z.abs (- v)) with v by lia.
Qed.

(** X16. After [generate_cnf] has returned on a valid set-cover instance,
    [write_pretty] meets no missing name: it returns the text of the stored
    clauses. *)
Theorem write_pretty_cover (vee wedge : ascii) problem :
  SetCoverSat._validate_structure problem = true →
  SetCoverSat.generate_outcome problem = Ok () →
  let g := SetCoverSat.generated problem in
  write_pretty vee wedge g
  = Ok (Py.join (String " " (String wedge Py.nl))
          (clause_text vee (get_var_mapping g) <$> clauses g)).
Proof.
  intros Hvalid Hout g.
  destruct (validate_cover _ Hvalid) as [_ Hk].
  pose proof (outcome_ok_range _ Hk Hout) as Hn.
  destruct (all_good_generated interned_clause interned_clause_mono problem)
    as [_ [Hok Hgood]]; [| | lia | done | | |].
  - intros teacher subject vm v _ _ Hv Hpos l ->%list_elem_of_singleton.
    exists (capability_name teacher subject).
    destruct (SetCoverSat.can_teach teacher subject).
    + by replace (Z.abs v) with v by lia.
    + by replace (Z.abs (- v)) with v by lia.
  - intros subject vm vars _ Hvars. by apply (interned_select vm _ _ Hvars).
  - intros subset vm vars _ Hvars. by apply (interned_select vm _ _ Hvars).
  - intros subset vm vars _ Hvars. by apply (interned_select vm _ _ Hvars).
  - fold g in Hok, Hgood. apply write_pretty_named.
    apply Forall_forall. intros c Hc. apply Forall_forall. intros l Hl.
    destruct (Hgood c Hc l Hl) as [name Hname]. exists name.
    by apply (get_var_mapping_lookup g _ _ Hok).
Qed.

Lemma write_pretty_cover_witness :
  SetCoverSat._validate_structure example_cover = true
  ∧ SetCoverSat.generate_outcome example_cover = Ok ()
  ∧ write_pretty "|" "&" (SetCoverSat.generated example_cover)
    = Ok (Py.join (String " " (String "&" Py.nl))
            (clause_text "|"
               (get_var_mapping (SetCoverSat.generated example_cover))
             <$> clauses (SetCoverSat.generated example_cover))).
Proof.
  assert (H1 : SetCoverSat._validate_structure example_cover = true)
    by (vm_compute; reflexivity).
  assert (H2 : SetCoverSat.generate_outcome example_cover = Ok ())
    by (vm_compute; reflexivity).
  split; [exact H1 |]. split; [exact H2 |].
  exact (write_pretty_cover "|" "&" example_cover H1 H2).
Defined.

(** ** Edge cases of the NFA formula *)

(** X17. With no initial state the first clause the generator stores is the
    empty one: no assignment satisfies the formula, and [accepts] returns
    [False]. *)
Theorem no_initial_state_unsat nfa input_string :
  NfaSat.initial_states nfa = [] →
  head (clauses (NfaSat.generated nfa input_string)) = Some []
  ∧ (∀ a, Sat.cnf_true a (clauses (NfaSat.generated nfa input_string)) = false)
  ∧ NfaSat.accepts nfa input_string = false.
Proof.
  intros Hinit.
  destruct (nfa_generated_rep nfa input_string) as [_ Hrep].
  unfold named_cnf, exactly_one in Hrep. rewrite Hinit in Hrep.
  rewrite <- app_comm_cons in Hrep.
  destruct (clauses (NfaSat.generated nfa input_string)) as [| c cs] eqn:E;
    [by apply Forall2_length in Hrep |].
  apply Forall2_cons_1 in Hrep as [Hc _].
  apply Forall2_nil_inv_l in Hc as ->.
  split_and!; [done | by intros a |].
  unfold NfaSat.accepts. by rewrite Hinit.
Qed.

Definition no_initial_nfa : NfaSat.NFA :=
  {| NfaSat.states := ["q0"; "q1"];
     NfaSat.alphabet := ["a"; "b"];
     NfaSat.transitions := {[ "q0" := {[ "a" := ["q0"; "q1"] ]} ]};
     NfaSat.initial_states := [];
     NfaSat.final_states := ["q1"] |}.

Lemma no_initial_state_unsat_witness :
  NfaSat._validate_structure no_initial_nfa = true
  ∧ head (clauses (NfaSat.generated no_initial_nfa "a")) = Some []
  ∧ NfaSat.accepts no_initial_nfa "a" = false.
Proof.
  split; [by vm_compute |].
  pose proof (no_initial_state_unsat no_initial_nfa "a" eq_refl) as (H1 & _ & H2).
  by split.
Defined.

(** X18. On the empty word the encoding is exact, dead ends or not: for a
    validated automaton without repeated states, the formula is satisfiable
    exactly when [accepts] returns [True], that is when some initial state
    is final. *)
Theorem empty_word_exact nfa :
  NfaSat._validate_structure nfa = true →
  NoDup (NfaSat.states nfa) → NoDup (NfaSat.initial_states nfa) →
  (Sat.satisfiable (clauses (NfaSat.generated nfa ""))
   ↔ NfaSat.accepts nfa "" = true)
  ∧ (NfaSat.accepts nfa "" = true
     ↔ ∃ s, s ∈ NfaSat.initial_states nfa ∧ s ∈ NfaSat.final_states nfa).
Proof.
  intros Hvalid Hnd Hndi. split.
  - rewrite satisfiable_run by done. split.
    + intros [r Hr]. apply (run_to_accepts nfa "" r).
      apply run_lenient_strict; [| done]. intros t s Ht. simpl in Ht. lia.
    + intros [r Hr]%accepts_to_run; [| done].
      exists r. by apply run_strict_lenient.
  - unfold NfaSat.accepts. rewrite existsb_exists. simpl. split.
    + intros (s & Hs%list_elem_of_In & Hf%bool_decide_eq_true). eauto.
    + intros (s & Hs & Hf). exists s.
      split; [by apply list_elem_of_In | by apply bool_decide_eq_true].
Qed.

Lemma empty_word_exact_witness :
  NfaSat._validate_structure example_nfa = true
  ∧ NoDup (NfaSat.states example_nfa)
  ∧ NoDup (NfaSat.initial_states example_nfa)
  ∧ (Sat.satisfiable (clauses (NfaSat.generated example_nfa ""))
     ↔ NfaSat.accepts example_nfa "" = true).
Proof.
  assert (H1 : NfaSat._validate_structure example_nfa = true)
    by (vm_compute; reflexivity).
  assert (H2 : NoDup (NfaSat.states example_nfa))
    by (apply (bool_decide_unpack _); vm_compute; exact I).
  assert (H3 : NoDup (NfaSat.initial_states example_nfa))
    by (apply (bool_decide_unpack _); vm_compute; exact I).
  split; [exact H1 |]. split; [exact H2 |]. split; [exact H3 |].
  exact (proj1 (empty_word_exact example_nfa H1 H2 H3)).
Defined.

(** X19. A state listed twice in [states] is excluded by the formula: the
    pairwise at-most-one clauses hold the clause of the state against
    itself, so no model occupies it at any time. *)
Theorem repeated_state_excluded nfa input_string (a : Z → bool) i j s t :
  (i < j)%nat →
  NfaSat.states nfa !! i = Some s → NfaSat.states nfa !! j = Some s →
  (t ≤ String.length input_string)%nat →
  let g := NfaSat.generated nfa input_string in
  Sat.cnf_true a (clauses g) = true →
  names_of g a (prop_name (s, t)) = false.
Proof.
  intros Hlt Hi Hj Ht g Hsat.
  assert (Hν : ncnf_true (names_of g a) (named_cnf nfa input_string) = true)
    by (by rewrite (rep_cnf_true _ g a (nfa_generated_rep nfa input_string))).
  apply named_cnf_true in Hν as (_ & _ & Hone & _).
  destruct (Hone t Ht) as [_ Hmost].
  destruct (names_of g a (prop_name (s, t))) eqn:E; [| done].
  destruct (Hmost i j s s Hlt Hi Hj E E).
Qed.

Definition repeated_state_nfa : NfaSat.NFA :=
  {| NfaSat.states := ["q0"; "q1"; "q1"];
     NfaSat.alphabet := ["a"];
     NfaSat.transitions := ∅;
     NfaSat.initial_states := ["q0"];
     NfaSat.final_states := ["q0"] |}.

Lemma repeated_state_excluded_witness :
  let g := NfaSat.generated repeated_state_nfa "" in
  let a := λ v : Z, v =? 1 in
  NfaSat._validate_structure repeated_state_nfa = true
  ∧ Sat.cnf_true a (clauses g) = true
  ∧ names_of g a (prop_name ("q1", 0%nat)) = false.
Proof.
  intros g a.
  assert (H1 : Sat.cnf_true a (clauses g) = true) by (vm_compute; reflexivity).
  split; [by vm_compute |]. split; [exact H1 |].
  apply (repeated_state_excluded repeated_state_nfa "" a 1 2 "q1" 0);
    [lia | done | done | simpl; lia | exact H1].
Defined.

(** ** The solvers: [NFASolver.solve] and [TeacherSolver.solve] *)

(** The answer of the external SAT solver, as [solve] reads it: [None] when
    [self.solver.solve()] is false, otherwise the list that
    [self.solver.get_model()] returns. *)
Definition solver_answer : Type := option (list Z).

(** The answer is that of a correct solver on the formula of [g]: no
    answer only for a formula without model, and otherwise the model of a
    satisfying assignment of its variables. *)
Definition solver_correct (answer : solver_answer) (g : CNFGenerator) : Prop :=
  match answer with
  | None => ¬ Sat.satisfiable (clauses g)
  | Some model =>
      ∃ a, Sat.cnf_true a (clauses g) = true
           ∧ model = Sat.model_of a (size (var_map g))
  end.

Module NFASolver.
(** [NFASolver.solve]: [(False, None)] without a model, otherwise [True]
    and the path extracted from the model. *)
Definition solve (var_mapping : gmap Z string) (answer : solver_answer)
  : result (bool * option (list string)) :=
  match answer with
  | None => Ok (false, None)
  | Some model =>
      path ← NfaSat._extract_path var_mapping model;
      mret (true, Some path)
  end.
End NFASolver.

Module TeacherSolver.
(** [TeacherSolver.solve]: [(False, None)] without a model, otherwise
    [True] and the teachers extracted from the model. *)
Definition solve (var_mapping : gmap Z string) (answer : solver_answer)
  : result (bool * option (list string)) :=
  match answer with
  | None => Ok (false, None)
  | Some model =>
      selected_teachers ← SetCoverSat._extract_teachers var_mapping model;
      mret (true, Some selected_teachers)
  end.
End TeacherSolver.

(** X20. With a correct solver, [NFASolver.solve] on the formula of a
    validated automaton whose [states] list and [initial_states] list have
    no repetition and whose state names hold no underscore either returns [(True, path)] with [path] a lenient run of
    the automaton on the word, or returns [(False, None)] and then
    [accepts] returns [False] as well: the two answers that [main] compares
    can only differ when the formula is satisfiable. *)
Theorem nfa_solve_verdict nfa input_string (answer : solver_answer) :
  NfaSat._validate_structure nfa = true →
  NoDup (NfaSat.states nfa) → NoDup (NfaSat.initial_states nfa) →
  Forall (λ s, free_of "_" s = true) (NfaSat.states nfa) →
  let g := NfaSat.generated nfa input_string in
  solver_correct answer g →
  (∃ path, NFASolver.solve (get_var_mapping g) answer = Ok (true, Some path)
           ∧ run true nfa input_string path)
  ∨ (NFASolver.solve (get_var_mapping g) answer = Ok (false, None)
     ∧ NfaSat.accepts nfa input_string = false).
Proof.
  intros Hvalid Hnd Hndi Hfree g Hanswer.
  destruct answer as [model |]; simpl in Hanswer.
  - left. destruct Hanswer as (a & Hsat & ->).
    exists (run_of (names_of g a) nfa input_string). split.
    + unfold NFASolver.solve, NfaSat._extract_path.
      by rewrite (extract_path_in_run nfa input_string a).
    + apply model_run; [done |].
      by rewrite (rep_cnf_true _ g a (nfa_generated_rep nfa input_string)).
  - right. split; [done |].
    destruct (NfaSat.accepts nfa input_string) eqn:Hacc; [| done].
    destruct Hanswer. apply satisfiable_run; [done .. |].
    apply accepts_to_run in Hacc as [r Hr]; [| done].
    exists r. by apply run_strict_lenient.
Qed.

Lemma nfa_solve_verdict_witness :
  let g := NfaSat.generated example_nfa "ab" in
  let a := λ v, (v =? 1) || (v =? 3) || (v =? 5) in
  let answer := Some (Sat.model_of a (size (var_map g))) in
  solver_correct answer g
  ∧ ((∃ path, NFASolver.solve (get_var_mapping g) answer = Ok (true, Some path)
              ∧ run true example_nfa "ab" path)
     ∨ (NFASolver.solve (get_var_mapping g) answer = Ok (false, None)
        ∧ NfaSat.accepts example_nfa "ab" = false)).
Proof.
  intros g a answer.
  assert (H1 : NfaSat._validate_structure example_nfa = true)
    by (vm_compute; reflexivity).
  assert (H2 : NoDup (NfaSat.states example_nfa))
    by (apply (bool_decide_unpack _); vm_compute; exact I).
  assert (H3 : NoDup (NfaSat.initial_states example_nfa))
    by (apply (bool_decide_unpack _); vm_compute; exact I).
  assert (H4 : Forall (λ s, free_of "_" s = true) (NfaSat.states example_nfa))
    by (repeat constructor).
  assert (H5 : solver_correct answer g).
  { exists a. split; [vm_compute; reflexivity | reflexivity]. }
  split; [exact H5 |].
  exact (nfa_solve_verdict example_nfa "ab" answer H1 H2 H3 H4 H5).
Defined.

Lemma exact_cover_Permutation problem chosen chosen' :
  chosen ≡ₚ chosen' → exact_cover problem chosen → exact_cover problem chosen'.
Proof.
  intros Hperm [Hnd Hsize Hteachers Hsubjects]. split.
  - by rewrite <- Hperm.
  - by rewrite <- Hperm.
  - intros name Hname. apply Hteachers. by rewrite Hperm.
  - intros subject Hs. destruct (Hsubjects subject Hs) as (t & Ht & Hin & Hcan).
    exists t. split_and!; [done | | done]. by rewrite <- Hperm.
Qed.

(** The names decoded from a model are those of the selected teachers, each
    once. *)
Lemma selected_names_Permutation problem (a : Z → bool) :
  SetCoverSat._validate_structure problem = true →
  let g := SetCoverSat.generated problem in
  selected_names (get_var_mapping g) (Sat.model_of a (size (var_map g)))
  ≡ₚ Teacher.name <$> filter (λ t, selected a g t = true)
                        (SetCoverSat.teachers problem).
Proof.
  intros Hvalid g. destruct (validate_cover _ Hvalid) as [Hnames _].
  assert (Hok : interner_ok g) by apply cover_generated_ok.
  apply NoDup_Permutation.
  - apply selected_names_NoDup; [done | apply model_of_NoDup].
  - eapply sublist_NoDup; [apply Hnames |]. apply fmap_sublist, sublist_filter.
  - intros name. pose proof (chosen_selected problem a name) as Hcs.
    cbv zeta in Hcs. fold g in Hcs. rewrite Hcs, list_elem_of_fmap. split.
    + intros (t & Ht & Hname & Hsel). exists t.
      split; [done |]. by apply list_elem_of_filter.
    + intros (t & Hname & [Hsel Ht]%list_elem_of_filter). eauto.
Qed.

(** X21. With a correct solver, [TeacherSolver.solve] on the formula of a
    valid instance whose teacher names hold no underscore and for which
    [generate_cnf] returned either returns [(True, names)] with [names] the
    names of [k] teachers who cover the subjects, or returns [(False, None)]
    and then no [k] teachers cover them. *)
Theorem cover_solve_verdict problem (answer : solver_answer) :
  SetCoverSat._validate_structure problem = true →
  Forall (λ teacher, free_of "_" (Teacher.name teacher) = true)
    (SetCoverSat.teachers problem) →
  SetCoverSat.generate_outcome problem = Ok () →
  let g := SetCoverSat.generated problem in
  solver_correct answer g →
  (∃ names, TeacherSolver.solve (get_var_mapping g) answer = Ok (true, Some names)
            ∧ exact_cover problem names)
  ∨ (TeacherSolver.solve (get_var_mapping g) answer = Ok (false, None)
     ∧ ¬ ∃ chosen, exact_cover problem chosen).
Proof.
  intros Hvalid Hfree Hout g Hanswer.
  destruct answer as [model |]; simpl in Hanswer.
  - left. destruct Hanswer as (a & Hsat & ->).
    assert (Hok : interner_ok g) by apply cover_generated_ok.
    assert (Hnames : names_ok problem g) by apply cover_generated_names.
    set (names := selected_names (get_var_mapping g)
                    (Sat.model_of a (size (var_map g)))).
    assert (Hcover : exact_cover problem names).
    { eapply exact_cover_Permutation;
        [symmetry; by apply selected_names_Permutation |].
      by apply model_exact_cover. }
    exists names. split; [| done].
    unfold TeacherSolver.solve.
    rewrite (extract_teachers_spec problem) by done. fold names.
    cbn [mbind mret result_bind result_ret]. do 3 f_equal.
    apply fmap_up_to_free, Forall_forall. intros name Hname.
    destruct (cover_teachers _ _ Hcover name Hname) as (t & Ht & <-).
    by apply (proj1 (Forall_forall _ _) Hfree).
  - right. split; [done |]. intros [chosen Hchosen]. destruct Hanswer.
    destruct (exact_cover_model problem chosen Hvalid Hfree Hchosen) as [_ Hsat].
    by eexists.
Qed.

Lemma cover_solve_verdict_witness :
  let g := SetCoverSat.generated example_cover in
  let a := λ v, negb ((v =? 2) || (v =? 3)) in
  let answer := Some (Sat.model_of a (size (var_map g))) in
  solver_correct answer g
  ∧ ((∃ names, TeacherSolver.solve (get_var_mapping g) answer
               = Ok (true, Some names)
               ∧ exact_cover example_cover names)
     ∨ (TeacherSolver.solve (get_var_mapping g) answer = Ok (false, None)
        ∧ ¬ ∃ chosen, exact_cover example_cover chosen)).
Proof.
  intros g a answer.
  assert (H1 : SetCoverSat._validate_structure example_cover = true)
    by (vm_compute; reflexivity).
  assert (H2 : Forall (λ teacher, free_of "_" (Teacher.name teacher) = true)
                 (SetCoverSat.teachers example_cover))
    by (repeat constructor).
  assert (H3 : SetCoverSat.generate_outcome example_cover = Ok ())
    by (vm_compute; reflexivity).
  assert (H4 : solver_correct answer g).
  { exists a. split; [vm_compute; reflexivity | reflexivity]. }
  split; [exact H4 |].
  exact (cover_solve_verdict example_cover answer H1 H2 H3 H4).
Defined.

(** X22. The set-cover formula is sound whatever the names: for a valid
    instance for which [generate_cnf] returned, every model of the formula
    selects exactly [k] teachers who between them teach every required
    subject. *)
Theorem cover_formula_sound problem (a : Z → bool) :
  SetCoverSat._validate_structure problem = true →
  SetCoverSat.generate_outcome problem = Ok () →
  let g := SetCoverSat.generated problem in
  Sat.cnf_true a (clauses g) = true →
  let chosen := filter (λ t, selected a g t = true) (SetCoverSat.teachers problem) in
  Z.of_nat (length chosen) = SetCoverSat.k problem
  ∧ ∀ subject, subject ∈ SetCoverSat.subjects problem →
      ∃ teacher, teacher ∈ chosen ∧ SetCoverSat.can_teach teacher subject = true.
Proof.
  intros Hvalid Hout g Hsat chosen.
  destruct (model_exact_cover problem a Hvalid Hout Hsat)
    as [_ Hsize _ Hsubjects]. fold g in Hsize, Hsubjects. fold chosen in Hsize, Hsubjects.
  split; [by rewrite length_fmap in Hsize |].
  intros subject Hs. destruct (Hsubjects subject Hs) as (t & Ht & Hin & Hcan).
  apply list_elem_of_fmap in Hin as (t' & Hname & Ht').
  destruct (validate_cover _ Hvalid) as [Hnames _].
  assert (t = t') as <-; [| by exists t].
  apply (teacher_by_name _ _ _ Hnames Ht); [| done].
  by apply list_elem_of_filter in Ht' as [_ Ht'].
Qed.

Lemma cover_formula_sound_witness :
  SetCoverSat._validate_structure example_cover = true
  ∧ SetCoverSat.generate_outcome example_cover = Ok ()
  ∧ Z.of_nat (length (filter (λ t, selected (λ v, negb ((v =? 2) || (v =? 3)))
                                     (SetCoverSat.generated example_cover) t = true)
                        (SetCoverSat.teachers example_cover)))
    = SetCoverSat.k example_cover.
Proof.
  assert (H1 : SetCoverSat._validate_structure example_cover = true)
    by (vm_compute; reflexivity).
  assert (H2 : SetCoverSat.generate_outcome example_cover = Ok ())
    by (vm_compute; reflexivity).
  assert (H3 : Sat.cnf_true (λ v, negb ((v =? 2) || (v =? 3)))
                 (clauses (SetCoverSat.generated example_cover)) = true)
    by (vm_compute; reflexivity).
  split; [exact H1 |]. split; [exact H2 |].
  exact (proj1 (cover_formula_sound example_cover _ H1 H2 H3)).
Defined.

(** ** The names of the output files: [main] *)

(** [input_file.split("\\")[-1].split(".")[0]] in both [main] functions: the
    last piece between backslashes, up to its first dot. *)
Definition pure_filename (input_file : string) : result string :=
  match last (Py.split "\" input_file) with
  | Some piece =>
      match head (Py.split "." piece) with
      | Some name => Ok name
      | None => Raise IndexError
      end
  | None => Raise IndexError
  end.

(** [f"output\\nfa_output_{pure_filename}.cnf"], the path both programs
    write the DIMACS text to. *)
Definition output_cnf (input_file : string) : result string :=
  pure_filename ← pure_filename input_file;
  mret ("output\nfa_output_" +:+ pure_filename +:+ ".cnf").

Lemma split_pieces_free sep s :
  Forall (λ piece, free_of sep piece = true) (Py.split sep s).
Proof.
  induction s as [| c s IH]; [by repeat constructor |]. cbn.
  destruct (Ascii.eqb c sep) eqn:Hc; [by constructor |].
  pose proof (split_nonempty sep s) as Hne.
  destruct (Py.split sep s) as [| piece pieces]; [done |].
  apply Forall_cons in IH as [Hpiece Hpieces]. constructor; [| done].
  unfold free_of in *. simpl. by rewrite Hc, Hpiece.
Qed.

Lemma up_to_is_free sep s : free_of sep (up_to sep s) = true.
Proof.
  induction s as [| c s IH]; [done |]. simpl.
  destruct (Ascii.eqb c sep) eqn:Hc; [done |].
  unfold free_of in *. simpl. by rewrite Hc, IH.
Qed.

Lemma up_to_keeps_free c sep s : free_of c s = true → free_of c (up_to sep s) = true.
Proof.
  induction s as [| d s IH]; [done |]. unfold free_of in *. simpl.
  intros [Hd Hs]%andb_true_iff.
  destruct (Ascii.eqb d sep); [done |]. simpl. by rewrite Hd, IH.
Qed.

Lemma last_split_append sep a b :
  last (Py.split sep (a +:+ String sep b)) = last (Py.split sep b).
Proof.
  rewrite split_append. pose proof (split_nonempty sep b) as Hne.
  destruct (Py.split sep b) as [| x l] using rev_ind; [done |].
  by rewrite app_assoc, !last_snoc.
Qed.

Lemma pure_filename_piece piece :
  free_of "\" piece = true →
  pure_filename piece = Ok (up_to "." piece).
Proof.
  intros Hfree. unfold pure_filename. rewrite (split_free _ _ Hfree). simpl.
  by rewrite head_split.
Qed.

(** X23. The name both [main] functions give to their output files: for
    every input path the computation returns, and the name holds neither a
    backslash nor a dot; for a path [dir\name.ext] it is [name], and the
    DIMACS text goes to [output\nfa_output_name.cnf]. *)
Theorem pure_filename_spec (input_file : string) :
  (∃ name, pure_filename input_file = Ok name
           ∧ free_of "\" name = true ∧ free_of "." name = true)
  ∧ ∀ dir name ext,
      free_of "\" name = true → free_of "." name = true →
      free_of "\" ext = true →
      input_file = dir +:+ String "\" (name +:+ String "." ext) →
      pure_filename input_file = Ok name
      ∧ output_cnf input_file = Ok ("output\nfa_output_" +:+ name +:+ ".cnf").
Proof.
  split.
  - unfold pure_filename.
    pose proof (split_nonempty "\" input_file) as Hne.
    pose proof (split_pieces_free "\" input_file) as Hfree.
    destruct (Py.split "\" input_file) as [| piece pieces] using rev_ind; [done |].
    rewrite last_snoc. apply Forall_app in Hfree as [_ Hpiece].
    apply (proj1 (Forall_singleton _ _)) in Hpiece.
    rewrite head_split. eexists. split; [done |].
    split; [by apply up_to_keeps_free | apply up_to_is_free].
  - intros dir name ext Hname Hdot Hext ->.
    assert (Hpure : pure_filename (dir +:+ String "\" (name +:+ String "." ext))
                    = Ok name).
    { unfold pure_filename. rewrite last_split_append.
      assert (Hfree : free_of "\" (name +:+ String "." ext) = true).
      { unfold free_of in *. rewrite all_chars_app. simpl. by rewrite Hname, Hext. }
      rewrite (split_free _ _ Hfree). simpl.
      by rewrite head_split, up_to_app. }
    split; [done |]. unfold output_cnf. by rewrite Hpure.
Qed.

(** ** What validation guarantees *)

Lemma valid_source nfa s symbol :
  NfaSat._validate_structure nfa = true →
  NfaSat.get_next_states nfa s symbol ≠ [] → s ∈ NfaSat.states nfa.
Proof.
  unfold NfaSat._validate_structure, NfaSat.get_next_states.
  rewrite !andb_true_iff. intros [_ H].
  destruct (NfaSat.transitions nfa !! s) as [trans |] eqn:Ht; [| done].
  intros _. apply elem_of_map_to_list in Ht.
  apply (forallb_elem_of _ _ _ H) in Ht.
  apply andb_true_iff in Ht as [Ht _]. by apply bool_decide_eq_true in Ht.
Qed.

(** X24. The transitions of a validated automaton stay inside what it
    declares: every successor [get_next_states] returns is a declared state,
    reached from a declared state on a symbol of the alphabet; from an
    undeclared state or on a foreign symbol there is no successor. *)
Theorem validated_transitions_closed nfa s symbol s' :
  NfaSat._validate_structure nfa = true →
  s' ∈ NfaSat.get_next_states nfa s symbol →
  s ∈ NfaSat.states nfa ∧ symbol ∈ NfaSat.alphabet nfa ∧ s' ∈ NfaSat.states nfa.
Proof.
  intros Hvalid Hs'. split_and!.
  - apply (valid_source nfa s symbol Hvalid). intros Hnil.
    rewrite Hnil in Hs'. by apply elem_of_nil in Hs'.
  - destruct (decide (symbol ∈ NfaSat.alphabet nfa)) as [| Hnot]; [done |].
    rewrite (valid_symbol nfa s symbol Hvalid Hnot) in Hs'.
    by apply elem_of_nil in Hs'.
  - by apply (valid_next nfa s symbol s' Hvalid).
Qed.

Lemma validated_transitions_closed_witness :
  NfaSat._validate_structure example_nfa = true
  ∧ "q1" ∈ NfaSat.get_next_states example_nfa "q0" "a"
  ∧ "q0" ∈ NfaSat.states example_nfa
  ∧ "a" ∈ NfaSat.alphabet example_nfa
  ∧ "q1" ∈ NfaSat.states example_nfa.
Proof.
  assert (H1 : NfaSat._validate_structure example_nfa = true)
    by (vm_compute; reflexivity).
  assert (H2 : "q1" ∈ NfaSat.get_next_states example_nfa "q0" "a")
    by (vm_compute; right; left).
  split; [exact H1 |]. split; [exact H2 |].
  exact (validated_transitions_closed example_nfa "q0" "a" "q1" H1 H2).
Defined.

Lemma remove_dups_NoDup_length {A} `{EqDecision A} (l : list A) :
  NoDup l → length l = length (remove_dups l).
Proof.
  induction 1 as [| x l Hx _ IH]; [done |]. simpl.
  case_decide; [done |]. simpl. by rewrite IH.
Qed.

(** X25. [_validate_structure] of the set-cover instance accepts exactly
    the instances whose teachers have pairwise distinct names, that have at
    least one teacher, and whose [k] is positive. *)
Theorem cover_validation_contract problem :
  SetCoverSat._validate_structure problem = true
  ↔ NoDup (Teacher.name <$> SetCoverSat.teachers problem)
    ∧ SetCoverSat.teachers problem ≠ []
    ∧ 0 < SetCoverSat.k problem.
Proof.
  unfold SetCoverSat._validate_structure.
  rewrite !andb_true_iff, !negb_true_iff, bool_decide_eq_true,
    bool_decide_eq_false, Z.leb_gt.
  split.
  - intros [[Hdup Hne] Hk]. split_and!; [| | done].
    + by apply remove_dups_length_NoDup.
    + intros Hnil. apply Hne. by rewrite Hnil.
  - intros (Hnd & Hne & Hk). split_and!; [| | done].
    + by apply remove_dups_NoDup_length.
    + intros Hlen. apply Hne. by apply nil_length_inv.
Qed.
